(** * pierce / price_scraper: the crawl orchestration core

    A shallow embedding of
      - [src/utils/rate_limiter.py]    (token bucket and fixed-delay limiters),
      - [src/utils/firecrawl_cache.py] (the on-disk result cache),
      - [src/crawlers/base_crawler.py] (retrying fetch, per-URL crawl, batch driver),
    together with the properties the specification states about them, and
    further properties of the same code and of what surrounds it: the
    reading of the reply in [src/services/ai_search_generator.py], and the
    sorting of sitemap entries in [src/processors/sitemap_parser.py].

    Conventions.  Python floats (seconds, token counts) are read as
    rationals [Q]: the statements below are order properties that do not
    depend on rounding.  Python text is a [string] whose characters stand for
    the code points 0..255.  An exception is a value carrying its class and
    its [str()]; the classes are the ones the code can meet: [Exception], a
    number of its subclasses, and two classes that derive from
    [BaseException] alone.

    Stateful code is written in the style of the source: the token bucket
    as a function on its record, the cache in a state-and-exception monad
    over the files of its directory, the crawler as coroutines (a free monad
    over the operations it performs on its surroundings).  A coroutine is run
    in two ways: awaited on its own ([run]), and one turn at a time by the
    event loop of [crawl_multiple] ([advance], [gather]), which may pick any
    ready task at each step.  Logging is left out. *)

From Stdlib Require Import QArith Qminmax Qround Lqa ZArith Lia List Bool.
From Stdlib Require Import Strings.String Strings.Ascii DecimalString.
From stdpp Require Import base option list gmap strings.

Local Open Scope Q_scope.
Set Warnings "-register-all".


(** ** Python exceptions *)

(** The classes that the code names or that the calls it makes can raise.
    All but the last two are [Exception] or subclasses of it;
    [asyncio.CancelledError] and [KeyboardInterrupt] derive from
    [BaseException] and are no instances of [Exception]. *)
Inductive ExcClass : Type :=
| Exception
| ValueError
| JSONDecodeError      (* a subclass of ValueError *)
| KeyError
| TypeError
| AttributeError
| ZeroDivisionError
| InvalidOperation     (* decimal.InvalidOperation *)
| RecursionError
| OSError
| CancelledError       (* asyncio.CancelledError *)
| KeyboardInterrupt.

Record PyExc : Type := mkExc { exc_class : ExcClass; exc_str : string }.

(** What a call produces: a value, or a raised exception. *)
Inductive Outcome (A : Type) : Type :=
| Ok (a : A)
| Exc (e : PyExc).
Arguments Ok {A} a.
Arguments Exc {A} e.

(** [isinstance(e, cls)] on the classes above. *)
Definition subclass_of (c cls : ExcClass) : bool :=
  match cls, c with
  | Exception, (CancelledError | KeyboardInterrupt) => false
  | Exception, _ => true
  | ValueError, (ValueError | JSONDecodeError) => true
  | JSONDecodeError, JSONDecodeError => true
  | KeyError, KeyError => true
  | TypeError, TypeError => true
  | AttributeError, AttributeError => true
  | ZeroDivisionError, ZeroDivisionError => true
  | InvalidOperation, InvalidOperation => true
  | RecursionError, RecursionError => true
  | OSError, OSError => true
  | CancelledError, CancelledError => true
  | KeyboardInterrupt, KeyboardInterrupt => true
  | _, _ => false
  end.

Definition isinstance (e : PyExc) (classes : list ExcClass) : bool :=
  existsb (subclass_of (exc_class e)) classes.

(** [type(e).__name__]. *)
Definition class_name (c : ExcClass) : string :=
  match c with
  | Exception => "Exception"
  | ValueError => "ValueError"
  | JSONDecodeError => "JSONDecodeError"
  | KeyError => "KeyError"
  | TypeError => "TypeError"
  | AttributeError => "AttributeError"
  | ZeroDivisionError => "ZeroDivisionError"
  | InvalidOperation => "InvalidOperation"
  | RecursionError => "RecursionError"
  | OSError => "OSError"
  | CancelledError => "CancelledError"
  | KeyboardInterrupt => "KeyboardInterrupt"
  end.

(** Python's two-argument [min(a, b)]: [a] unless [b < a]. *)
Definition py_min (a b : Q) : Q :=
  if Qlt_le_dec b a then b else a.

(** ** src/utils/rate_limiter.py *)

Module TokenBucket.

(** [class RateLimiter]: the fields set by [__init__] (the lock guards
    the whole body of [acquire], so calls run one after the other). *)
Record RateLimiter : Type := mkRateLimiter {
  requests_per_second : Q;
  burst_size : Z;
  tokens : Q;
  last_refill : Q
}.

(** [RateLimiter.__init__]; [now] is what [time.time()] returns. *)
Definition __init__ (requests_per_second : Q) (burst_size : Z) (now : Q)
  : Outcome RateLimiter :=
  Ok {| requests_per_second := requests_per_second;
        burst_size := burst_size;
        tokens := inject_Z burst_size;
        last_refill := now |}.

(** The refill step of [acquire]. *)
Definition refilled (self : RateLimiter) (now : Q) : Q :=
  let elapsed := now - last_refill self in
  py_min (inject_Z (burst_size self))
         (tokens self + elapsed * requests_per_second self).

(** What one [acquire] did besides updating the state. *)
Inductive Acquired : Type :=
| Immediately
| Slept (wait_time : Q)
| Raised (e : PyExc).

(** [RateLimiter.acquire], run at clock reading [now]. *)
Definition acquire (self : RateLimiter) (now : Q) : RateLimiter * Acquired :=
  let tokens1 := refilled self now in
  let self1 := {| requests_per_second := requests_per_second self;
                  burst_size := burst_size self;
                  tokens := tokens1;
                  last_refill := now |} in
  if Qlt_le_dec tokens1 1 then
    if Qeq_bool (requests_per_second self) 0 then
      (self1, Raised (mkExc ZeroDivisionError "float division by zero"))
    else
      let wait_time := (1 - tokens1) / requests_per_second self in
      ({| requests_per_second := requests_per_second self;
          burst_size := burst_size self;
          tokens := 0;
          last_refill := now |}, Slept wait_time)
  else
    ({| requests_per_second := requests_per_second self;
        burst_size := burst_size self;
        tokens := tokens1 - 1;
        last_refill := now |}, Immediately).

(** The states a limiter goes through over a sequence of calls, the
    n-th made at clock reading [nth n clock]. *)
Fixpoint history (self : RateLimiter) (clock : list Q) : list RateLimiter :=
  match clock with
  | [] => [self]
  | now :: rest => self :: history (fst (acquire self now)) rest
  end.

Definition in_bounds (self : RateLimiter) : Prop :=
  0 <= tokens self /\ tokens self <= inject_Z (burst_size self).

End TokenBucket.

(** [class DelayRateLimiter] of rate_limiter.py. *)
Module DelayLimiter.

Record DelayRateLimiter : Type := mkDelayRateLimiter {
  requests_per_second : Q;
  delay_between_requests : Q;
  last_request_time : Q
}.

Definition __init__ (requests_per_second delay_between_requests : Q)
  : Outcome DelayRateLimiter :=
  Ok {| requests_per_second := requests_per_second;
        delay_between_requests := delay_between_requests;
        last_request_time := 0 |}.

End DelayLimiter.


(** ** src/utils/firecrawl_cache.py *)

(** The keys of a dictionary that [json.dump] accepts: text, and the
    numbers, booleans and [None], which it writes as text. *)
Inductive jkey : Type :=
| KStr (s : string)
| KInt (n : Z)
| KFloat (x : Q)
| KBool (b : bool)
| KNone.

(** The Python values that [json.dump] accepts.  [JNull] is [None],
    [JFloat] a finite float, [JArr] a list, [JTuple] a tuple, [JObj] a
    dictionary with its members in insertion order.  What [json.load]
    produces are the values without tuples whose dictionaries have text
    keys. *)
Inductive json : Type :=
| JNull
| JBool (b : bool)
| JInt (n : Z)
| JFloat (x : Q)
| JStr (s : string)
| JArr (items : list json)
| JTuple (items : list json)
| JObj (members : list (jkey * json)).

(** What [json.load] does with a text: it returns the value read, raises
    [json.JSONDecodeError] on text that is no JSON document, or raises
    [RecursionError] on a document nested deeper than the interpreter's
    recursion limit allows. *)
Inductive Loaded : Type :=
| Parsed (value : json)
| Malformed
| TooDeep.

(** [datetime]: microseconds on the local time line; one parsed from text
    may carry a UTC offset. *)
Inductive datetime : Type :=
| Naive (us : Z)
| Aware (us : Z) (utcoffset : Z).

(** The library functions the cache calls ([hashlib], [json], [datetime]).
    They are not part of the repository and stay abstract. *)
Class PyLib : Type := {
  md5_hexdigest : string -> string;
  json_dump : json -> string;
  json_load : string -> Loaded;
  isoformat : Z -> string;                    (* of a naive datetime *)
  fromisoformat : string -> option datetime   (* None: ValueError *)
}.

Module Cache.
Section WithLib.
Context {lib : PyLib}.

Record FirecrawlCache : Type := mkFirecrawlCache {
  cache_dir : string;
  ttl_hours : Z
}.

(** [self.ttl = timedelta(hours=ttl_hours)], in microseconds. *)
Definition ttl (self : FirecrawlCache) : Z :=
  (ttl_hours self * 3600000000)%Z.

(** The cache directory: file path to file text.  Reads and writes of
    the directory itself do not fail. *)
Abbreviation Disk := (gmap string string).

(** Computations over the disk that may raise. *)
Definition IO (A : Type) : Type := Disk -> Outcome A * Disk.

Definition ret {A} (a : A) : IO A := fun d => (Ok a, d).
Definition bind {A B} (m : IO A) (k : A -> IO B) : IO B :=
  fun d => match m d with
           | (Ok a, d') => k a d'
           | (Exc e, d') => (Exc e, d')
           end.
Definition lift {A} (o : Outcome A) : IO A := fun d => (o, d).

(** [try: body  except classes as e: handler e]. *)
Definition try_except {A} (body : IO A) (classes : list ExcClass)
    (handler : PyExc -> IO A) : IO A :=
  fun d => match body d with
           | (Ok a, d') => (Ok a, d')
           | (Exc e, d') =>
               if isinstance e classes then handler e d' else (Exc e, d')
           end.

Notation "x <- m ;; k" := (bind m (fun x => k))
  (at level 100, m at next level, right associativity).
Notation "m ;;; k" := (bind m (fun _ => k))
  (at level 100, right associativity).

(** [Path.exists], reading a file, writing a file, [Path.unlink]. *)
Definition path_exists (path : string) : IO bool :=
  fun d => (Ok (bool_decide (is_Some (d !! path))), d).

Definition read_text (path : string) : IO string :=
  fun d => match d !! path with
           | Some text => (Ok text, d)
           | None => (Exc (mkExc OSError "No such file or directory"), d)
           end.

Definition write_text (path text : string) : IO unit :=
  fun d => (Ok tt, <[path := text]> d).

Definition unlink (path : string) : IO unit :=
  fun d => match d !! path with
           | Some _ => (Ok tt, delete path d)
           | None => (Exc (mkExc OSError "No such file or directory"), d)
           end.

(** The dictionary key [k] is the text [text]. *)
Definition key_is (k : jkey) (text : string) : bool :=
  match k with
  | KStr s => String.eqb s text
  | _ => false
  end.

Fixpoint assoc (key : string) (members : list (jkey * json)) : option json :=
  match members with
  | [] => None
  | (k, v) :: rest => if key_is k key then Some v else assoc key rest
  end.

(** [value[key]] with a text key: only a dictionary can answer. *)
Definition subscript (value : json) (key : string) : Outcome json :=
  match value with
  | JObj members =>
      match assoc key members with
      | Some v => Ok v
      | None => Exc (mkExc KeyError ("'" ++ key ++ "'"))
      end
  | JStr _ => Exc (mkExc TypeError "string indices must be integers, not 'str'")
  | JArr _ =>
      Exc (mkExc TypeError "list indices must be integers or slices, not str")
  | JTuple _ =>
      Exc (mkExc TypeError "tuple indices must be integers or slices, not str")
  | JInt _ => Exc (mkExc TypeError "'int' object is not subscriptable")
  | JFloat _ => Exc (mkExc TypeError "'float' object is not subscriptable")
  | JBool _ => Exc (mkExc TypeError "'bool' object is not subscriptable")
  | JNull => Exc (mkExc TypeError "'NoneType' object is not subscriptable")
  end.

Definition json_load_text (text : string) : Outcome json :=
  match json_load text with
  | Parsed v => Ok v
  | Malformed => Exc (mkExc JSONDecodeError "Expecting value")
  | TooDeep =>
      Exc (mkExc RecursionError "maximum recursion depth exceeded")
  end.

(** [datetime.fromisoformat(value)]. *)
Definition datetime_fromisoformat (value : json) : Outcome datetime :=
  match value with
  | JStr text =>
      match fromisoformat text with
      | Some t => Ok t
      | None => Exc (mkExc ValueError "Invalid isoformat string")
      end
  | _ => Exc (mkExc TypeError "fromisoformat: argument must be str")
  end.

(** [datetime.now() - cached_at]: a timedelta in microseconds. *)
Definition since (now : Z) (cached_at : datetime) : Outcome Z :=
  match cached_at with
  | Naive us => Ok (now - us)%Z
  | Aware _ _ =>
      Exc (mkExc TypeError "can't subtract offset-naive and offset-aware datetimes")
  end.

Definition _get_cache_key (url : string) : string := md5_hexdigest url.

Definition _get_cache_file (self : FirecrawlCache) (cache_key : string) : string :=
  (cache_dir self ++ "/" ++ cache_key ++ ".json")%string.

(** [FirecrawlCache.get]; [now] is what [datetime.now()] returns.  The
    result [JNull] is Python's [None]. *)
Definition get (self : FirecrawlCache) (url : string) (now : Z) : IO json :=
  let cache_key := _get_cache_key url in
  let cache_file := _get_cache_file self cache_key in
  present <- path_exists cache_file ;;
  if negb present then ret JNull
  else
    try_except
      (text <- read_text cache_file ;;
       cache_data <- lift (json_load_text text) ;;
       stamp <- lift (subscript cache_data "cached_at") ;;
       cached_at <- lift (datetime_fromisoformat stamp) ;;
       age <- lift (since now cached_at) ;;
       if (ttl self <? age)%Z then
         (unlink cache_file ;;; ret JNull)
       else
         lift (subscript cache_data "firecrawl_result"))
      [JSONDecodeError; KeyError; ValueError]
      (fun e => unlink cache_file ;;; ret JNull).

(** The dictionary [set] writes. *)
Definition cache_entry (url : string) (now : Z) (firecrawl_result : json) : json :=
  JObj [(KStr "url", JStr url);
        (KStr "cached_at", JStr (isoformat now));
        (KStr "firecrawl_result", firecrawl_result)]%string.

(** [FirecrawlCache.set]; [now] is what [datetime.now()] returns. *)
Definition set (self : FirecrawlCache) (url : string) (firecrawl_result : json)
    (now : Z) : IO unit :=
  let cache_key := _get_cache_key url in
  let cache_file := _get_cache_file self cache_key in
  let cache_data := cache_entry url now firecrawl_result in
  try_except
    (write_text cache_file (json_dump cache_data))
    [Exception]
    (fun e => ret tt).

(** The entries [get] treats as expired or corrupt: text that does not
    parse, an object without a [cached_at] member, a [cached_at] text that
    is no timestamp, an age above the ttl, and a fresh object without a
    [firecrawl_result] member. *)
Inductive Stale (self : FirecrawlCache) (now : Z) (text : string) : Prop :=
| stale_unparseable :
    json_load text = Malformed -> Stale self now text
| stale_no_stamp members :
    json_load text = Parsed (JObj members) ->
    assoc "cached_at" members = None -> Stale self now text
| stale_bad_stamp members stamp :
    json_load text = Parsed (JObj members) ->
    assoc "cached_at" members = Some (JStr stamp) ->
    fromisoformat stamp = None -> Stale self now text
| stale_expired members stamp us :
    json_load text = Parsed (JObj members) ->
    assoc "cached_at" members = Some (JStr stamp) ->
    fromisoformat stamp = Some (Naive us) ->
    (ttl self < now - us)%Z -> Stale self now text
| stale_no_result members stamp us :
    json_load text = Parsed (JObj members) ->
    assoc "cached_at" members = Some (JStr stamp) ->
    fromisoformat stamp = Some (Naive us) ->
    (now - us <= ttl self)%Z ->
    assoc "firecrawl_result" members = None -> Stale self now text.

End WithLib.
End Cache.

(** ** A concrete library, for running the cache on examples

    Stand-ins for [json], [datetime] and [hashlib] with the same interface:
    compact JSON text (a tuple written as an array and a key that is no text
    as its text, as [json.dump] does; a float written as the fraction it
    stands for), ISO 8601 timestamps counted from 1970-01-01T00:00:00, and the
    hexadecimal spelling of the URL as its content address.  The reader has
    no recursion limit. *)

Module RefLib.

Local Open Scope string_scope.
Local Open Scope Z_scope.

Definition dquote : ascii := ascii_of_nat 34.
Definition backslash : ascii := ascii_of_nat 92.

Definition string_of_Z (n : Z) : string := NilEmpty.string_of_int (Z.to_int n).

Fixpoint escape (s : string) : string :=
  match s with
  | EmptyString => EmptyString
  | String c r =>
      if (Ascii.eqb c dquote || Ascii.eqb c backslash)%bool
      then String backslash (String c (escape r))
      else String c (escape r)
  end.

Definition string_of_Q (x : Q) : string :=
  string_of_Z (Qnum x) ++ "/" ++ string_of_Z (Zpos (Qden x)).

(** The text [json.dump] writes for a key. *)
Definition key_text (k : jkey) : string :=
  match k with
  | KStr s => s
  | KInt n => string_of_Z n
  | KFloat x => string_of_Q x
  | KBool true => "true"
  | KBool false => "false"
  | KNone => "null"
  end.

Fixpoint dumps (v : json) : string :=
  match v with
  | JNull => "null"
  | JBool true => "true"
  | JBool false => "false"
  | JInt n => string_of_Z n
  | JFloat x => string_of_Q x
  | JStr s => String dquote (escape s) ++ String dquote ""
  | JArr items | JTuple items =>
      "[" ++ (fix go (l : list json) : string :=
                match l with
                | [] => ""
                | [x] => dumps x
                | x :: r => dumps x ++ ", " ++ go r
                end) items ++ "]"
  | JObj members =>
      "{" ++ (fix go (l : list (jkey * json)) : string :=
                match l with
                | [] => ""
                | [(k, x)] =>
                    String dquote (escape (key_text k)) ++ String dquote ": "
                      ++ dumps x
                | (k, x) :: r =>
                    String dquote (escape (key_text k)) ++ String dquote ": "
                      ++ dumps x ++ ", " ++ go r
                end) members ++ "}"
  end.

Definition is_ws (c : ascii) : bool :=
  match nat_of_ascii c with
  | 32%nat | 9%nat | 10%nat | 13%nat => true
  | _ => false
  end.

Fixpoint skip_ws (s : string) : string :=
  match s with
  | String c r => if is_ws c then skip_ws r else s
  | EmptyString => s
  end.

Definition digit_of (c : ascii) : option Z :=
  let n := Z.of_nat (nat_of_ascii c) in
  if (48 <=? n) && (n <=? 57) then Some (n - 48) else None.

Fixpoint read_digits (acc : Z) (count : nat) (s : string) : Z * nat * string :=
  match s with
  | String c r =>
      match digit_of c with
      | Some d => read_digits (acc * 10 + d) (S count) r
      | None => (acc, count, s)
      end
  | EmptyString => (acc, count, s)
  end.

(** The text of a string literal after its opening quote. *)
Fixpoint read_chars (s : string) : option (string * string) :=
  match s with
  | EmptyString => None
  | String c r =>
      if Ascii.eqb c dquote then Some ("", r)
      else if Ascii.eqb c backslash then
        match r with
        | String c' r' =>
            match read_chars r' with
            | Some (t, rest) => Some (String c' t, rest)
            | None => None
            end
        | EmptyString => None
        end
      else
        match read_chars r with
        | Some (t, rest) => Some (String c t, rest)
        | None => None
        end
  end.

Fixpoint strip_prefix (p s : string) : option string :=
  match p, s with
  | EmptyString, _ => Some s
  | String a p', String b s' => if Ascii.eqb a b then strip_prefix p' s' else None
  | _, _ => None
  end.

(** A number: an integer, or, followed by a slash and a denominator, a
    float. *)
Definition read_number (sign : Z) (s : string) : option (json * string) :=
  match read_digits 0 0 s with
  | (_, O, _) => None
  | (n, _, String "/" r) =>
      match read_digits 0 0 r with
      | (_, O, _) => None
      | (d, _, rest) =>
          if 0 <? d then Some (JFloat (Qmake (sign * n) (Z.to_pos d)), rest)
          else None
      end
  | (n, _, rest) => Some (JInt (sign * n), rest)
  end.

Definition read_int (s : string) : option (json * string) :=
  match s with
  | String "-" r => read_number (-1) r
  | _ => read_number 1 s
  end.

Fixpoint read_value (fuel : nat) (s : string) : option (json * string) :=
  match fuel with
  | O => None
  | S fuel' =>
      match skip_ws s with
      | String "n" _ as t => rest ← strip_prefix "null" t; Some (JNull, rest)
      | String "t" _ as t => rest ← strip_prefix "true" t; Some (JBool true, rest)
      | String "f" _ as t => rest ← strip_prefix "false" t; Some (JBool false, rest)
      | String "[" r =>
          match skip_ws r with
          | String "]" r' => Some (JArr [], r')
          | _ => '(items, rest) ← read_items fuel' r; Some (JArr items, rest)
          end
      | String "{" r =>
          match skip_ws r with
          | String "}" r' => Some (JObj [], r')
          | _ => '(members, rest) ← read_members fuel' r; Some (JObj members, rest)
          end
      | String c r as t =>
          if Ascii.eqb c dquote then
            '(text, rest) ← read_chars r; Some (JStr text, rest)
          else read_int t
      | EmptyString => None
      end
  end
with read_items (fuel : nat) (s : string) : option (list json * string) :=
  match fuel with
  | O => None
  | S fuel' =>
      '(v, rest) ← read_value fuel' s;
      match skip_ws rest with
      | String "," r => '(vs, rest') ← read_items fuel' r; Some (v :: vs, rest')
      | String "]" r => Some ([v], r)
      | _ => None
      end
  end
with read_members (fuel : nat) (s : string)
    : option (list (jkey * json) * string) :=
  match fuel with
  | O => None
  | S fuel' =>
      match skip_ws s with
      | String c r =>
          if Ascii.eqb c dquote then
            '(key, rest) ← read_chars r;
            match skip_ws rest with
            | String ":" r1 =>
                '(v, rest1) ← read_value fuel' r1;
                match skip_ws rest1 with
                | String "," r2 =>
                    '(ms, rest2) ← read_members fuel' r2;
                    Some ((KStr key, v) :: ms, rest2)
                | String "}" r2 => Some ([(KStr key, v)], r2)
                | _ => None
                end
            | _ => None
            end
          else None
      | EmptyString => None
      end
  end.

Definition loads (text : string) : Loaded :=
  match read_value (S (String.length text)) text with
  | Some (v, rest) =>
      match skip_ws rest with
      | EmptyString => Parsed v
      | _ => Malformed
      end
  | None => Malformed
  end.

(** Timestamps: the proleptic Gregorian calendar, days counted from
    1970-01-01. *)
Definition civil_from_days (days : Z) : Z * Z * Z :=
  let z := days + 719468 in
  let era := z / 146097 in
  let doe := z - era * 146097 in
  let yoe := (doe - doe / 1460 + doe / 36524 - doe / 146096) / 365 in
  let doy := doe - (365 * yoe + yoe / 4 - yoe / 100) in
  let mp := (5 * doy + 2) / 153 in
  let d := doy - (153 * mp + 2) / 5 + 1 in
  let m := if mp <? 10 then mp + 3 else mp - 9 in
  let y := yoe + era * 400 in
  (if m <=? 2 then y + 1 else y, m, d).

Definition days_from_civil (y m d : Z) : Z :=
  let y' := if m <=? 2 then y - 1 else y in
  let era := y' / 400 in
  let yoe := y' - era * 400 in
  let mp := (m + 9) mod 12 in
  let doy := (153 * mp + 2) / 5 + d - 1 in
  let doe := yoe * 365 + yoe / 4 - yoe / 100 + doy in
  era * 146097 + doe - 719468.

Fixpoint zeros (n : nat) : string :=
  match n with
  | O => ""
  | S n' => String "0" (zeros n')
  end.

Definition pad (width : nat) (n : Z) : string :=
  let digits := string_of_Z n in
  zeros (width - String.length digits) ++ digits.

Definition format_iso (us : Z) : string :=
  let days := us / 86400000000 in
  let rest := us mod 86400000000 in
  let secs := rest / 1000000 in
  let micro := rest mod 1000000 in
  let '(y, m, d) := civil_from_days days in
  pad 4 y ++ "-" ++ pad 2 m ++ "-" ++ pad 2 d ++ "T"
    ++ pad 2 (secs / 3600) ++ ":" ++ pad 2 (secs / 60 mod 60) ++ ":"
    ++ pad 2 (secs mod 60)
    ++ (if micro =? 0 then "" else "." ++ pad 6 micro).

(** Exactly [n] decimal digits. *)
Fixpoint take_digits (n : nat) (acc : Z) (s : string) : option (Z * string) :=
  match n with
  | O => Some (acc, s)
  | S n' =>
      match s with
      | String c r => d ← digit_of c; take_digits n' (acc * 10 + d) r
      | EmptyString => None
      end
  end.

Definition expect (c : ascii) (s : string) : option string :=
  match s with
  | String c' r => if Ascii.eqb c c' then Some r else None
  | EmptyString => None
  end.

Definition read_offset (s : string) : option (option Z) :=
  match s with
  | EmptyString => Some None
  | String sign r =>
      '(hh, r1) ← take_digits 2 0 r;
      r2 ← expect ":" r1;
      '(mm, r3) ← take_digits 2 0 r2;
      match r3 with
      | EmptyString =>
          if Ascii.eqb sign "+" then Some (Some (hh * 60 + mm))
          else if Ascii.eqb sign "-" then Some (Some (- (hh * 60 + mm)))
          else None
      | _ => None
      end
  end.

Definition parse_iso (text : string) : option datetime :=
  '(y, r1) ← take_digits 4 0 text;
  r2 ← expect "-" r1;
  '(m, r3) ← take_digits 2 0 r2;
  r4 ← expect "-" r3;
  '(d, r5) ← take_digits 2 0 r4;
  r6 ← expect "T" r5;
  '(hh, r7) ← take_digits 2 0 r6;
  r8 ← expect ":" r7;
  '(mi, r9) ← take_digits 2 0 r8;
  r10 ← expect ":" r9;
  '(ss, r11) ← take_digits 2 0 r10;
  '(micro, r12) ← match r11 with
                  | String "." r => take_digits 6 0 r
                  | _ => Some (0, r11)
                  end;
  offset ← read_offset r12;
  let days := days_from_civil y m d in
  if negb ((1 <=? y) && (hh <? 24) && (mi <? 60) && (ss <? 60)) then None
  else
    match civil_from_days days with
    | (y', m', d') =>
        if (y' =? y) && (m' =? m) && (d' =? d) then
          let us := ((days * 86400 + hh * 3600 + mi * 60 + ss) * 1000000 + micro) in
          match offset with
          | None => Some (Naive us)
          | Some minutes => Some (Aware us minutes)
          end
        else None
    end.

(** The content address: two hexadecimal digits per character. *)
Definition hex_digit (n : nat) : ascii :=
  ascii_of_nat (if Nat.ltb n 10 then 48 + n else 87 + n).

Fixpoint hexdigest (s : string) : string :=
  match s with
  | EmptyString => ""
  | String c r =>
      let n := nat_of_ascii c in
      String (hex_digit (Nat.div n 16)) (String (hex_digit (Nat.modulo n 16)) (hexdigest r))
  end.

#[export] Instance ref_lib : PyLib := {|
  md5_hexdigest := hexdigest;
  json_dump := dumps;
  json_load := loads;
  isoformat := format_iso;
  fromisoformat := parse_iso
|}.

End RefLib.

(** ** src/models/product.py *)

(** [Product], with the fields the crawl engine reads or that identify the
    record; the remaining descriptive fields play no part in it. *)
Module Models.

(** A [Decimal]: a finite number, read as a rational; an infinity; or not
    a number ([Decimal('NaN')], which [Decimal(str(float('nan')))] also
    gives). *)
Inductive Decimal : Type :=
| Finite (value : Q)
| Infinity (negative : bool)
| NaN.

Record Product : Type := mkProduct {
  id : option string;
  sku : option string;
  name : string;
  brand : option string;
  price : option Decimal;
  site_name : string;
  url : string
}.

End Models.

(** ** src/crawlers/base_crawler.py *)

Module Crawler.

Local Open Scope string_scope.

Record CrawlResult : Type := mkCrawlResult {
  success : bool;
  product : option Models.Product;
  error_message : option string;
  retry_count : Z;
  firecrawl_data : option json
}.

(** What [FirecrawlApp.scrape_url] hands back, as far as the crawler looks
    at it.  An attribute is [None] when the object does not have it;
    [resp_error] may also be present and hold Python's [None]. *)
Record ScrapeResponse : Type := mkScrapeResponse {
  resp_success : option bool;
  resp_error : option (option string);
  resp_markdown : option json;
  resp_html : option json;
  resp_metadata : option json;
  resp_links : option json
}.

(** [getattr(obj, attribute, default)]. *)
Definition getattr {A} (attribute : option A) (default : A) : A :=
  match attribute with
  | Some v => v
  | None => default
  end.

(** [str(x)] for a text or [None]. *)
Definition py_str (x : option string) : string :=
  match x with
  | Some text => text
  | None => "None"
  end.

Definition str_of_nat (n : nat) : string :=
  NilEmpty.string_of_uint (Nat.to_uint n).

(** The operations a crawl performs on its surroundings.  [Sleep] is
    [await asyncio.sleep], the one point where a crawl yields to the event
    loop; [ScrapeUrl] is the blocking call to the scraping service and
    [ExtractProductData] the site-specific abstract method: each either
    returns or raises. *)
Inductive Eff : Type -> Type :=
| Time : Eff Q
| Sleep (seconds : Q) : Eff unit
| GetLastRequestTime : Eff Q
| SetLastRequestTime (t : Q) : Eff unit
| ScrapeUrl (url : string) : Eff (Outcome (option ScrapeResponse))
| ExtractProductData (url : string) (firecrawl_data : json)
    : Eff (Outcome Models.Product).

(** A coroutine: returns, raises, or performs an operation and goes on. *)
Inductive Prog (A : Type) : Type :=
| Ret (a : A)
| Raise (e : PyExc)
| Vis {X : Type} (op : Eff X) (k : X -> Prog A).
Arguments Ret {A} a.
Arguments Raise {A} e.
Arguments Vis {A X} op k.

Fixpoint bind {A B} (p : Prog A) (f : A -> Prog B) : Prog B :=
  match p with
  | Ret a => f a
  | Raise e => Raise e
  | Vis op k => Vis op (fun x => bind (k x) f)
  end.

(** [try: body  except classes as e: handler e]. *)
Fixpoint try_except {A} (body : Prog A) (classes : list ExcClass)
    (handler : PyExc -> Prog A) : Prog A :=
  match body with
  | Ret a => Ret a
  | Raise e => if isinstance e classes then handler e else Raise e
  | Vis op k => Vis op (fun x => try_except (k x) classes handler)
  end.

Definition trigger {X} (op : Eff X) : Prog X := Vis op Ret.

(** The outcome of a plain (synchronous) call inside a coroutine. *)
Definition lift {A} (o : Outcome A) : Prog A :=
  match o with
  | Ok a => Ret a
  | Exc e => Raise e
  end.

(** An operation that may raise. *)
Definition call {X} (op : Eff (Outcome X)) : Prog X :=
  Vis op (fun r => match r with
                   | Ok x => Ret x
                   | Exc e => Raise e
                   end).

Notation "x <- p ;; q" := (bind p (fun x => q))
  (at level 100, p at next level, right associativity).
Notation "p ;;; q" := (bind p (fun _ => q))
  (at level 100, right associativity).

(** [class RateLimiter] of this file, without its mutable
    [last_request_time], which lives in the world below. *)
Record RateLimiter : Type := mkRateLimiter {
  requests_per_second : Q;
  delay_between_requests : Q
}.

Record BaseCrawler : Type := mkBaseCrawler {
  site_name : string;
  base_url : string;
  rate_limiter : RateLimiter;
  max_retries : nat
}.

(** [BaseCrawler.__init__], given the entries of [site_config]. *)
Definition __init__ (site_name base_url : string)
    (requests_per_second delay_between_requests : Q) : BaseCrawler :=
  {| site_name := site_name;
     base_url := base_url;
     rate_limiter := {| requests_per_second := requests_per_second;
                        delay_between_requests := delay_between_requests |};
     max_retries := 3 |}.

(** [RateLimiter.wait_if_needed]. *)
Definition wait_if_needed (self : RateLimiter) : Prog unit :=
  current_time <- trigger Time ;;
  last_request_time <- trigger GetLastRequestTime ;;
  let time_since_last := (current_time - last_request_time)%Q in
  (if Qlt_le_dec time_since_last (delay_between_requests self) then
     let wait_time := (delay_between_requests self - time_since_last)%Q in
     trigger (Sleep wait_time)
   else Ret tt) ;;;
  t <- trigger Time ;;
  trigger (SetLastRequestTime t).

(** The dictionary [_scrape_with_firecrawl] returns on success. *)
Definition scrape_dict (result : ScrapeResponse) : json :=
  JObj [(KStr "success", JBool true);
        (KStr "data",
         JObj [(KStr "markdown", getattr (resp_markdown result) (JStr ""));
               (KStr "html", getattr (resp_html result) (JStr ""));
               (KStr "metadata", getattr (resp_metadata result) (JObj []));
               (KStr "links", getattr (resp_links result) (JArr []))])].

(** The message of the exception built for an unsuccessful response. *)
Definition scrape_error_msg (result : option ScrapeResponse) : string :=
  match result with
  | Some r => py_str (getattr (resp_error r) (Some "Unknown Firecrawl error"))
  | None => "Empty result from Firecrawl"
  end.

(** How one pass through the body of the [for] loop ends: with the
    function's [return], or by going on with a new [last_exception]. *)
Inductive Pass : Type :=
| Return (value : json)
| Next (last_exception : PyExc).

(** [wait_time = (2 ** attempt) + 1]. *)
Definition backoff (attempt : nat) : Q :=
  inject_Z (2 ^ Z.of_nat attempt + 1).

(** The body of the retry loop of [_scrape_with_firecrawl]. *)
Definition scrape_attempt (url : string) (attempt : nat) : Prog Pass :=
  try_except
    (result <- call (ScrapeUrl url) ;;
     let unsuccessful :=
       let error_msg := scrape_error_msg result in
       Ret (Next (mkExc Exception error_msg)) in
     match result with
     | Some r =>
         if getattr (resp_success r) false then Ret (Return (scrape_dict r))
         else unsuccessful
     | None => unsuccessful
     end)
    [Exception]
    (fun e =>
       let wait_time := backoff attempt in
       trigger (Sleep wait_time) ;;;
       Ret (Next e)).

(** What follows the loop when no pass returned. *)
Definition scrape_failed (self : BaseCrawler) (url : string)
    (last_exception : option PyExc) : PyExc :=
  let error_msg := "Failed to scrape " ++ url ++ " with Firecrawl after "
                   ++ str_of_nat (max_retries self) ++ " attempts" in
  match last_exception with
  | Some e => mkExc Exception (error_msg ++ ": " ++ exc_str e)
  | None => mkExc Exception error_msg
  end.

(** [for attempt in range(...)]: [attempts] are the values still to come. *)
Fixpoint retry_loop (self : BaseCrawler) (url : string) (attempts : list nat)
    (last_exception : option PyExc) : Prog json :=
  match attempts with
  | [] => Raise (scrape_failed self url last_exception)
  | attempt :: rest =>
      pass <- scrape_attempt url attempt ;;
      match pass with
      | Return value => Ret value
      | Next e => retry_loop self url rest (Some e)
      end
  end.

Definition _scrape_with_firecrawl (self : BaseCrawler) (url : string) : Prog json :=
  wait_if_needed (rate_limiter self) ;;;
  retry_loop self url (seq 0 (max_retries self)) None.

(** [str.isspace] on the code points below 256. *)
Definition is_space (c : ascii) : bool :=
  let n := nat_of_ascii c in
  ((9 <=? n) && (n <=? 13) || (28 <=? n) && (n <=? 32)
   || (n =? 133) || (n =? 160))%nat.

Fixpoint lstrip (s : string) : string :=
  match s with
  | String c r => if is_space c then lstrip r else s
  | EmptyString => s
  end.

Fixpoint rstrip (s : string) : string :=
  match s with
  | String c r =>
      match rstrip r with
      | EmptyString => if is_space c then "" else String c ""
      | r' => String c r'
      end
  | EmptyString => s
  end.

Definition strip (s : string) : string := rstrip (lstrip s).

(** Truth value of a text: it is not empty. *)
Definition nonempty (s : string) : bool :=
  match s with
  | EmptyString => false
  | String _ _ => true
  end.

(** [price < 0] for a [Decimal].  Comparing a NaN for order signals
    [InvalidOperation], which the default context raises. *)
Definition decimal_negative (price : Models.Decimal) : Outcome bool :=
  match price with
  | Models.Finite value => Ok (if Qlt_le_dec value 0 then true else false)
  | Models.Infinity negative => Ok negative
  | Models.NaN =>
      Exc (mkExc InvalidOperation "[<class 'decimal.InvalidOperation'>]")
  end.

Definition _validate_product_data (product : Models.Product) : Outcome bool :=
  if negb (nonempty (Models.name product))
     || negb (nonempty (strip (Models.name product))) then Ok false
  else if negb (nonempty (Models.url product)) then Ok false
  else
    match Models.price product with
    | Some price =>
        match decimal_negative price with
        | Ok true => Ok false
        | Ok false => Ok true
        | Exc e => Exc e
        end
    | None => Ok true
    end.

Definition _extract_product_data (url : string) (firecrawl_data : json)
    : Prog Models.Product :=
  call (ExtractProductData url firecrawl_data).

(** The [try] block of [crawl_product]. *)
Definition crawl_steps (self : BaseCrawler) (url : string) : Prog CrawlResult :=
  firecrawl_result <- _scrape_with_firecrawl self url ;;
  product <- _extract_product_data url firecrawl_result ;;
  valid <- lift (_validate_product_data product) ;;
  if negb valid then
    Ret {| success := false;
           product := None;
           error_message := Some "Product data validation failed";
           retry_count := 0;
           firecrawl_data := Some firecrawl_result |}
  else
    Ret {| success := true;
           product := Some product;
           error_message := None;
           retry_count := 0;
           firecrawl_data := Some firecrawl_result |}.

Definition crawl_product (self : BaseCrawler) (url : string) : Prog CrawlResult :=
  try_except
    (crawl_steps self url)
    [Exception]
    (fun e =>
       Ret {| success := false;
              product := None;
              error_message := Some (exc_str e);
              retry_count := 0;
              firecrawl_data := None |}).

(** *** Running a coroutine *)

(** What can be observed of a run, oldest first. *)
Inductive Event : Type :=
| EvSleep (seconds : Q)
| EvSetLastRequestTime (t : Q)
| EvScrape (url : string)
| EvExtract (url : string).

(** The surroundings of a crawler: the clock, the rate limiter's
    [last_request_time], how many times the scraping service was called,
    and the events so far. *)
Record World : Type := mkWorld {
  clock : Q;
  last_request_time : Q;
  scrape_calls : nat;
  trace : list Event
}.

(** The collaborators: what the scraping service answers to its n-th
    call and how many seconds it takes to answer, and the subclass's
    extraction method. *)
Record Env : Type := mkEnv {
  scrape_url : string -> nat -> Outcome (option ScrapeResponse);
  scrape_seconds : string -> nat -> Q;
  extract_product_data : string -> json -> Outcome Models.Product
}.

Definition log (ev : Event) (w : World) : World :=
  {| clock := clock w;
     last_request_time := last_request_time w;
     scrape_calls := scrape_calls w;
     trace := trace w ++ [ev] |}.

(** Time passes in sleeps and in the calls to the service:
    [asyncio.sleep(d)] takes [d] seconds, none when [d <= 0]; a call to the
    service is synchronous, so the clock moves on by the time it takes while
    the calling task keeps the processor.  The extraction method and the
    code of the crawler itself are instantaneous on this clock. *)
Definition elapse (seconds : Q) (w : World) : World :=
  {| clock := if Qlt_le_dec 0 seconds then (clock w + seconds)%Q else clock w;
     last_request_time := last_request_time w;
     scrape_calls := scrape_calls w;
     trace := trace w |}.

Definition handle (env : Env) {X} (op : Eff X) (w : World) : X * World :=
  match op in Eff X return X * World with
  | Time => (clock w, w)
  | Sleep seconds => (tt, elapse seconds (log (EvSleep seconds) w))
  | GetLastRequestTime => (last_request_time w, w)
  | SetLastRequestTime t =>
      (tt, log (EvSetLastRequestTime t)
             {| clock := clock w;
                last_request_time := t;
                scrape_calls := scrape_calls w;
                trace := trace w |})
  | ScrapeUrl url =>
      (scrape_url env url (scrape_calls w),
       elapse (scrape_seconds env url (scrape_calls w))
         (log (EvScrape url)
            {| clock := clock w;
               last_request_time := last_request_time w;
               scrape_calls := S (scrape_calls w);
               trace := trace w |}))
  | ExtractProductData url firecrawl_data =>
      (extract_product_data env url firecrawl_data, log (EvExtract url) w)
  end.

(** A coroutine awaited on its own, from start to end. *)
Fixpoint run (env : Env) {A} (p : Prog A) (w : World) : Outcome A * World :=
  match p with
  | Ret a => (Ok a, w)
  | Raise e => (Exc e, w)
  | Vis op k => let '(x, w') := handle env op w in run env (k x) w'
  end.

(** *** The event loop under [crawl_multiple]

    [asyncio.gather] starts one task per URL.  A task waits for the
    semaphore, runs [crawl_product] up to its next [asyncio.sleep], is
    resumed later, and in the end leaves its result in its own slot.  Which
    ready task runs next is the loop's choice; here it is any choice. *)

Inductive Paused (A : Type) : Type :=
| Finished (o : Outcome A)
| Sleeping (seconds : Q) (k : unit -> Prog A).
Arguments Finished {A} o.
Arguments Sleeping {A} seconds k.

(** Run a coroutine up to its next [asyncio.sleep] or to its end. *)
Fixpoint advance (env : Env) {A} (p : Prog A) (w : World) : Paused A * World :=
  match p with
  | Ret a => (Finished (Ok a), w)
  | Raise e => (Finished (Exc e), w)
  | Vis op k =>
      match op in Eff X return (X -> Prog A) -> Paused A * World with
      | Sleep seconds => fun k => (Sleeping seconds k, log (EvSleep seconds) w)
      | op' => fun k => let '(x, w') := handle env op' w in advance env (k x) w'
      end k
  end.

Inductive Task : Type :=
| Pending (url : string)
| Suspended (wake : Q) (k : unit -> Prog CrawlResult)
| Done (o : Outcome CrawlResult).

(** The loop: the shared world, the semaphore's counter, and one slot per
    task in the order of the awaitables. *)
Record Loop : Type := mkLoop {
  world : World;
  semaphore : Z;
  tasks : list Task
}.

Definition settle (i : nat) (st : Loop) (r : Paused CrawlResult * World) : Loop :=
  match r with
  | (Finished o, w) =>
      {| world := w;
         semaphore := semaphore st + 1;
         tasks := <[i := Done o]> (tasks st) |}
  | (Sleeping seconds k, w) =>
      {| world := w;
         semaphore := semaphore st;
         tasks := <[i := Suspended (clock w + seconds)%Q k]> (tasks st) |}
  end.

(** The clock when a task sleeping until [wake] runs again. *)
Definition woken (wake : Q) (w : World) : World :=
  {| clock := if Qlt_le_dec (clock w) wake then wake else clock w;
     last_request_time := last_request_time w;
     scrape_calls := scrape_calls w;
     trace := trace w |}.

(** Give task [i] the processor: [crawl_with_semaphore] enters the
    semaphore (when it has a free slot) and starts [crawl_product]; a
    sleeper goes on from where it stopped. *)
Definition resume (env : Env) (self : BaseCrawler) (i : nat) (st : Loop) : Loop :=
  match tasks st !! i with
  | Some (Pending url) =>
      if (0 <? semaphore st)%Z then
        settle i {| world := world st;
                    semaphore := semaphore st - 1;
                    tasks := tasks st |}
               (advance env (crawl_product self url) (world st))
      else st
  | Some (Suspended wake k) =>
      settle i st (advance env (k tt) (woken wake (world st)))
  | _ => st
  end.

Definition ready (st : Loop) (t : Task) : bool :=
  match t with
  | Pending _ => (0 <? semaphore st)%Z
  | Suspended _ _ => true
  | Done _ => false
  end.

Definition runnable (st : Loop) : list nat :=
  List.filter (fun i => match tasks st !! i with
                        | Some t => ready st t
                        | None => false
                        end)
              (seq 0 (length (tasks st))).

Definition outcome_of (t : Task) : option (Outcome CrawlResult) :=
  match t with
  | Done o => Some o
  | _ => None
  end.

(** How the call of a coroutine that the loop runs ends: the coroutine
    completes (it returns or raises); the loop itself is stopped by a task
    that raised [KeyboardInterrupt]; no task can run; or the steps granted
    do not suffice. *)
Inductive LoopResult (A : Type) : Type :=
| Completed (o : Outcome A) (w : World)
| Interrupted (e : PyExc) (w : World)
| Deadlock
| OutOfFuel.
Arguments Completed {A} o w.
Arguments Interrupted {A} e w.
Arguments Deadlock {A}.
Arguments OutOfFuel {A}.

(** What [gather] puts into the slot of a finished task: the value it
    returned or the exception it raised; for a task that ended in
    [CancelledError] (it counts as cancelled) a new [CancelledError] without
    message. *)
Definition gathered (o : Outcome CrawlResult) : Outcome CrawlResult :=
  match o with
  | Exc e =>
      if isinstance e [CancelledError] then Exc (mkExc CancelledError "")
      else Exc e
  | Ok r => Ok r
  end.

(** [await asyncio.gather(..., return_exceptions=True)]: run until
    every slot holds a result, then hand the slots back in their order.
    [sched n] picks among the tasks ready at step [n].  A task that ends in
    [KeyboardInterrupt] has it re-raised by its step: it goes up through the
    loop, and [gather] is not resumed. *)
Fixpoint gather (env : Env) (self : BaseCrawler) (fuel : nat) (sched : nat -> nat)
    (step : nat) (st : Loop) : LoopResult (list (Outcome CrawlResult)) :=
  match mapM outcome_of (tasks st) with
  | Some results => Completed (Ok (map gathered results)) (world st)
  | None =>
      match fuel with
      | O => OutOfFuel
      | S fuel' =>
          match runnable st with
          | [] => Deadlock
          | first :: others =>
              let choices := first :: others in
              let i := nth (sched step mod length choices) choices first in
              let st' := resume env self i st in
              match tasks st' !! i with
              | Some (Done (Exc e)) =>
                  if isinstance e [KeyboardInterrupt] then Interrupted e (world st')
                  else gather env self fuel' sched (S step) st'
              | _ => gather env self fuel' sched (S step) st'
              end
          end
      end
  end.

(** The body of the loop over [results]: an instance of [Exception]
    becomes a failure, anything else is appended as it is. *)
Definition processed (result : Outcome CrawlResult) : Outcome CrawlResult :=
  match result with
  | Exc e =>
      if isinstance e [Exception] then
        Ok {| success := false;
              product := None;
              error_message := Some (exc_str e);
              retry_count := 0;
              firecrawl_data := None |}
      else Exc e
  | Ok r => Ok r
  end.

(** [r.success] for an element of [processed_results]: an exception
    object has no such attribute. *)
Definition success_of (r : Outcome CrawlResult) : Outcome bool :=
  match r with
  | Ok result => Ok (success result)
  | Exc e =>
      Exc (mkExc AttributeError
             ("'" ++ class_name (exc_class e)
                  ++ "' object has no attribute 'success'"))
  end.

(** [sum(1 for r in processed_results if r.success)]. *)
Fixpoint count_successful (processed_results : list (Outcome CrawlResult))
    : Outcome nat :=
  match processed_results with
  | [] => Ok 0%nat
  | r :: rest =>
      match success_of r with
      | Exc e => Exc e
      | Ok flag =>
          match count_successful rest with
          | Exc e => Exc e
          | Ok n => Ok (if flag then S n else n)
          end
      end
  end.

(** [BaseCrawler.crawl_multiple].  The list it returns is
    [processed_results]; once the count of successes has gone through, every
    element of it is a [CrawlResult]. *)
Definition crawl_multiple (env : Env) (self : BaseCrawler) (urls : list string)
    (max_concurrent : Z) (sched : nat -> nat) (fuel : nat) (w : World)
    : LoopResult (list (Outcome CrawlResult)) :=
  if (max_concurrent <? 0)%Z then
    Completed (Exc (mkExc ValueError "Semaphore initial value must be >= 0")) w
  else
    match gather env self fuel sched 0
            {| world := w;
               semaphore := max_concurrent;
               tasks := map Pending urls |} with
    | Completed (Ok results) w' =>
        let processed_results := map processed results in
        match count_successful processed_results with
        | Ok successful => Completed (Ok processed_results) w'
        | Exc e => Completed (Exc e) w'
        end
    | Completed (Exc e) w' => Completed (Exc e) w'
    | Interrupted e w' => Interrupted e w'
    | Deadlock => Deadlock
    | OutOfFuel => OutOfFuel
    end.

End Crawler.

(** ** Vocabulary of the statements *)

Module Spec.
Import Crawler.

(** The service's answer is a failed fetch, after which the loop goes on:
    it raised an [Exception], or the response is empty, has no [success]
    attribute, or is marked unsuccessful. *)
Definition fetch_failed (answer : Outcome (option ScrapeResponse)) : bool :=
  match answer with
  | Exc e => isinstance e [Exception]
  | Ok (Some r) => negb (getattr (resp_success r) false)
  | Ok None => true
  end.

(** The exception the retry loop remembers for a failed fetch. *)
Definition failure_cause (answer : Outcome (option ScrapeResponse)) : PyExc :=
  match answer with
  | Exc e => e
  | Ok result => mkExc Exception (scrape_error_msg result)
  end.

(** What one failed attempt leaves in the trace. *)
Definition failed_attempt_events (url : string) (attempt : nat)
    (answer : Outcome (option ScrapeResponse)) : list Event :=
  EvScrape url ::
  match answer with
  | Exc _ => [EvSleep (backoff attempt)]
  | Ok _ => []
  end.

(** The trace of a retry loop in which every attempt fails; [n] is the
    number of calls the service has seen before. *)
Fixpoint exhausted_trace (env : Env) (url : string) (n : nat)
    (attempts : list nat) : list Event :=
  match attempts with
  | [] => []
  | attempt :: rest =>
      failed_attempt_events url attempt (scrape_url env url n)
        ++ exhausted_trace env url (S n) rest
  end.

(** [last_exception] after such a loop. *)
Fixpoint exhausted_cause (env : Env) (url : string) (n : nat)
    (attempts : list nat) (last_exception : option PyExc) : option PyExc :=
  match attempts with
  | [] => last_exception
  | _ :: rest =>
      exhausted_cause env url (S n) rest
        (Some (failure_cause (scrape_url env url n)))
  end.

(** A completed [wait_if_needed] shows as the write of
    [last_request_time] that ends it. *)
Definition is_wait (ev : Event) : bool :=
  match ev with
  | EvSetLastRequestTime _ => true
  | _ => false
  end.

Definition is_scrape (ev : Event) : bool :=
  match ev with
  | EvScrape _ => true
  | _ => false
  end.

(** Every character of the text is white space (so also: the text is
    empty). *)
Fixpoint all_space (s : string) : bool :=
  match s with
  | EmptyString => true
  | String c r => is_space c && all_space r
  end.

(** A [Decimal] below zero. *)
Definition negative (price : Models.Decimal) : Prop :=
  match price with
  | Models.Finite value => value < 0
  | Models.Infinity negative => negative = true
  | Models.NaN => False
  end.

(** What [_validate_product_data] is said to reject. *)
Definition invalid_product (product : Models.Product) : Prop :=
  all_space (Models.name product) = true \/
  Models.url product = EmptyString \/
  exists price, Models.price product = Some price /\ negative price.

(** The result built by the [except] clause of [crawl_product]. *)
Definition failure (message : string) : CrawlResult :=
  {| success := false;
     product := None;
     error_message := Some message;
     retry_count := 0;
     firecrawl_data := None |}.

(** The results built inside the [try] block. *)
Definition validation_failure (payload : json) : CrawlResult :=
  {| success := false;
     product := None;
     error_message := Some "Product data validation failed";
     retry_count := 0;
     firecrawl_data := Some payload |}.

Definition extracted (item : Models.Product) (payload : json) : CrawlResult :=
  {| success := true;
     product := Some item;
     error_message := None;
     retry_count := 0;
     firecrawl_data := Some payload |}.

(** What [crawl_product] makes of an exception that leaves its [try]
    block: the failure built by the [except] clause for an instance of
    [Exception]; any other exception goes on to the caller. *)
Definition reported (e : PyExc) : Outcome CrawlResult :=
  if isinstance e [Exception] then Ok (failure (exc_str e)) else Exc e.

(** How the [try] block ends once the product is extracted. *)
Definition validated (item : Models.Product) (payload : json)
    : Outcome CrawlResult :=
  match _validate_product_data item with
  | Ok true => Ok (extracted item payload)
  | Ok false => Ok (validation_failure payload)
  | Exc e => Exc e
  end.

(** The payload of a fetch is built from an answer of the service for
    the same URL. *)
Definition fetched_for (env : Env) (url : string) (o : Outcome json) : Prop :=
  forall payload, o = Ok payload ->
  exists n page,
    scrape_url env url n = Ok (Some page) /\
    getattr (resp_success page) false = true /\
    payload = scrape_dict page.

(** [r] is a result of crawling [url]: a success or a validation failure
    built from a page that the service returned for [url] and from the
    product that the extraction method made of that page for [url], or a
    failure built by the [except] clause. *)
Definition result_for (env : Env) (url : string) (r : CrawlResult) : Prop :=
  (exists n page item,
     scrape_url env url n = Ok (Some page) /\
     getattr (resp_success page) false = true /\
     extract_product_data env url (scrape_dict page) = Ok item /\
     validated item (scrape_dict page) = Ok r) \/
  (exists message, r = failure message).

(** Two results that differ in nothing but the message. *)
Definition same_but_message (r1 r2 : CrawlResult) : Prop :=
  success r1 = success r2 /\
  product r1 = product r2 /\
  retry_count r1 = retry_count r2 /\
  firecrawl_data r1 = firecrawl_data r2.

(** [Settles env p n Q]: whatever the world is at each of its
    operations, the coroutine [p] ends after at most [n] sleeps, with an
    outcome in [Q]. *)
Fixpoint Settles (env : Env) {A} (p : Prog A) (n : nat)
    (Q : Outcome A -> Prop) : Prop :=
  match p with
  | Ret a => Q (Ok a)
  | Raise e => Q (Exc e)
  | Vis op k =>
      match op in Eff X return (X -> nat -> Prop) -> Prop with
      | Sleep _ => fun K => match n with
                            | S m => K tt m
                            | O => False
                            end
      | op' => fun K => forall w, K (fst (handle env op' w)) n
      end (fun x m => Settles env (k x) m Q)
  end.

(** The outcome is a value or an instance of [Exception]. *)
Definition no_base_exception {A} (o : Outcome A) : bool :=
  match o with
  | Ok _ => true
  | Exc e => isinstance e [Exception]
  end.

(** What the collaborators raise are instances of [Exception]: neither
    the service nor the extraction method ends in [asyncio.CancelledError] or
    [KeyboardInterrupt]. *)
Definition raises_exceptions_only (env : Env) : Prop :=
  (forall url n, no_base_exception (scrape_url env url n) = true) /\
  (forall url firecrawl_data,
     no_base_exception (extract_product_data env url firecrawl_data) = true).

(** The answers of the service depend on the URL alone. *)
Definition url_determined (env : Env) : Prop :=
  forall url n m, scrape_url env url n = scrape_url env url m.

(** [Tracks env strict p n]: [p] ends after at most [n] sleeps in every
    interleaving; when [strict], it ends as it does when awaited on its
    own. *)
Definition Tracks (env : Env) (strict : bool) {A} (p : Prog A) (n : nat) : Prop :=
  forall w, Settles env p n (fun o => strict = true -> o = fst (run env p w)).

(** A slot of the event loop with the URL it was made for, and the number
    of turns it may still take. *)
Inductive slot_ok (env : Env) (self : BaseCrawler)
    (Post : string -> Outcome CrawlResult -> Prop) (url : string)
    : Task -> nat -> Prop :=
| slot_pending :
    slot_ok env self Post url (Pending url) (S (S (max_retries self)))
| slot_suspended wake k m :
    Settles env (k tt) m (Post url) ->
    slot_ok env self Post url (Suspended wake k) (S m)
| slot_done o :
    Post url o -> slot_ok env self Post url (Done o) 0.

(** A task holds the semaphore while it is suspended inside
    [crawl_product]. *)
Definition holder (t : Task) : nat :=
  match t with
  | Suspended _ _ => 1
  | _ => 0
  end.

Record loop_inv (env : Env) (self : BaseCrawler)
    (Post : string -> Outcome CrawlResult -> Prop) (urls : list string)
    (max_concurrent : Z) (st : Loop) (turns : list nat) : Prop := {
  inv_slots : Forall3 (slot_ok env self Post) urls (tasks st) turns;
  inv_semaphore :
    (semaphore st + Z.of_nat (sum_list (holder <$> tasks st)) = max_concurrent)%Z
}.

End Spec.

(** ** Sample data for the examples *)

Module Samples.
Import Crawler.
Local Open Scope string_scope.

Definition xlmoto : BaseCrawler :=
  __init__ "xlmoto" "https://www.xlmoto.co.uk" 2 (1 # 2).

Definition helmet_url : string := "https://www.xlmoto.co.uk/product/helmet".
Definition gloves_url : string := "https://www.xlmoto.co.uk/product/gloves".
Definition boots_url : string := "https://www.xlmoto.co.uk/product/boots".

Definition page (title : string) : ScrapeResponse :=
  {| resp_success := Some true;
     resp_error := Some None;
     resp_markdown := Some (JStr ("# " ++ title));
     resp_html := Some (JStr ("<h1>" ++ title ++ "</h1>"));
     resp_metadata := Some (JObj [(KStr "title", JStr title)]);
     resp_links := Some (JArr []) |}.

(** A response marked unsuccessful, with the service's reason. *)
Definition blocked : ScrapeResponse :=
  {| resp_success := Some false;
     resp_error := Some (Some "blocked by robots.txt");
     resp_markdown := None;
     resp_html := None;
     resp_metadata := None;
     resp_links := None |}.

Definition item (title url : string) : Models.Product :=
  {| Models.id := None;
     Models.sku := None;
     Models.name := title;
     Models.brand := None;
     Models.price := None;
     Models.site_name := "xlmoto";
     Models.url := url |}.

(** Extraction in the manner of the test crawler: the page title becomes
    the product name. *)
Definition title_of (firecrawl_data : json) : string :=
  match Cache.subscript firecrawl_data "data" with
  | Ok data =>
      match Cache.subscript data "metadata" with
      | Ok metadata =>
          match Cache.subscript metadata "title" with
          | Ok (JStr title) => title
          | _ => ""
          end
      | _ => ""
      end
  | _ => ""
  end.

Definition extract_title (url : string) (firecrawl_data : json)
    : Outcome Models.Product :=
  Ok (item (title_of firecrawl_data) url).

(** The service answers every call with a response marked unsuccessful. *)
Definition always_blocked : Env :=
  {| scrape_url := fun _ _ => Ok (Some blocked);
     scrape_seconds := fun _ _ => 0;
     extract_product_data := extract_title |}.

(** The service raises on every call. *)
Definition always_timeout : Env :=
  {| scrape_url := fun _ _ => Exc (mkExc OSError "Request timed out");
     scrape_seconds := fun _ _ => 0;
     extract_product_data := extract_title |}.

(** The helmet page loads; the gloves page never does; the boots page
    loads with an empty title. *)
Definition shop : Env :=
  {| scrape_url := fun url _ =>
       if String.eqb url helmet_url then Ok (Some (page "Raider Evo Helmet"))
       else if String.eqb url boots_url then Ok (Some (page ""))
       else Exc (mkExc OSError "Request timed out");
     scrape_seconds := fun _ _ => 0;
     extract_product_data := extract_title |}.

(** The page loads and the extraction step raises. *)
Definition broken_extractor : Env :=
  {| scrape_url := fun _ _ => Ok (Some (page "Raider Evo Helmet"));
     scrape_seconds := fun _ _ => 0;
     extract_product_data := fun _ _ =>
       Exc (mkExc KeyError "'price'") |}.

(** The first call to the service times out, the later ones are
    answered. *)
Definition flaky : Env :=
  {| scrape_url := fun _ n =>
       match n with
       | O => Exc (mkExc OSError "Request timed out")
       | S _ => Ok (Some (page "Raider Evo Helmet"))
       end;
     scrape_seconds := fun _ _ => 0;
     extract_product_data := extract_title |}.

(** The pages load; the extraction of the gloves page is cancelled on its
    way. *)
Definition cancelled_extraction : Env :=
  {| scrape_url := fun _ _ => Ok (Some (page "Raider Evo Helmet"));
     scrape_seconds := fun _ _ => 0;
     extract_product_data := fun url firecrawl_data =>
       if String.eqb url gloves_url then Exc (mkExc CancelledError "")
       else extract_title url firecrawl_data |}.

(** The call to the service is interrupted from the keyboard. *)
Definition interrupted_service : Env :=
  {| scrape_url := fun _ _ => Exc (mkExc KeyboardInterrupt "");
     scrape_seconds := fun _ _ => 0;
     extract_product_data := extract_title |}.

(** The page loads; the price extracted from it is not a number. *)
Definition nan_price : Env :=
  {| scrape_url := fun _ _ => Ok (Some (page "Raider Evo Helmet"));
     scrape_seconds := fun _ _ => 0;
     extract_product_data := fun url firecrawl_data =>
       Ok {| Models.id := None;
             Models.sku := None;
             Models.name := title_of firecrawl_data;
             Models.brand := None;
             Models.price := Some Models.NaN;
             Models.site_name := "xlmoto";
             Models.url := url |} |}.

(** The shop of above behind a slow line: every call takes a fifth of a
    second. *)
Definition slow_shop : Env :=
  {| scrape_url := scrape_url shop;
     scrape_seconds := fun _ _ => 1 # 5;
     extract_product_data := extract_title |}.

(** A world in which the rate limiter has nothing to wait for. *)
Definition idle : World :=
  {| clock := 10; last_request_time := 0; scrape_calls := 0; trace := [] |}.

(** A schedule for three tasks: the third runs first, then the second as
    long as it can, the first when nothing else is left. *)
Definition back_to_front (step : nat) : nat :=
  match step with
  | O => 2
  | S _ => 1
  end.

Definition cache : Cache.FirecrawlCache :=
  {| Cache.cache_dir := "data/firecrawl_cache"; Cache.ttl_hours := 24 |}.

(** 2024-11-04T13:00:00.123456 *)
Definition noon : Z := 1730725200123456.

Definition cache_file : string :=
  Cache._get_cache_file cache
    (Cache._get_cache_key (lib := RefLib.ref_lib) helmet_url).

(** A cache file holding an object whose [cached_at] is the number 5 and
    which has no [firecrawl_result]. *)
Definition odd_entry : string :=
  "{" ++ String RefLib.dquote "cached_at" ++ String RefLib.dquote ": 5}".

(** A cache file holding an empty list. *)
Definition list_entry : string := "[]".

(** Two payloads: a dictionary that holds a tuple, and one with an integer
    key. *)
Definition sizes_payload : json :=
  JObj [(KStr "sizes", JTuple [JStr "S"; JStr "M"])].

Definition stock_payload : json :=
  JObj [(KInt 1, JInt 12)].

End Samples.

(** ** The remaining methods of src/utils/rate_limiter.py *)

Module Bucket.

(** What a sequence of [acquire] calls did, the n-th made at clock
    reading [nth n clock]. *)
Fixpoint outcomes (self : TokenBucket.RateLimiter) (clock : list Q)
    : list TokenBucket.Acquired :=
  match clock with
  | [] => []
  | now :: rest =>
      snd (TokenBucket.acquire self now)
        :: outcomes (fst (TokenBucket.acquire self now)) rest
  end.

(** The seconds a call spent in [asyncio.sleep]. *)
Definition slept (a : TokenBucket.Acquired) : Q :=
  match a with
  | TokenBucket.Slept wait_time => wait_time
  | _ => 0
  end.

(** The clock readings of a sequence of calls never run backwards,
    starting from [t0]. *)
Fixpoint forward (t0 : Q) (clock : list Q) : Prop :=
  match clock with
  | [] => True
  | now :: rest => t0 <= now /\ forward now rest
  end.

(** A sleep asked for at [start] is over at [finish]: [asyncio.sleep]
    returns no earlier than asked, and the clock does not run backwards. *)
Definition slept_until (sleep : option Q) (start finish : Q) : Prop :=
  start <= finish /\
  match sleep with
  | Some seconds => start + seconds <= finish
  | None => True
  end.

End Bucket.

Module DelayWait.
Import DelayLimiter.

(** [DelayRateLimiter.wait_if_needed].  [current_time] is the first
    reading of [time.time()], [time_after] the one stored at the end; the
    second component is the argument of [asyncio.sleep], if it was called. *)
Definition wait_if_needed (self : DelayRateLimiter) (current_time time_after : Q)
    : DelayRateLimiter * option Q :=
  let time_since_last := current_time - last_request_time self in
  let sleep :=
    if Qlt_le_dec time_since_last (delay_between_requests self) then
      let wait_time := delay_between_requests self - time_since_last in
      Some wait_time
    else None in
  ({| requests_per_second := requests_per_second self;
      delay_between_requests := delay_between_requests self;
      last_request_time := time_after |}, sleep).

End DelayWait.

Module LegacyWait.

(** The attribute that the legacy [RateLimiter.wait_if_needed] keeps on
    the token bucket: absent until the first call ([hasattr]). *)
Record Legacy : Type := mkLegacy {
  _last_request_time : option Q
}.

(** [RateLimiter.wait_if_needed(delay_between_requests)], with the two
    clock readings as above (the first is taken only when the attribute
    exists). *)
Definition wait_if_needed (self : Legacy) (delay_between_requests : Q)
    (current_time time_after : Q) : Legacy * option Q :=
  let sleep :=
    match _last_request_time self with
    | Some last =>
        let time_since_last := current_time - last in
        if Qlt_le_dec time_since_last delay_between_requests then
          let wait_time := delay_between_requests - time_since_last in
          Some wait_time
        else None
    | None => None
    end in
  ({| _last_request_time := Some time_after |}, sleep).

End LegacyWait.

(** ** The remaining methods of src/utils/firecrawl_cache.py *)

Module CacheAdmin.
Section WithLib.
Context {lib : PyLib}.
Import Cache.

Local Open Scope string_scope.

Notation "x <- m ;; k" := (bind m (fun x => k))
  (at level 100, m at next level, right associativity).
Notation "m ;;; k" := (bind m (fun _ => k))
  (at level 100, right associativity).

Fixpoint has_slash (name : string) : bool :=
  match name with
  | String c r => Ascii.eqb c "/"%char || has_slash r
  | EmptyString => false
  end.

Fixpoint ends_with (suffix s : string) : bool :=
  String.eqb s suffix ||
  match s with
  | String _ r => ends_with suffix r
  | EmptyString => false
  end.

(** The name of [path] inside directory [dir], when [path] lies in it
    or below it. *)
Fixpoint name_in (dir path : string) : option string :=
  match dir, path with
  | EmptyString, String "/"%char name => Some name
  | String a dir', String b path' =>
      if Ascii.eqb a b then name_in dir' path' else None
  | _, _ => None
  end.

(** [path] is among [self.cache_dir.glob("*.json")]: a direct child of
    the directory whose name ends in [.json]. *)
Definition matches (self : FirecrawlCache) (path : string) : bool :=
  match name_in (cache_dir self) path with
  | Some name => negb (has_slash name) && ends_with ".json" name
  | None => false
  end.

(** [self.cache_dir.glob("*.json")] on disk [d], in the order of the
    map's traversal.  The order in which the file system lists a directory is
    not fixed; the methods below take the listing as an argument. *)
Definition glob (self : FirecrawlCache) (d : gmap string string) : list string :=
  List.filter (matches self) (map fst (map_to_list d)).

(** [files] is a listing of the directory: the files that match, each
    once, in some order. *)
Definition listing (self : FirecrawlCache) (d : gmap string string) (files : list string) : Prop :=
  NoDup files /\
  forall path, path ∈ files <-> is_Some (d !! path) /\ matches self path = true.

(** The body of the loop of [clear_expired] for [cache_file]; [now] is
    what [datetime.now()] returns when it is asked.  The result is what the
    pass adds to [removed_count]. *)
Definition sweep (self : FirecrawlCache) (cache_file : string) (now : Z) : IO nat :=
  try_except
    (text <- read_text cache_file ;;
     cache_data <- lift (json_load_text text) ;;
     stamp <- lift (subscript cache_data "cached_at") ;;
     cached_at <- lift (datetime_fromisoformat stamp) ;;
     age <- lift (since now cached_at) ;;
     if (ttl self <? age)%Z then
       (unlink cache_file ;;; ret 1%nat)
     else ret 0%nat)
    [JSONDecodeError; KeyError; ValueError]
    (fun e => unlink cache_file ;;; ret 1%nat).

(** [for cache_file in ...] of [clear_expired]: [visits] are the files
    still to come, each with the reading of the clock for it. *)
Fixpoint sweep_all (self : FirecrawlCache) (visits : list (string * Z))
    (removed_count : nat) : IO nat :=
  match visits with
  | [] => ret removed_count
  | (cache_file, now) :: rest =>
      removed <- sweep self cache_file now ;;
      sweep_all self rest (removed_count + removed)
  end.

(** [FirecrawlCache.clear_expired]. *)
Definition clear_expired (self : FirecrawlCache) (visits : list (string * Z))
    : IO nat :=
  sweep_all self visits 0.

Fixpoint unlink_each (cache_files : list string) : IO unit :=
  match cache_files with
  | [] => ret tt
  | cache_file :: rest => unlink cache_file ;;; unlink_each rest
  end.

(** [FirecrawlCache.clear_all]; [cache_files] is the listing. *)
Definition clear_all (self : FirecrawlCache) (cache_files : list string) : IO nat :=
  unlink_each cache_files ;;;
  ret (length cache_files).

(** [f.stat().st_size] of a text file written as UTF-8: one byte for a
    character below 128, two for the others. *)
Fixpoint st_size (text : string) : Z :=
  match text with
  | EmptyString => 0
  | String c r => (if (nat_of_ascii c <? 128)%nat then 1 else 2) + st_size r
  end.

Definition stat_size (path : string) : IO Z :=
  text <- read_text path ;;
  ret (st_size text).

Fixpoint total_size (cache_files : list string) : IO Z :=
  match cache_files with
  | [] => ret 0%Z
  | f :: rest =>
      size <- stat_size f ;;
      others <- total_size rest ;;
      ret (size + others)%Z
  end.

(** [round(x, 2)]: to the nearest hundredth, a tie to the even one. *)
Definition round2 (x : Q) : Q :=
  let scaled := x * 100 in
  let below := Qfloor scaled in
  let rest := scaled - inject_Z below in
  let nearest :=
    if Qlt_le_dec rest (1 # 2) then below
    else if Qlt_le_dec (1 # 2) rest then (below + 1)%Z
    else if Z.even below then below else (below + 1)%Z in
  inject_Z nearest / 100.

Record CacheStats : Type := mkCacheStats {
  total_entries : nat;
  total_size_bytes : Z;
  total_size_mb : Q;
  stats_cache_dir : string
}.

(** [FirecrawlCache.get_cache_stats]; [cache_files] is the listing. *)
Definition get_cache_stats (self : FirecrawlCache) (cache_files : list string)
    : IO CacheStats :=
  total <- total_size cache_files ;;
  ret {| total_entries := length cache_files;
         total_size_bytes := total;
         total_size_mb := round2 (inject_Z total / inject_Z (1024 * 1024));
         stats_cache_dir := cache_dir self |}.

(** What [clear_expired] does with a file when it looks at it: it removes
    it, keeps it, or lets an exception of some class out of the method. *)
Inductive Verdict : Type :=
| Removes
| Keeps
| LetsOut (c : ExcClass).

(** The verdict on a file holding [text], looked at at [now]. *)
Definition verdict (self : FirecrawlCache) (now : Z) (text : string) : Verdict :=
  match json_load text with
  | Malformed => Removes
  | TooDeep => LetsOut RecursionError
  | Parsed (JObj members) =>
      match assoc "cached_at" members with
      | None => Removes
      | Some (JStr stamp) =>
          match fromisoformat stamp with
          | None => Removes
          | Some (Naive us) => if (ttl self <? now - us)%Z then Removes else Keeps
          | Some (Aware _ _) => LetsOut TypeError
          end
      | Some _ => LetsOut TypeError
      end
  | Parsed _ => LetsOut TypeError
  end.

End WithLib.
End CacheAdmin.

(** ** The remaining methods of src/crawlers/base_crawler.py *)

Module Text.
Import Crawler.
Local Open Scope string_scope.

(** The text begins with a character that is not white space. *)
Definition starts_word (s : string) : bool :=
  match s with
  | String c _ => negb (is_space c)
  | EmptyString => false
  end.

(** [text.split()]: the maximal runs of characters that are not white
    space, in order. *)
Fixpoint split (s : string) : list string :=
  match s with
  | EmptyString => []
  | String c r =>
      if is_space c then split r
      else if starts_word r then
        match split r with
        | word :: words => String c word :: words
        | [] => [String c ""]
        end
      else String c "" :: split r
  end.

(** [sep.join(words)]. *)
Fixpoint join (sep : string) (words : list string) : string :=
  match words with
  | [] => ""
  | word :: rest =>
      match rest with
      | [] => word
      | _ :: _ => word ++ sep ++ join sep rest
      end
  end.

(** [text.replace(old, new)] for a one-character [old]. *)
Fixpoint replace (old : ascii) (new : string) (text : string) : string :=
  match text with
  | EmptyString => ""
  | String c r =>
      if Ascii.eqb c old then new ++ replace old new r
      else String c (replace old new r)
  end.

Definition newline : ascii := ascii_of_nat 10.
Definition tab : ascii := ascii_of_nat 9.
Definition carriage_return : ascii := ascii_of_nat 13.

(** [BaseCrawler._sanitize_text]. *)
Definition _sanitize_text (text : string) : string :=
  if negb (nonempty text) then ""
  else
    let text := join " " (split (strip text)) in
    let text := replace carriage_return " "
                  (replace tab " " (replace newline " " text)) in
    strip text.

(** A word: a text that is not empty and holds no white space. *)
Fixpoint no_space (s : string) : bool :=
  match s with
  | EmptyString => true
  | String c r => negb (is_space c) && no_space r
  end.

Definition is_word (s : string) : bool := nonempty s && no_space s.

(** Every white-space character of the text is a blank that is followed
    by a character that is not white space. *)
Fixpoint single_spaced (s : string) : bool :=
  match s with
  | EmptyString => true
  | String c r =>
      (if is_space c then Ascii.eqb c " "%char && starts_word r else true)
      && single_spaced r
  end.

(** A text in the form [_sanitize_text] aims at: words separated by
    single blanks, nothing before the first or after the last. *)
Definition tidy (s : string) : Prop :=
  (s = "" \/ starts_word s = true) /\ single_spaced s = true.

End Text.

Module Batch.
Import Crawler Spec.

(** The loop after giving the processor to the tasks [picks], one after
    the other (a pick that cannot run leaves the loop as it is). *)
Definition after_turns (env : Env) (self : BaseCrawler) (picks : list nat)
    (st : Loop) : Loop :=
  fold_left (fun st i => resume env self i st) picks st.

(** The tasks that are inside [async with semaphore], each suspended in a
    sleep of its [crawl_product]. *)
Definition in_flight (st : Loop) : nat :=
  sum_list (holder <$> tasks st).

(** The loop as [crawl_multiple] sets it up. *)
Definition started (urls : list string) (max_concurrent : Z) (w : World) : Loop :=
  {| world := w; semaphore := max_concurrent; tasks := map Pending urls |}.

Definition count_extract (events : list Event) : nat :=
  length (List.filter (fun ev => match ev with
                                 | EvExtract _ => true
                                 | _ => false
                                 end) events).

(** The coroutine calls the scraping service before it sleeps or ends. *)
Fixpoint reaches_service {A} (p : Prog A) : Prop :=
  match p with
  | Ret _ => False
  | Raise _ => False
  | Vis op k =>
      match op in Eff X return (X -> Prop) -> Prop with
      | ScrapeUrl _ => fun _ => True
      | Sleep _ => fun _ => False
      | _ => fun K => forall x, K x
      end (fun x => reaches_service (k x))
  end.

(** The coroutine never writes [last_request_time]. *)
Fixpoint never_stamps {A} (p : Prog A) : Prop :=
  match p with
  | Ret _ => True
  | Raise _ => True
  | Vis op k =>
      match op in Eff X return (X -> Prop) -> Prop with
      | SetLastRequestTime _ => fun _ => False
      | _ => fun K => forall x, K x
      end (fun x => never_stamps (k x))
  end.

(** The coroutine reads the clock, writes the reading into
    [last_request_time], and then calls the scraping service before it
    sleeps or ends; it writes [last_request_time] this once. *)
Definition stamps_and_fetches {A} (p : Prog A) : Prop :=
  match p with
  | Vis op k =>
      match op in Eff X return (X -> Prog A) -> Prop with
      | Time => fun k =>
          forall t,
            match k t with
            | Vis op' k' =>
                match op' in Eff X return (X -> Prog A) -> Prop with
                | SetLastRequestTime t' => fun k' =>
                    t' = t /\ reaches_service (k' tt) /\ never_stamps (k' tt)
                | _ => fun _ => False
                end k'
            | _ => False
            end
      | _ => fun _ => False
      end k
  | _ => False
  end.

(** The semaphore's counter and the tasks in flight add up to the initial
    value, and the counter is not negative. *)
Definition balanced (max_concurrent : Z) (n : nat) (st : Loop) : Prop :=
  (0 <= semaphore st)%Z /\
  (semaphore st + Z.of_nat (in_flight st) = max_concurrent)%Z /\
  length (tasks st) = n.

End Batch.

(** ** src/services/ai_search_generator.py: reading the reply *)

Module AISearch.
Section WithLib.
Context {lib : PyLib}.
Import Cache.

Local Open Scope string_scope.
Local Open Scope Z_scope.

(** [text.find(c)]: the index of the first [c], or -1. *)
Fixpoint find_from (c : ascii) (text : string) (i : Z) : Z :=
  match text with
  | EmptyString => -1
  | String a r => if Ascii.eqb a c then i else find_from c r (i + 1)
  end.

Definition find (c : ascii) (text : string) : Z := find_from c text 0.

(** [text.rfind(c)]: the index of the last [c], or -1. *)
Fixpoint rfind_from (c : ascii) (text : string) (i best : Z) : Z :=
  match text with
  | EmptyString => best
  | String a r => rfind_from c r (i + 1) (if Ascii.eqb a c then i else best)
  end.

Definition rfind (c : ascii) (text : string) : Z := rfind_from c text 0 (-1).

(** [text[start:stop]] for indices that are not negative. *)
Definition slice (text : string) (start stop : Z) : string :=
  substring (Z.to_nat start) (Z.to_nat (stop - start)) text.

(** [data[key] = value] on a dictionary: a known key keeps its place, a
    new one goes to the end. *)
Fixpoint dict_set (key : string) (value : json) (members : list (jkey * json))
    : list (jkey * json) :=
  match members with
  | [] => [(KStr key, value)]
  | (k, v) :: rest =>
      if key_is k key then (k, value) :: rest
      else (k, v) :: dict_set key value rest
  end.

(** One pass of the loop over [required_fields]. *)
Definition require_field (data : list (jkey * json)) (field : string)
    : list (jkey * json) :=
  match assoc field data with
  | None =>
      dict_set field (if String.eqb field "search_terms" then JArr [] else JStr "")
               data
  | Some _ => data
  end.

(** [AISearchGenerator._parse_ai_response]; [{}] is [JObj []].  A reply
    whose JSON text is not an object ends in the [except] clauses whatever it
    holds: the membership test, the item assignment or [data.get] raises.
    The method looks at the keys of the object and at whether [search_terms]
    is a list; the other values pass through as [json_load] gave them. *)
Definition _parse_ai_response (response_text : string) : json :=
  let start_idx := find "{" response_text in
  let end_idx := rfind "}" response_text + 1 in
  if (start_idx =? -1) || (end_idx =? 0) then JObj []
  else
    let json_str := slice response_text start_idx end_idx in
    match json_load json_str with
    | Parsed (JObj members) =>
        let required_fields := ["search_terms"; "brand"; "product_type"]%string in
        let data := fold_left require_field required_fields members in
        let data :=
          match assoc "search_terms" data with
          | Some (JArr _) => data
          | _ => dict_set "search_terms" (JArr []) data
          end in
        JObj data
    | Parsed _ => JObj []
    | Malformed => JObj []
    | TooDeep => JObj []
    end.

(** The text holds no [c]. *)
Fixpoint lacks (c : ascii) (text : string) : bool :=
  match text with
  | EmptyString => true
  | String a r => negb (Ascii.eqb a c) && lacks c r
  end.

End WithLib.
End AISearch.

(** ** src/processors/sitemap_parser.py: sorting entries into categories *)

Module Sitemap.

Local Open Scope string_scope.

Record SitemapEntry : Type := mkSitemapEntry {
  url : string;
  breadcrumb_eng : string;
  breadcrumb_local : string;
  category : option string
}.

(** One entry of the [categories] dictionary of categories.yaml: its
    keywords (none when the key is absent) and its limit, if it has one. *)
Record CategoryConfig : Type := mkCategoryConfig {
  keywords : list string;
  limit : option Z
}.

(** [SitemapParser]: the [categories] dictionary, in the order of the
    configuration file. *)
Record SitemapParser : Type := mkSitemapParser {
  categories : list (string * CategoryConfig)
}.

(** [str.lower] on the code points below 256. *)
Definition lower_char (c : ascii) : ascii :=
  let n := nat_of_ascii c in
  if ((65 <=? n) && (n <=? 90)
      || (192 <=? n) && (n <=? 222) && negb (n =? 215))%nat
  then ascii_of_nat (n + 32)
  else c.

Fixpoint lower (s : string) : string :=
  match s with
  | EmptyString => ""
  | String c r => String (lower_char c) (lower r)
  end.

Fixpoint starts_with (sub s : string) : bool :=
  match sub, s with
  | EmptyString, _ => true
  | String a sub', String b s' => Ascii.eqb a b && starts_with sub' s'
  | String _ _, EmptyString => false
  end.

(** [sub in s] for two texts. *)
Fixpoint contains (sub s : string) : bool :=
  starts_with sub s ||
  match s with
  | String _ r => contains sub r
  | EmptyString => false
  end.

(** A dictionary with text keys, in insertion order. *)
Fixpoint lookup {V} (key : string) (d : list (string * V)) : option V :=
  match d with
  | [] => None
  | (k, v) :: rest => if String.eqb k key then Some v else lookup key rest
  end.

Fixpoint store {V} (key : string) (value : V) (d : list (string * V))
    : list (string * V) :=
  match d with
  | [] => [(key, value)]
  | (k, v) :: rest =>
      if String.eqb k key then (k, value) :: rest
      else (k, v) :: store key value rest
  end.

(** The loop over [self.categories.items()] of [categorize_entry]. *)
Fixpoint first_category (breadcrumb_text : string)
    (items : list (string * CategoryConfig)) : option string :=
  match items with
  | [] => None
  | (category_name, category_config) :: rest =>
      if existsb (fun keyword => contains (lower keyword) breadcrumb_text)
                 (keywords category_config)
      then Some category_name
      else first_category breadcrumb_text rest
  end.

(** [SitemapParser.categorize_entry]. *)
Definition categorize_entry (self : SitemapParser) (entry : SitemapEntry)
    : option string :=
  let breadcrumb_text :=
    lower (breadcrumb_eng entry ++ " " ++ breadcrumb_local entry) in
  first_category breadcrumb_text (categories self).

Definition with_category (name : string) (entry : SitemapEntry) : SitemapEntry :=
  {| url := url entry;
     breadcrumb_eng := breadcrumb_eng entry;
     breadcrumb_local := breadcrumb_local entry;
     category := Some name |}.

(** The body of the loop of [filter_by_categories] for one entry. *)
Definition file_entry (self : SitemapParser)
    (categorized : list (string * list SitemapEntry)) (entry : SitemapEntry)
    : Outcome (list (string * list SitemapEntry)) :=
  match categorize_entry self entry with
  | Some name =>
      if Crawler.nonempty name then
        let entry := with_category name entry in
        let categorized :=
          match lookup name categorized with
          | None => store name [] categorized
          | Some _ => categorized
          end in
        match lookup name (categories self) with
        | None => Exc (mkExc KeyError ("'" ++ name ++ "'"))
        | Some config =>
            let category_limit := Crawler.getattr (limit config) 10%Z in
            match lookup name categorized with
            | None => Exc (mkExc KeyError ("'" ++ name ++ "'"))
            | Some filed =>
                if (Z.of_nat (length filed) <? category_limit)%Z then
                  Ok (store name (filed ++ [entry])%list categorized)
                else Ok categorized
            end
        end
      else Ok categorized
  | None => Ok categorized
  end.

Fixpoint file_entries (self : SitemapParser)
    (categorized : list (string * list SitemapEntry)) (entries : list SitemapEntry)
    : Outcome (list (string * list SitemapEntry)) :=
  match entries with
  | [] => Ok categorized
  | entry :: rest =>
      match file_entry self categorized entry with
      | Ok categorized' => file_entries self categorized' rest
      | Exc e => Exc e
      end
  end.

(** [SitemapParser.filter_by_categories]. *)
Definition filter_by_categories (self : SitemapParser) (entries : list SitemapEntry)
    : Outcome (list (string * list SitemapEntry)) :=
  file_entries self [] entries.

(** The entries of a sitemap that fall into category [name], in the
    order of the sitemap. *)
Definition falling_into (self : SitemapParser) (name : string)
    (entries : list SitemapEntry) : list SitemapEntry :=
  List.filter (fun entry => match categorize_entry self entry with
                            | Some c => String.eqb c name
                            | None => false
                            end) entries.

(** The limit in force for a category. *)
Definition limit_of (self : SitemapParser) (name : string) : nat :=
  match lookup name (categories self) with
  | Some config => Z.to_nat (Crawler.getattr (limit config) 10%Z)
  | None => 0
  end.

(** What should be filed under [name]: nothing if no entry falls into
    it (or it is the empty name), else the first entries that do, up to the
    limit, each marked with the category. *)
Definition filed_under (self : SitemapParser) (name : string)
    (entries : list SitemapEntry) : option (list SitemapEntry) :=
  match falling_into self name entries with
  | [] => None
  | first :: others =>
      if Crawler.nonempty name then
        Some (take (limit_of self name)
                   (map (with_category name) (first :: others)))
      else None
  end.

End Sitemap.

(** * Properties *)

Section TokenBucketFacts.
Import TokenBucket.

Lemma py_min_le_l a b : py_min a b <= a.
Proof. unfold py_min. destruct (Qlt_le_dec b a); lra. Qed.

Lemma py_min_le_r a b : py_min a b <= b.
Proof. unfold py_min. destruct (Qlt_le_dec b a); lra. Qed.

Lemma py_min_cases a b : py_min a b = a \/ py_min a b = b.
Proof. unfold py_min. destruct (Qlt_le_dec b a); auto. Qed.

Lemma acquire_keeps_config self now :
  burst_size (fst (acquire self now)) = burst_size self /\
  requests_per_second (fst (acquire self now)) = requests_per_second self.
Proof.
  unfold acquire.
  destruct (Qlt_le_dec _ 1); [destruct (Qeq_bool _ 0)|]; simpl; auto.
Qed.

Lemma acquire_spend self now :
  1 <= refilled self now ->
  tokens (fst (acquire self now)) = refilled self now - 1 /\
  snd (acquire self now) = Immediately.
Proof.
  intros H. unfold acquire.
  destruct (Qlt_le_dec (refilled self now) 1); [lra | split; reflexivity].
Qed.

Lemma acquire_wait self now :
  0 < requests_per_second self -> refilled self now < 1 ->
  tokens (fst (acquire self now)) = 0 /\
  snd (acquire self now) =
    Slept ((1 - refilled self now) / requests_per_second self).
Proof.
  intros Hr H. unfold acquire.
  destruct (Qlt_le_dec (refilled self now) 1); [|lra].
  destruct (Qeq_bool _ 0) eqn:E; [|split; reflexivity].
  apply Qeq_bool_iff in E. lra.
Qed.

End TokenBucketFacts.

Section TokenBucketInvariant.
Import TokenBucket.

Lemma acquire_in_bounds self now :
  0 < requests_per_second self -> (1 <= burst_size self)%Z ->
  in_bounds (fst (acquire self now)).
Proof.
  intros Hr Hb. assert (Hq : 1 <= inject_Z (burst_size self)).
  { change 1 with (inject_Z 1). now rewrite <- Zle_Qle. }
  pose proof (py_min_le_l (inject_Z (burst_size self))
    (tokens self + (now - last_refill self) * requests_per_second self)) as Hle.
  unfold in_bounds, acquire. fold (refilled self now) in Hle |- *.
  destruct (Qlt_le_dec (refilled self now) 1) as [Hlt|Hge].
  - destruct (Qeq_bool _ 0) eqn:E.
    + apply Qeq_bool_iff in E. lra.
    + cbn [fst tokens burst_size]. lra.
  - cbn [fst tokens burst_size]. lra.
Qed.

Lemma history_in_bounds clock : forall self,
  0 < requests_per_second self -> (1 <= burst_size self)%Z ->
  in_bounds self ->
  Forall in_bounds (history self clock).
Proof.
  induction clock as [|now rest IH]; intros self Hr Hb Hin; simpl.
  - constructor; [assumption | constructor].
  - constructor; [assumption|].
    destruct (acquire_keeps_config self now) as [Eb Er]. apply IH.
    + now rewrite Er.
    + now rewrite Eb.
    + now apply acquire_in_bounds.
Qed.

Lemma history_keeps_config clock : forall self0 self,
  In self (history self0 clock) ->
  burst_size self = burst_size self0 /\
  requests_per_second self = requests_per_second self0.
Proof.
  induction clock as [|now rest IH]; intros self0 self; cbn [history].
  - intros [<-|[]]. auto.
  - intros [<-|Hin]; [auto|].
    destruct (acquire_keeps_config self0 now) as [Hb Hr].
    destruct (IH _ _ Hin) as [Hb' Hr']. split; congruence.
Qed.

(** C3. A limiter built with a positive rate and a burst of at least one
    keeps [0 <= tokens <= burst_size] in every state between calls of
    [acquire], whatever the clock readings are; the refill is capped at
    [burst_size] and otherwise adds [elapsed * requests_per_second] (so it
    is not negative either unless the clock ran backwards); a call that
    finds at least one token takes exactly one and does not sleep; a call
    that finds less sleeps [(1 - tokens) / rate] and leaves exactly zero
    tokens; no call raises. *)
Theorem acquire_token_invariant (rps : Q) (burst : Z) (t0 : Q) (clock : list Q)
    (Hrate : 0 < rps) (Hburst : (1 <= burst)%Z) :
  exists self0, __init__ rps burst t0 = Ok self0 /\
    Forall in_bounds (history self0 clock) /\
    forall self now,
      In self (history self0 clock) ->
      let t1 := refilled self now in
      let elapsed := now - last_refill self in
      t1 <= inject_Z burst /\
      t1 <= tokens self + elapsed * rps /\
      (t1 = inject_Z burst \/ t1 = tokens self + elapsed * rps) /\
      (0 <= elapsed -> 0 <= t1) /\
      (1 <= t1 ->
         tokens (fst (acquire self now)) = t1 - 1 /\
         snd (acquire self now) = Immediately) /\
      (t1 < 1 ->
         tokens (fst (acquire self now)) = 0 /\
         snd (acquire self now) = Slept ((1 - t1) / rps)).
Proof.
  eexists; split; [reflexivity|].
  assert (Hall : Forall in_bounds
            (history {| requests_per_second := rps; burst_size := burst;
                        tokens := inject_Z burst; last_refill := t0 |} clock)).
  { apply history_in_bounds; [exact Hrate | exact Hburst |].
    unfold in_bounds; simpl. split; [|lra].
    change 0 with (inject_Z 0). rewrite <- Zle_Qle. lia. }
  split; [exact Hall|].
  intros self now Hin.
  destruct (history_keeps_config _ _ _ Hin) as [Hb Hr]. cbn in Hb, Hr.
  assert (Hbounds : in_bounds self).
  { rewrite List.Forall_forall in Hall. apply Hall, Hin. }
  destruct Hbounds as [Hlo _]. cbv zeta.
  assert (Hrate' : 0 < requests_per_second self) by now rewrite Hr.
  assert (Hq : 1 <= inject_Z burst).
  { change 1 with (inject_Z 1). now rewrite <- Zle_Qle. }
  pose proof (acquire_spend self now) as Hspend.
  pose proof (acquire_wait self now Hrate') as Hwait.
  rewrite Hr in Hwait. unfold refilled in *. rewrite Hb, Hr in *.
  set (x := tokens self + (now - last_refill self) * rps) in *.
  repeat split;
    auto using py_min_le_l, py_min_le_r, py_min_cases;
    try (apply Hspend; assumption); try (apply Hwait; assumption).
  intros Hel. assert (0 <= x) by (unfold x; nra).
  destruct (py_min_cases (inject_Z burst) x) as [-> | ->]; lra.
Qed.

Lemma acquire_token_invariant_witness :
  exists self0, __init__ (1 # 2) 2 0 = Ok self0 /\
    Forall in_bounds (history self0 [0; 0; 0; 1; 1]) /\
    forall self now,
      In self (history self0 [0; 0; 0; 1; 1]) ->
      refilled self now <= inject_Z 2.
Proof.
  destruct (acquire_token_invariant (1 # 2) 2 0 [0; 0; 0; 1; 1]) as (s & E & Hall & Hstep);
    [reflexivity | lia |].
  exists s. split; [exact E|]. split; [exact Hall|].
  intros self now Hin. exact (proj1 (Hstep self now Hin)).
Defined.

(** Two immediate calls on a burst of two, then a call that has to wait
    two seconds for the token. *)
Example acquire_three_calls :
  let s0 := {| requests_per_second := 1 # 2; burst_size := 2;
               tokens := 2; last_refill := 0 |} in
  let s1 := fst (acquire s0 0) in
  let s2 := fst (acquire s1 0) in
  snd (acquire s0 0) = Immediately /\ snd (acquire s1 0) = Immediately /\
  (exists w, snd (acquire s2 0) = Slept w /\ w == 2) /\
  tokens (fst (acquire s2 0)) = 0.
Proof.
  cbv zeta. repeat split. eexists. split; [vm_compute; reflexivity | reflexivity].
Qed.

End TokenBucketInvariant.



Section CacheFacts.
Import Cache.
Context {lib : PyLib}.

Lemma get_absent self url now (d : gmap string string) :
  d !! _get_cache_file self (_get_cache_key url) = None ->
  get self url now d = (Ok JNull, d).
Proof.
  intros H. unfold get, bind, path_exists. rewrite H.
  rewrite bool_decide_eq_false_2; [reflexivity|].
  intros [x Hx]; discriminate.
Qed.

(** A stale entry is unlinked by [get], which reports nothing; so does
    every later [get]. *)
Lemma get_drops_stale self url now text (d : gmap string string) :
  let file := _get_cache_file self (_get_cache_key url) in
  d !! file = Some text ->
  Stale self now text ->
  get self url now d = (Ok JNull, delete file d) /\
  forall later, get self url later (delete file d) = (Ok JNull, delete file d).
Proof.
  intros file Hfile Hstale. split.
  - unfold get, bind, path_exists, try_except. fold file. rewrite Hfile.
    rewrite bool_decide_eq_true_2 by eauto. cbn [negb].
    unfold read_text, lift, json_load_text, unlink, ret. rewrite Hfile.
    destruct Hstale as [Hp | ms Hp Hs | ms st Hp Hs Hf | ms st us Hp Hs Hf Hage
                        | ms st us Hp Hs Hf Hage Hr];
      rewrite Hp; cbn [subscript datetime_fromisoformat since isinstance existsb
                       subclass_of exc_class orb];
      try (rewrite Hfile; reflexivity);
      rewrite Hs; cbn [datetime_fromisoformat isinstance existsb subclass_of
                       exc_class orb];
      try (rewrite Hfile; reflexivity);
      rewrite Hf; cbn [since isinstance existsb subclass_of exc_class orb];
      try (rewrite Hfile; reflexivity).
    + destruct (Z.ltb_spec (ttl self) (now - us)); [|lia].
      rewrite Hfile. reflexivity.
    + destruct (Z.ltb_spec (ttl self) (now - us)); [lia|].
      rewrite Hr. cbn [isinstance existsb subclass_of exc_class orb].
      rewrite Hfile. reflexivity.
  - intros later. apply get_absent. apply lookup_delete_eq.
Qed.

(** An entry that parses to an object whose [cached_at] is not text
    makes [get] raise [TypeError]; the file stays. *)
Lemma get_raises_on_odd_stamp self url now text members stamp
    (d : gmap string string) :
  d !! _get_cache_file self (_get_cache_key url) = Some text ->
  json_load text = Parsed (JObj members) ->
  assoc "cached_at" members = Some stamp ->
  (forall s, stamp <> JStr s) ->
  get self url now d
    = (Exc (mkExc TypeError "fromisoformat: argument must be str"), d).
Proof.
  intros Hfile Hp Hs Hne.
  unfold get, bind, path_exists, try_except. rewrite Hfile.
  rewrite bool_decide_eq_true_2 by eauto. cbn [negb].
  unfold read_text, lift, json_load_text. rewrite Hfile, Hp.
  cbn [subscript]. rewrite Hs.
  destruct stamp; try reflexivity. exfalso. eapply Hne. reflexivity.
Qed.

(** C6 (as amended).  [set(url, payload)] followed by [get(url)] no
    later than the ttl returns what [json.load] reads back for the payload
    from the text that [json.dump] wrote for it ([back] below), and leaves the
    disk as [set] left it.  So the payload is returned unchanged when the
    library reads it back unchanged, as Python's [json] does for [None],
    booleans, integers, finite floats, text, and the lists and text-keyed
    dictionaries made of them. *)
Theorem set_then_get (self : FirecrawlCache) (url : string) (payload back : json)
    (now now' : Z) (d : gmap string string)
    (Hjson : json_load (json_dump (cache_entry url now payload))
             = Parsed (cache_entry url now back))
    (Hstamp : fromisoformat (isoformat now) = Some (Naive now))
    (Hfresh : (now' - now <= ttl self)%Z) :
  exists d1, set self url payload now d = (Ok tt, d1) /\
             get self url now' d1 = (Ok back, d1).
Proof.
  eexists. split; [reflexivity|].
  unfold get, bind, path_exists, try_except.
  set (file := _get_cache_file self (_get_cache_key url)).
  rewrite lookup_insert_eq.
  rewrite bool_decide_eq_true_2 by eauto. cbn [negb].
  unfold read_text, lift, json_load_text. rewrite lookup_insert_eq, Hjson.
  cbn. rewrite Hstamp. cbn.
  destruct (Z.ltb_spec (ttl self) (now' - now)); [lia|]. reflexivity.
Qed.

End CacheFacts.


Section CrawlerFacts.
Import Crawler Spec.
Context (env : Env).

Lemma run_bind {A B} (p : Prog A) (f : A -> Prog B) : forall w,
  run env (bind p f) w =
  match run env p w with
  | (Ok a, w') => run env (f a) w'
  | (Exc e, w') => (Exc e, w')
  end.
Proof.
  induction p as [a|e|X op k IH]; intros w; cbn [bind run]; try reflexivity.
  destruct (handle env op w) as [x w']. apply IH.
Qed.

Lemma run_try_except {A} (p : Prog A) classes handler : forall w,
  run env (try_except p classes handler) w =
  match run env p w with
  | (Ok a, w') => (Ok a, w')
  | (Exc e, w') =>
      if isinstance e classes then run env (handler e) w' else (Exc e, w')
  end.
Proof.
  induction p as [a|e|X op k IH]; intros w; cbn [try_except run]; try reflexivity.
  - destruct (isinstance e classes); reflexivity.
  - destruct (handle env op w) as [x w']. apply IH.
Qed.

(** The world after the scraping service was called once more. *)
Lemma run_scrape_attempt url attempt w :
  let w1 := snd (handle env (ScrapeUrl url) w) in
  run env (scrape_attempt url attempt) w =
  match scrape_url env url (scrape_calls w) with
  | Exc e =>
      if isinstance e [Exception] then
        (Ok (Next e), elapse (backoff attempt) (log (EvSleep (backoff attempt)) w1))
      else (Exc e, w1)
  | Ok (Some r) =>
      (Ok (if getattr (resp_success r) false then Return (scrape_dict r)
           else Next (mkExc Exception (scrape_error_msg (Some r)))), w1)
  | Ok None => (Ok (Next (mkExc Exception (scrape_error_msg None))), w1)
  end.
Proof.
  unfold scrape_attempt. rewrite run_try_except.
  cbn [call bind run handle snd].
  destruct (scrape_url env url (scrape_calls w)) as [[r|]|e]; cbn [run bind].
  - destruct (getattr (resp_success r) false); reflexivity.
  - reflexivity.
  - destruct (isinstance e [Exception]); reflexivity.
Qed.

(** A loop whose attempts all fail makes all of them, sleeps after the
    ones that raised, and raises the composed error. *)
Lemma retry_loop_exhausted self url : forall attempts last w,
  (forall k, (k < length attempts)%nat ->
     fetch_failed (scrape_url env url (scrape_calls w + k)) = true) ->
  exists w',
    run env (retry_loop self url attempts last) w =
      (Exc (scrape_failed self url
              (exhausted_cause env url (scrape_calls w) attempts last)), w') /\
    trace w' = trace w ++ exhausted_trace env url (scrape_calls w) attempts /\
    scrape_calls w' = (scrape_calls w + length attempts)%nat /\
    last_request_time w' = last_request_time w.
Proof.
  induction attempts as [|attempt rest IH]; intros last w Hfail.
  - exists w. cbn. rewrite app_nil_r, Nat.add_0_r. auto.
  - cbn [retry_loop]. rewrite run_bind, run_scrape_attempt.
    pose proof (Hfail 0%nat ltac:(cbn; lia)) as H0. rewrite Nat.add_0_r in H0.
    cbn [exhausted_cause exhausted_trace failed_attempt_events].
    set (w1 := snd (handle env (ScrapeUrl url) w)).
    assert (Hw1 : trace w1 = trace w ++ [EvScrape url]) by reflexivity.
    assert (Hc1 : scrape_calls w1 = S (scrape_calls w)) by reflexivity.
    assert (Hl1 : last_request_time w1 = last_request_time w) by reflexivity.
    assert (Hrest : forall w2, scrape_calls w2 = S (scrape_calls w) ->
              forall k, (k < length rest)%nat ->
              fetch_failed (scrape_url env url (scrape_calls w2 + k)) = true).
    { intros w2 E k Hk. rewrite E.
      replace (S (scrape_calls w) + k)%nat with (scrape_calls w + S k)%nat by lia.
      apply Hfail. cbn. lia. }
    destruct (scrape_url env url (scrape_calls w)) as [[r|]|e] eqn:Ans;
      cbn [fetch_failed] in H0.
    + apply negb_true_iff in H0. rewrite H0.
      destruct (IH (Some (mkExc Exception (scrape_error_msg (Some r)))) w1
                  (Hrest w1 Hc1)) as (w' & Hrun & Htr & Hn & Hl).
      exists w'. rewrite Hrun, Htr, Hn, Hl, Hw1, Hc1, Hl1, <- app_assoc.
      cbn [failure_cause app length]. repeat split. lia.
    + destruct (IH (Some (mkExc Exception (scrape_error_msg None))) w1
                  (Hrest w1 Hc1)) as (w' & Hrun & Htr & Hn & Hl).
      exists w'. rewrite Hrun, Htr, Hn, Hl, Hw1, Hc1, Hl1, <- app_assoc.
      cbn [failure_cause app length]. repeat split. lia.
    + rewrite H0.
      set (w2 := elapse (backoff attempt) (log (EvSleep (backoff attempt)) w1)).
      assert (Hw2 : trace w2 = trace w ++ [EvScrape url; EvSleep (backoff attempt)]).
      { unfold w2. cbn [elapse log trace]. rewrite Hw1, <- app_assoc. reflexivity. }
      assert (Hc2 : scrape_calls w2 = S (scrape_calls w)) by reflexivity.
      assert (Hl2 : last_request_time w2 = last_request_time w) by reflexivity.
      destruct (IH (Some e) w2 (Hrest w2 Hc2)) as (w' & Hrun & Htr & Hn & Hl).
      exists w'. rewrite Hrun, Htr, Hn, Hl, Hw2, Hc2, Hl2, <- app_assoc.
      cbn [failure_cause app length]. repeat split. lia.
Qed.

(** The retry loop never goes back to the rate limiter: it adds no wait
    to the trace and leaves [last_request_time] as it found it. *)
Lemma retry_loop_no_wait self url : forall attempts last w,
  exists post,
    trace (snd (run env (retry_loop self url attempts last) w)) = trace w ++ post /\
    Forall (fun ev => is_wait ev = false) post /\
    last_request_time (snd (run env (retry_loop self url attempts last) w))
      = last_request_time w.
Proof.
  induction attempts as [|attempt rest IH]; intros last w.
  - exists []. cbn. rewrite app_nil_r. auto.
  - cbn [retry_loop]. rewrite run_bind, run_scrape_attempt.
    set (w1 := snd (handle env (ScrapeUrl url) w)).
    assert (Hw1 : trace w1 = trace w ++ [EvScrape url]) by reflexivity.
    assert (Hl1 : last_request_time w1 = last_request_time w) by reflexivity.
    destruct (scrape_url env url (scrape_calls w)) as [[r|]|e].
    + destruct (getattr (resp_success r) false).
      * exists [EvScrape url]. cbn. auto.
      * destruct (IH (Some (mkExc Exception (scrape_error_msg (Some r)))) w1)
          as (post & Htr & Hpost & Hl).
        exists (EvScrape url :: post). rewrite Htr, Hl, Hw1, <- app_assoc. auto.
    + destruct (IH (Some (mkExc Exception (scrape_error_msg None))) w1)
        as (post & Htr & Hpost & Hl).
      exists (EvScrape url :: post). rewrite Htr, Hl, Hw1, <- app_assoc. auto.
    + destruct (isinstance e [Exception]).
      * set (w2 := elapse (backoff attempt) (log (EvSleep (backoff attempt)) w1)).
        destruct (IH (Some e) w2) as (post & Htr & Hpost & Hl).
        exists (EvScrape url :: EvSleep (backoff attempt) :: post).
        rewrite Htr, Hl. unfold w2. cbn [elapse log trace last_request_time].
        rewrite Hw1, <- !app_assoc. auto.
      * exists [EvScrape url]. cbn. auto.
Qed.

(** [wait_if_needed] returns, having slept at most once and then written
    [last_request_time]; it does not call the scraping service. *)
Lemma run_wait_if_needed self w :
  exists w1 pre t,
    run env (wait_if_needed self) w = (Ok tt, w1) /\
    trace w1 = trace w ++ pre ++ [EvSetLastRequestTime t] /\
    Forall (fun ev => is_wait ev = false /\ is_scrape ev = false) pre /\
    scrape_calls w1 = scrape_calls w.
Proof.
  unfold wait_if_needed. cbn [trigger bind run handle].
  destruct (Qlt_le_dec (clock w - last_request_time w) (delay_between_requests self)).
  - eexists _, [EvSleep _], _. split; [reflexivity|].
    cbn [trace log elapse scrape_calls]. rewrite <- app_assoc.
    repeat split; auto.
  - eexists _, [], _. split; [reflexivity|].
    cbn [trace log elapse scrape_calls app]. repeat split; auto.
Qed.

End CrawlerFacts.

Section Validation.
Import Crawler Spec.

Lemma lstrip_all_space s : all_space s = true -> lstrip s = EmptyString.
Proof.
  induction s as [|c r IH]; cbn; [reflexivity|].
  intros H. apply andb_true_iff in H as [Hc Hr]. rewrite Hc. auto.
Qed.

Lemma lstrip_empty s : lstrip s = EmptyString -> all_space s = true.
Proof.
  induction s as [|c r IH]; cbn; [reflexivity|].
  destruct (is_space c); [cbn; auto | discriminate].
Qed.

Lemma lstrip_head s c r : lstrip s = String c r -> is_space c = false.
Proof.
  induction s as [|c' r' IH]; cbn; [discriminate|].
  destruct (is_space c') eqn:E; [auto|]. intros [= -> ->]. exact E.
Qed.

Lemma rstrip_keeps_head c r : is_space c = false -> rstrip (String c r) <> EmptyString.
Proof. intros H. cbn. destruct (rstrip r); [rewrite H|]; discriminate. Qed.

(** [name.strip()] is empty exactly for a name of white space only. *)
Lemma strip_empty_iff s : nonempty (strip s) = false <-> all_space s = true.
Proof.
  unfold strip. split.
  - intros H. apply lstrip_empty.
    destruct (lstrip s) as [|c r] eqn:E; [reflexivity|].
    pose proof (rstrip_keeps_head c r (lstrip_head _ _ _ E)) as Hne.
    destruct (rstrip (String c r)); [contradiction | discriminate].
  - intros H. rewrite (lstrip_all_space _ H). reflexivity.
Qed.

(** [price < 0] returns [True] exactly for a negative [Decimal], and
    raises exactly for a NaN. *)
Lemma decimal_negative_spec price :
  (decimal_negative price = Ok true <-> negative price) /\
  ((exists e, decimal_negative price = Exc e) <-> price = Models.NaN).
Proof.
  destruct price as [value|sign|]; cbn [decimal_negative negative].
  - destruct (Qlt_le_dec value 0) as [Hlt|Hge].
    + repeat split; auto; try discriminate. intros [e He]. discriminate.
    + repeat split; try discriminate; try lra. intros [e He]. discriminate.
  - repeat split; try discriminate.
    + intros [= ->]. reflexivity.
    + intros ->. reflexivity.
    + intros [e He]. discriminate.
  - repeat split; try discriminate; try contradiction. eauto.
Qed.

(** The three ways [_validate_product_data] ends, by the first check that
    decides. *)
Lemma validate_cases item :
  match _validate_product_data item with
  | Ok false => invalid_product item
  | Ok true =>
      all_space (Models.name item) = false /\
      Models.url item <> EmptyString /\
      forall price, Models.price item = Some price ->
                    price <> Models.NaN /\ ~ negative price
  | Exc e =>
      all_space (Models.name item) = false /\
      Models.url item <> EmptyString /\
      Models.price item = Some Models.NaN /\
      e = mkExc InvalidOperation "[<class 'decimal.InvalidOperation'>]"
  end.
Proof.
  unfold _validate_product_data, invalid_product.
  destruct (nonempty (strip (Models.name item))) eqn:Estrip.
  - assert (Hns : all_space (Models.name item) = false).
    { destruct (all_space (Models.name item)) eqn:H; [|reflexivity].
      apply strip_empty_iff in H. congruence. }
    assert (Hne : nonempty (Models.name item) = true).
    { destruct (Models.name item); [cbn in Estrip; discriminate | reflexivity]. }
    rewrite Hne. cbn [negb orb].
    destruct (Models.url item) as [|c r] eqn:Eurl; cbn [nonempty negb]; [auto|].
    destruct (Models.price item) as [[value|sign|]|] eqn:Eprice;
      cbn [decimal_negative].
    + destruct (Qlt_le_dec value 0) as [Hlt|Hge].
      * right. right. eexists. split; [reflexivity | exact Hlt].
      * split; [exact Hns|]. split; [discriminate|].
        intros p' [= <-]. split; [discriminate|]. cbn. lra.
    + destruct sign.
      * right. right. eexists. split; reflexivity.
      * split; [exact Hns|]. split; [discriminate|].
        intros p' [= <-]. split; discriminate.
    + split; [exact Hns|]. split; [discriminate|]. split; reflexivity.
    + split; [exact Hns|]. split; [discriminate|]. intros p' [=].
  - rewrite orb_true_r. left. now apply strip_empty_iff.
Qed.

Lemma validate_false_iff item :
  _validate_product_data item = Ok false <-> invalid_product item.
Proof.
  pose proof (validate_cases item) as H. split.
  - intros E. rewrite E in H. exact H.
  - intros Hinv. destruct (_validate_product_data item) as [[|]|e]; [|reflexivity|].
    + exfalso. destruct H as (Hn & Hu & Hp).
      destruct Hinv as [Hi|[Hi|(price & Hi & Hneg)]]; [congruence | contradiction |].
      destruct (Hp price Hi) as [_ Hnn]. contradiction.
    + exfalso. destruct H as (Hn & Hu & Hp & _).
      destruct Hinv as [Hi|[Hi|(price & Hi & Hneg)]]; [congruence | contradiction |].
      rewrite Hp in Hi. injection Hi as <-. exact Hneg.
Qed.

End Validation.

Section CrawlProduct.
Import Crawler Spec.
Context (env : Env).

(** The steps inside the [try] block, case by case. *)
Lemma run_crawl_steps self url w :
  run env (crawl_steps self url) w =
  match run env (_scrape_with_firecrawl self url) w with
  | (Exc e, w1) => (Exc e, w1)
  | (Ok payload, w1) =>
      match extract_product_data env url payload with
      | Exc e => (Exc e, log (EvExtract url) w1)
      | Ok item => (validated item payload, log (EvExtract url) w1)
      end
  end.
Proof.
  unfold crawl_steps. rewrite run_bind.
  destruct (run env (_scrape_with_firecrawl self url) w) as [[payload|e] w1];
    [|reflexivity].
  unfold _extract_product_data. cbn [call bind run handle].
  destruct (extract_product_data env url payload) as [item|e]; cbn [run bind];
    [|reflexivity].
  unfold validated.
  destruct (_validate_product_data item) as [[|]|e]; reflexivity.
Qed.

(** [crawl_product]: its [try] block, and the [except] clause for what
    the block raises. *)
Lemma run_crawl_product_try self url w :
  run env (crawl_product self url) w =
  match run env (crawl_steps self url) w with
  | (Ok r, w1) => (Ok r, w1)
  | (Exc e, w1) => (reported e, w1)
  end.
Proof.
  unfold crawl_product. rewrite run_try_except.
  destruct (run env (crawl_steps self url) w) as [[r|e] w1]; [reflexivity|].
  unfold reported. destruct (isinstance e [Exception]); reflexivity.
Qed.

(** [crawl_product], case by case. *)
Lemma run_crawl_product self url w :
  run env (crawl_product self url) w =
  match run env (_scrape_with_firecrawl self url) w with
  | (Exc e, w1) => (reported e, w1)
  | (Ok payload, w1) =>
      match extract_product_data env url payload with
      | Exc e => (reported e, log (EvExtract url) w1)
      | Ok item =>
          (match validated item payload with
           | Ok r => Ok r
           | Exc e => reported e
           end, log (EvExtract url) w1)
      end
  end.
Proof.
  rewrite run_crawl_product_try, run_crawl_steps.
  destruct (run env (_scrape_with_firecrawl self url) w) as [[payload|e] w1];
    [|reflexivity].
  destruct (extract_product_data env url payload) as [item|e]; [|reflexivity].
  destruct (validated item payload); reflexivity.
Qed.

End CrawlProduct.

Section SequentialClaims.
Import Crawler Spec Samples.

(** Retry exhaustion: with every attempt failing, [_scrape_with_firecrawl]
    calls the service [max_retries] times, sleeps [2^attempt + 1] seconds
    after each attempt that raised and not at all after a response marked
    unsuccessful, and raises the composed error naming the last cause. *)
Lemma scrape_exhausted env self url w :
  (forall n, fetch_failed (scrape_url env url n) = true) ->
  exists w1 w',
    run env (wait_if_needed (rate_limiter self)) w = (Ok tt, w1) /\
    run env (_scrape_with_firecrawl self url) w =
      (Exc (scrape_failed self url
              (exhausted_cause env url (scrape_calls w)
                 (seq 0 (max_retries self)) None)), w') /\
    trace w' = trace w1 ++ exhausted_trace env url (scrape_calls w)
                             (seq 0 (max_retries self)) /\
    scrape_calls w' = (scrape_calls w + max_retries self)%nat.
Proof.
  intros Hfail.
  destruct (run_wait_if_needed env (rate_limiter self) w)
    as (w1 & pre & t & Hwait & _ & _ & Hcalls).
  destruct (retry_loop_exhausted env self url (seq 0 (max_retries self)) None w1
              (fun k _ => Hfail _)) as (w' & Hrun & Htr & Hn & _).
  exists w1, w'. split; [exact Hwait|].
  unfold _scrape_with_firecrawl. rewrite run_bind, Hwait, Hrun, Htr, Hn, Hcalls.
  rewrite length_seq. auto.
Qed.

(** With the three attempts of a crawler built by [__init__], the error
    names the cause of the third failure. *)
Lemma scrape_exhausted_message env url site base rps delay w :
  (forall n, fetch_failed (scrape_url env url n) = true) ->
  fst (run env (_scrape_with_firecrawl (__init__ site base rps delay) url) w)
  = Exc (mkExc Exception
           (("Failed to scrape " ++ url ++ " with Firecrawl after 3 attempts")
            ++ ": "
            ++ exc_str (failure_cause (scrape_url env url (scrape_calls w + 2))))).
Proof.
  intros Hfail.
  destruct (scrape_exhausted env (__init__ site base rps delay) url w Hfail)
    as (w1 & w' & _ & Hrun & _).
  rewrite Hrun. cbn [fst max_retries __init__ seq exhausted_cause].
  unfold scrape_failed. cbn [max_retries __init__].
  replace (S (S (scrape_calls w))) with (scrape_calls w + 2)%nat by lia.
  reflexivity.
Qed.

(** C1 (the failing input).  The service answers each of the three
    attempts with a response marked unsuccessful: the three calls follow one
    another with no sleep in between, and the composed error is raised. *)
Theorem unsuccessful_response_not_backed_off :
  run always_blocked (_scrape_with_firecrawl xlmoto helmet_url) idle =
  (Exc (mkExc Exception
          "Failed to scrape https://www.xlmoto.co.uk/product/helmet with Firecrawl after 3 attempts: blocked by robots.txt"),
   {| clock := 10;
      last_request_time := 10;
      scrape_calls := 3;
      trace := [EvSetLastRequestTime 10;
                EvScrape helmet_url; EvScrape helmet_url; EvScrape helmet_url] |}).
Proof. vm_compute. reflexivity. Qed.

(** The same three attempts when the service raises instead: sleeps of
    2, 3 and 5 seconds follow the failures. *)
Example raising_fetch_backed_off :
  run always_timeout (_scrape_with_firecrawl xlmoto helmet_url) idle =
  (Exc (mkExc Exception
          "Failed to scrape https://www.xlmoto.co.uk/product/helmet with Firecrawl after 3 attempts: Request timed out"),
   {| clock := 20;
      last_request_time := 10;
      scrape_calls := 3;
      trace := [EvSetLastRequestTime 10;
                EvScrape helmet_url; EvSleep 2;
                EvScrape helmet_url; EvSleep 3;
                EvScrape helmet_url; EvSleep 5] |}).
Proof. vm_compute. reflexivity. Qed.

(** C2.  One [_scrape_with_firecrawl] is one [wait_if_needed] followed by
    the retry loop.  The wait ends with the write of [last_request_time] and
    comes before every call to the scraping service; the retry loop, however
    many attempts it makes, adds no further wait and leaves the rate
    limiter's state alone.  So exactly one wait shows among the events of the
    call. *)
Theorem rate_limiter_consulted_once (env : Env) (self : BaseCrawler)
    (url : string) (w : World) :
  exists w1 pre t post,
    run env (wait_if_needed (rate_limiter self)) w = (Ok tt, w1) /\
    run env (_scrape_with_firecrawl self url) w
      = run env (retry_loop self url (seq 0 (max_retries self)) None) w1 /\
    trace w1 = trace w ++ pre ++ [EvSetLastRequestTime t] /\
    Forall (fun ev => is_wait ev = false /\ is_scrape ev = false) pre /\
    trace (snd (run env (_scrape_with_firecrawl self url) w)) = trace w1 ++ post /\
    Forall (fun ev => is_wait ev = false) post /\
    last_request_time (snd (run env (_scrape_with_firecrawl self url) w))
      = last_request_time w1 /\
    length (List.filter is_wait (pre ++ EvSetLastRequestTime t :: post)) = 1%nat.
Proof.
  destruct (run_wait_if_needed env (rate_limiter self) w)
    as (w1 & pre & t & Hwait & Htr1 & Hpre & _).
  destruct (retry_loop_no_wait env self url (seq 0 (max_retries self)) None w1)
    as (post & Htr & Hpost & Hlast).
  exists w1, pre, t, post.
  assert (Hrun : run env (_scrape_with_firecrawl self url) w
                 = run env (retry_loop self url (seq 0 (max_retries self)) None) w1).
  { unfold _scrape_with_firecrawl. rewrite run_bind, Hwait. reflexivity. }
  rewrite Hrun. repeat split; auto.
  rewrite List.filter_app. cbn [List.filter is_wait].
  assert (Hp : List.filter is_wait pre = []).
  { clear -Hpre. induction Hpre as [|ev l [Hw _] _ IH]; cbn; [reflexivity|].
    now rewrite Hw. }
  assert (Hq : List.filter is_wait post = []).
  { clear -Hpost. induction Hpost as [|ev l Hw _ IH]; cbn; [reflexivity|].
    now rewrite Hw. }
  rewrite Hp, Hq. reflexivity.
Qed.

(** C9 (as amended).  When the fetch succeeds and the extraction returns a
    product with an empty or white-space name, an empty url or a negative
    price, [crawl_product] returns - it does not raise - the failure
    "Product data validation failed", which carries the fetch payload in
    [firecrawl_data]; the failure reported for a fetch that raised carries
    none (a fetch that ended in an exception that is no [Exception] is not
    reported at all: the exception goes on to the caller). *)
Theorem invalid_product_reported (env : Env) (self : BaseCrawler)
    (url : string) (w w1 : World) (payload : json) (item : Models.Product)
    (Hfetch : run env (_scrape_with_firecrawl self url) w = (Ok payload, w1))
    (Hextract : extract_product_data env url payload = Ok item)
    (Hinvalid : invalid_product item) :
  fst (run env (crawl_product self url) w) =
    Ok {| success := false;
          product := None;
          error_message := Some "Product data validation failed";
          retry_count := 0;
          firecrawl_data := Some payload |} /\
  forall url' w' e,
    fst (run env (_scrape_with_firecrawl self url') w') = Exc e ->
    fst (run env (crawl_product self url') w') =
      if isinstance e [Exception] then
        Ok {| success := false;
              product := None;
              error_message := Some (exc_str e);
              retry_count := 0;
              firecrawl_data := None |}
      else Exc e.
Proof.
  split.
  - rewrite run_crawl_product, Hfetch, Hextract. unfold validated.
    apply validate_false_iff in Hinvalid. rewrite Hinvalid. reflexivity.
  - intros url' w' e H. rewrite run_crawl_product.
    destruct (run env (_scrape_with_firecrawl self url') w') as [[p|e'] w2];
      cbn in H; [discriminate|]. injection H as ->. reflexivity.
Qed.

End SequentialClaims.

Section SequentialClaimsContinued.
Import Crawler Spec Samples.

Lemma invalid_product_reported_witness :
  fst (run shop (crawl_product xlmoto boots_url) idle) =
    Ok {| success := false;
          product := None;
          error_message := Some "Product data validation failed";
          retry_count := 0;
          firecrawl_data := Some (scrape_dict (page "")) |} /\
  forall url' w' e,
    fst (run shop (_scrape_with_firecrawl xlmoto url') w') = Exc e ->
    fst (run shop (crawl_product xlmoto url') w') =
      if isinstance e [Exception] then
        Ok {| success := false;
              product := None;
              error_message := Some (exc_str e);
              retry_count := 0;
              firecrawl_data := None |}
      else Exc e.
Proof.
  apply (invalid_product_reported shop xlmoto boots_url idle
           {| clock := 10; last_request_time := 10; scrape_calls := 1;
              trace := [EvSetLastRequestTime 10; EvScrape boots_url] |}
           (scrape_dict (page "")) (item "" boots_url)).
  - vm_compute. reflexivity.
  - vm_compute. reflexivity.
  - left. reflexivity.
Defined.

(** C9 (counterexample).  The boots page loads with an empty title and
    is reported as a validation failure; the gloves page never loads and is
    reported as a fetch failure.  The two results differ in their
    [firecrawl_data], not in the message alone. *)
Lemma validation_failure_not_only_message :
  exists r1 r2 e,
    fst (run shop (crawl_product xlmoto boots_url) idle) = Ok r1 /\
    error_message r1 = Some "Product data validation failed"%string /\
    fst (run shop (_scrape_with_firecrawl xlmoto gloves_url) idle) = Exc e /\
    fst (run shop (crawl_product xlmoto gloves_url) idle) = Ok r2 /\
    ~ same_but_message r1 r2.
Proof.
  eexists _, _, _. split; [vm_compute; reflexivity|].
  split; [reflexivity|]. split; [vm_compute; reflexivity|].
  split; [vm_compute; reflexivity|].
  intros (_ & _ & _ & H). discriminate H.
Qed.

(** C10 (counterexample).  The fetch succeeds, the extraction step raises:
    the result has no [firecrawl_data] although the fetch succeeded. *)
Lemma payload_dropped_after_successful_fetch :
  exists payload r,
    fst (run broken_extractor (_scrape_with_firecrawl xlmoto helmet_url) idle)
      = Ok payload /\
    fst (run broken_extractor (crawl_product xlmoto helmet_url) idle) = Ok r /\
    firecrawl_data r = None.
Proof.
  eexists _, _. split; [vm_compute; reflexivity|].
  split; [vm_compute; reflexivity | reflexivity].
Qed.

(** The fetch succeeds and the extraction returns a product whose price
    is a NaN: the comparison in [_validate_product_data] raises, the [except]
    clause reports it, and the result has no [firecrawl_data] either. *)
Example payload_dropped_after_validation_raised :
  exists payload item,
    fst (run nan_price (_scrape_with_firecrawl xlmoto helmet_url) idle)
      = Ok payload /\
    extract_product_data nan_price helmet_url payload = Ok item /\
    _validate_product_data item
      = Exc (mkExc InvalidOperation "[<class 'decimal.InvalidOperation'>]") /\
    fst (run nan_price (crawl_product xlmoto helmet_url) idle)
      = Ok (failure "[<class 'decimal.InvalidOperation'>]").
Proof. eexists _, _. repeat split; vm_compute; reflexivity. Qed.

(** C10 (as amended).  A result of [crawl_product] carries the fetch
    payload in [firecrawl_data] exactly when all of its [try] block returned:
    the fetch succeeded, the extraction step returned a product and
    [_validate_product_data] returned its verdict; then the result is a
    success or a validation failure, as the verdict says.  A result built
    after an exception - of the fetch, of the extraction, or of the
    validation, which raises when the price is a NaN - has no
    [firecrawl_data].  When [crawl_product] returns no result, an exception
    that is no [Exception] has left the [try] block. *)
Theorem payload_kept_iff_steps_returned (env : Env) (self : BaseCrawler)
    (url : string) (w : World) :
  match fst (run env (crawl_product self url) w) with
  | Ok r =>
      match run env (_scrape_with_firecrawl self url) w with
      | (Exc _, _) => firecrawl_data r = None /\ success r = false
      | (Ok payload, _) =>
          match extract_product_data env url payload with
          | Exc _ => firecrawl_data r = None /\ success r = false
          | Ok item =>
              match _validate_product_data item with
              | Ok valid => firecrawl_data r = Some payload /\ success r = valid
              | Exc _ => firecrawl_data r = None /\ success r = false
              end
          end
      end
  | Exc e =>
      isinstance e [Exception] = false /\
      fst (run env (crawl_steps self url) w) = Exc e
  end.
Proof.
  rewrite run_crawl_product, run_crawl_steps.
  assert (Hrep : forall e, match reported e with
                           | Ok r => firecrawl_data r = None /\ success r = false
                           | Exc e' => isinstance e' [Exception] = false /\ e = e'
                           end).
  { intros e. unfold reported. destruct (isinstance e [Exception]) eqn:E; auto. }
  destruct (run env (_scrape_with_firecrawl self url) w) as [[payload|e] w1];
    cbn [fst].
  - destruct (extract_product_data env url payload) as [item|e]; cbn [fst].
    + unfold validated.
      destruct (_validate_product_data item) as [[|]|e]; cbn; auto.
      specialize (Hrep e). destruct (reported e); [exact Hrep|].
      destruct Hrep as [Hc ->]. auto.
    + specialize (Hrep e). destruct (reported e); [exact Hrep|].
      destruct Hrep as [Hc ->]. auto.
  - specialize (Hrep e). destruct (reported e); [exact Hrep|].
    destruct Hrep as [Hc ->]. auto.
Qed.

End SequentialClaimsContinued.

Section LimiterConstruction.

(** C8 (counterexample).  A rate of zero is accepted by both
    constructors. *)
Lemma zero_rate_accepted :
  (exists rl, TokenBucket.__init__ 0 5 0 = Ok rl /\
              TokenBucket.requests_per_second rl = 0) /\
  (exists rl, DelayLimiter.__init__ 0 (1 # 2) = Ok rl /\
              DelayLimiter.requests_per_second rl = 0).
Proof. split; eexists; split; reflexivity. Qed.

(** C8 (as amended).  Neither constructor checks its arguments: for every
    [requests_per_second], zero and negative values included, it returns an
    instance that stores the value as given. *)
Theorem construction_never_rejects (rps : Q) (burst : Z) (now delay : Q) :
  TokenBucket.__init__ rps burst now =
    Ok {| TokenBucket.requests_per_second := rps;
          TokenBucket.burst_size := burst;
          TokenBucket.tokens := inject_Z burst;
          TokenBucket.last_refill := now |} /\
  DelayLimiter.__init__ rps delay =
    Ok {| DelayLimiter.requests_per_second := rps;
          DelayLimiter.delay_between_requests := delay;
          DelayLimiter.last_request_time := 0 |}.
Proof. split; reflexivity. Qed.

(** What such an instance does when less than one token is left: with a
    rate of zero the division raises, with a negative rate the computed
    wait is negative.  In neither case does [acquire] wait. *)
Lemma acquire_nonpositive_rate (self : TokenBucket.RateLimiter) (now : Q) :
  TokenBucket.requests_per_second self <= 0 ->
  TokenBucket.refilled self now < 1 ->
  match snd (TokenBucket.acquire self now) with
  | TokenBucket.Raised e => TokenBucket.requests_per_second self == 0 /\
                            exc_class e = ZeroDivisionError
  | TokenBucket.Slept wait_time => wait_time < 0
  | TokenBucket.Immediately => False
  end.
Proof.
  intros Hr Ht. unfold TokenBucket.acquire.
  destruct (Qlt_le_dec (TokenBucket.refilled self now) 1); [|lra].
  destruct (Qeq_bool (TokenBucket.requests_per_second self) 0) eqn:E; cbn [snd].
  - apply Qeq_bool_iff in E. auto.
  - assert (Hne : ~ TokenBucket.requests_per_second self == 0).
    { intros H. apply Qeq_bool_iff in H. congruence. }
    assert (Hneg : TokenBucket.requests_per_second self < 0) by lra.
    set (r := TokenBucket.requests_per_second self) in *.
    set (a := 1 - TokenBucket.refilled self now).
    assert (Ha : 0 < a) by (unfold a; lra).
    assert (Hmul : a / r * r == a).
    { unfold Qdiv. rewrite <- Qmult_assoc, (Qmult_comm (/ r)), Qmult_inv_r by exact Hne.
      ring. }
    destruct (Qlt_le_dec (a / r) 0) as [Hlt|Hge]; [exact Hlt|].
    exfalso. nra.
Qed.

End LimiterConstruction.

Section CacheClaims.
Import Cache Samples.

Lemma set_then_get_witness :
  exists d1,
    set (lib := RefLib.ref_lib) cache helmet_url
        (Crawler.scrape_dict (page "Raider Evo Helmet")) noon ∅ = (Ok tt, d1) /\
    get (lib := RefLib.ref_lib) cache helmet_url (noon + 3600000000)%Z d1 =
      (Ok (Crawler.scrape_dict (page "Raider Evo Helmet")), d1).
Proof.
  apply (set_then_get (lib := RefLib.ref_lib)).
  - vm_compute. reflexivity.
  - vm_compute. reflexivity.
  - vm_compute. discriminate.
Defined.

(** C6 (counterexample).  Two payloads that [json.dump] accepts and that
    do not come back as they were: the tuple of sizes is written as an array
    and read back as a list, and the key 1 of the stock table is written as
    the text "1" and read back as that text. *)
Lemma payload_not_returned_unchanged :
  (exists d1,
     set (lib := RefLib.ref_lib) cache helmet_url sizes_payload noon ∅ = (Ok tt, d1) /\
     get (lib := RefLib.ref_lib) cache helmet_url (noon + 1)%Z d1
       = (Ok (JObj [(KStr "sizes", JArr [JStr "S"; JStr "M"])]), d1) /\
     JObj [(KStr "sizes", JArr [JStr "S"; JStr "M"])] <> sizes_payload) /\
  (exists d1,
     set (lib := RefLib.ref_lib) cache helmet_url stock_payload noon ∅ = (Ok tt, d1) /\
     get (lib := RefLib.ref_lib) cache helmet_url (noon + 1)%Z d1
       = (Ok (JObj [(KStr "1", JInt 12)]), d1) /\
     JObj [(KStr "1", JInt 12)] <> stock_payload).
Proof.
  split; eexists; (split; [reflexivity|]); (split; [vm_compute; reflexivity|]);
    discriminate.
Qed.

(** C7 (the failing input).  The cache file parses to an object that has
    no [firecrawl_result] and whose [cached_at] is a number: [get] raises
    [TypeError], which its [except] clause does not name, and the file
    stays where it was.  A file holding a list fares the same. *)
Theorem get_keeps_entry_with_odd_stamp :
  let d : gmap string string := {[ cache_file := odd_entry ]} in
  let d' : gmap string string := {[ cache_file := list_entry ]} in
  json_load (PyLib := RefLib.ref_lib) odd_entry
    = Parsed (JObj [(KStr "cached_at", JInt 5)]) /\
  get (lib := RefLib.ref_lib) cache helmet_url noon d
    = (Exc (mkExc TypeError "fromisoformat: argument must be str"), d) /\
  d !! cache_file = Some odd_entry /\
  get (lib := RefLib.ref_lib) cache helmet_url noon d'
    = (Exc (mkExc TypeError "list indices must be integers or slices, not str"), d').
Proof.
  cbv zeta. repeat split; vm_compute; reflexivity.
Qed.

End CacheClaims.

Section SettlesFacts.
Import Crawler Spec.
Context (env : Env).

Lemma Settles_impl {A} (p : Prog A) (Q Q' : Outcome A -> Prop) :
  (forall o, Q o -> Q' o) ->
  forall n m, (n <= m)%nat -> Settles env p n Q -> Settles env p m Q'.
Proof.
  intros HQ. induction p as [a|e|X op k IH]; intros n m Hle; cbn [Settles]; auto.
  destruct op; try (intros H w; exact (IH _ n m Hle (H w))).
  destruct n as [|n]; [contradiction|].
  destruct m as [|m]; [lia|]. apply IH. lia.
Qed.

Lemma Settles_bind {A B} (p : Prog A) (f : A -> Prog B) (P : Outcome A -> Prop)
    (Q : Outcome B -> Prop) m :
  (forall a, P (Ok a) -> Settles env (f a) m Q) ->
  (forall e, P (Exc e) -> Q (Exc e)) ->
  forall n, Settles env p n P -> Settles env (bind p f) (n + m) Q.
Proof.
  intros Hok Hexc. induction p as [a|e|X op k IH]; intros n; cbn [Settles bind].
  - intros H. apply (Settles_impl _ Q Q (fun _ h => h) m); [lia | auto].
  - auto.
  - destruct op; try (intros H w; exact (IH _ n (H w))).
    destruct n as [|n]; [contradiction|]. cbn [Nat.add]. apply IH.
Qed.

Lemma Settles_try {A} (p : Prog A) classes (handler : PyExc -> Prog A)
    (P Q : Outcome A -> Prop) m :
  (forall a, P (Ok a) -> Q (Ok a)) ->
  (forall e, P (Exc e) ->
     if isinstance e classes then Settles env (handler e) m Q else Q (Exc e)) ->
  forall n, Settles env p n P ->
  Settles env (try_except p classes handler) (n + m) Q.
Proof.
  intros Hok Hexc. induction p as [a|e|X op k IH]; intros n; cbn [Settles try_except].
  - auto.
  - intros H. specialize (Hexc e H). destruct (isinstance e classes); [|exact Hexc].
    apply (Settles_impl _ Q Q (fun _ h => h) m); [lia | auto].
  - destruct op; try (intros H w; exact (IH _ n (H w))).
    destruct n as [|n]; [contradiction|]. cbn [Nat.add]. apply IH.
Qed.

(** Awaited on its own, a coroutine that settles ends in [Q]. *)
Lemma run_settles {A} (p : Prog A) (Q : Outcome A -> Prop) : forall n w,
  Settles env p n Q -> Q (fst (run env p w)).
Proof.
  induction p as [a|e|X op k IH]; intros n w; cbn [Settles run]; auto.
  destruct op; cbn [handle]; try (intros H; eapply IH; apply (H w)).
  destruct n as [|n]; [contradiction|]. apply IH.
Qed.

(** One turn in the event loop: the coroutine ends in [Q], or sleeps with
    one sleep less to go. *)
Lemma advance_settles {A} (p : Prog A) (Q : Outcome A -> Prop) : forall n w,
  Settles env p n Q ->
  match fst (advance env p w) with
  | Finished o => Q o
  | Sleeping _ k => exists m, n = S m /\ Settles env (k tt) m Q
  end.
Proof.
  induction p as [a|e|X op k IH]; intros n w; cbn [Settles advance]; auto.
  destruct op; cbn [handle]; try (intros H; eapply IH; apply (H w)).
  destruct n as [|n]; [contradiction|]. cbn [fst]. eauto.
Qed.

End SettlesFacts.

Section TracksFacts.
Import Crawler Spec.
Context (env : Env) (strict : bool).
Hypothesis Hdet : strict = true -> url_determined env.

Lemma Tracks_ret {A} (a : A) n : Tracks env strict (Ret a) n.
Proof. intros w. cbn. auto. Qed.

Lemma Tracks_raise {A} (e : PyExc) n : Tracks env strict (@Raise A e) n.
Proof. intros w. cbn. auto. Qed.

Lemma Tracks_mono {A} (p : Prog A) n m :
  (n <= m)%nat -> Tracks env strict p n -> Tracks env strict p m.
Proof. intros Hle H w. eapply Settles_impl; [| exact Hle | apply H]. auto. Qed.

Lemma Tracks_bind {A B} (p : Prog A) (f : A -> Prog B) n m :
  Tracks env strict p n -> (forall a, Tracks env strict (f a) m) ->
  Tracks env strict (bind p f) (n + m).
Proof.
  intros Hp Hf w.
  apply (Settles_bind env p f (fun o => strict = true -> o = fst (run env p w)));
    [| | apply Hp].
  - intros a Ha. rewrite run_bind.
    destruct strict eqn:Es.
    + specialize (Ha eq_refl). destruct (run env p w) as [[a'|e'] w']; cbn in Ha;
        [|discriminate]. injection Ha as <-.
      exact (Hf a w').
    + eapply Settles_impl; [| reflexivity | apply (Hf a w)]. intros o _ [=].
  - intros e He Hs. specialize (He Hs). rewrite run_bind.
    destruct (run env p w) as [[a'|e'] w']; cbn in He; [discriminate|].
    injection He as <-. reflexivity.
Qed.

Lemma Tracks_try {A} (p : Prog A) classes (handler : PyExc -> Prog A) n m :
  Tracks env strict p n -> (forall e, Tracks env strict (handler e) m) ->
  Tracks env strict (try_except p classes handler) (n + m).
Proof.
  intros Hp Hh w.
  apply (Settles_try env p classes handler
           (fun o => strict = true -> o = fst (run env p w))); [| | apply Hp].
  - intros a Ha Hs. specialize (Ha Hs). rewrite run_try_except.
    destruct (run env p w) as [[a'|e'] w']; cbn in Ha; [|discriminate].
    injection Ha as <-. reflexivity.
  - intros e He. rewrite run_try_except.
    destruct strict eqn:Es.
    + specialize (He eq_refl). destruct (run env p w) as [[a'|e'] w']; cbn in He;
        [discriminate|]. injection He as <-.
      destruct (isinstance e classes); [|auto].
      exact (Hh e w').
    + destruct (isinstance e classes); [|intros [=]].
      eapply Settles_impl; [| reflexivity | apply (Hh e w)]. intros o _ [=].
Qed.

Lemma Tracks_lift {A} (o : Outcome A) n : Tracks env strict (lift o) n.
Proof. destruct o; [apply Tracks_ret | apply Tracks_raise]. Qed.

Lemma Tracks_sleep seconds : Tracks env strict (trigger (Sleep seconds)) 1.
Proof. intros w. cbn. auto. Qed.

Lemma run_call {X} (op : Eff (Outcome X)) w :
  fst (run env (call op) w) = fst (handle env op w).
Proof.
  unfold call. cbn [run]. destruct (handle env op w) as [[x|e] w']; reflexivity.
Qed.

Lemma Settles_answer {X} (answer : Outcome X) (Q : Outcome X -> Prop) n :
  Q answer ->
  Settles env match answer with
              | Ok x => Ret x
              | Exc e => Raise e
              end n Q.
Proof. destruct answer; auto. Qed.

Lemma Tracks_scrape url : Tracks env strict (call (ScrapeUrl url)) 0.
Proof.
  intros w. pose proof (run_call (ScrapeUrl url) w) as Hrun.
  cbn [handle fst] in Hrun. unfold call in *. cbn [Settles]. intros w'.
  cbn [handle fst]. apply Settles_answer. intros Hs. rewrite Hrun.
  apply (Hdet Hs).
Qed.

Lemma Tracks_extract url firecrawl_data :
  Tracks env strict (_extract_product_data url firecrawl_data) 0.
Proof.
  intros w. pose proof (run_call (ExtractProductData url firecrawl_data) w) as Hrun.
  cbn [handle fst] in Hrun. unfold _extract_product_data, call in *.
  cbn [Settles]. intros w'. cbn [handle fst]. apply Settles_answer.
  intros Hs. rewrite Hrun. reflexivity.
Qed.

Lemma Tracks_wait_if_needed self : Tracks env strict (wait_if_needed self) 1.
Proof.
  intros w.
  assert (Hrun : fst (run env (wait_if_needed self) w) = Ok tt).
  { destruct (run_wait_if_needed env self w) as (? & ? & ? & -> & _). reflexivity. }
  rewrite Hrun. unfold wait_if_needed. cbn [trigger bind Settles].
  intros w1 w2. cbn [handle fst].
  destruct (Qlt_le_dec _ _); cbn [trigger bind Settles]; intros; cbn [Settles];
    intros; reflexivity.
Qed.

Lemma Tracks_scrape_attempt url attempt :
  Tracks env strict (scrape_attempt url attempt) 1.
Proof.
  unfold scrape_attempt.
  apply (Tracks_try _ _ _ 0 1).
  - apply (Tracks_bind _ _ 0 0); [apply Tracks_scrape|].
    intros [r|]; [destruct (getattr (resp_success r) false)|]; apply Tracks_ret.
  - intros e. apply (Tracks_bind _ _ 1 0); [apply Tracks_sleep|].
    intros _. apply Tracks_ret.
Qed.

Lemma Tracks_retry_loop self url : forall attempts last,
  Tracks env strict (retry_loop self url attempts last) (length attempts).
Proof.
  induction attempts as [|attempt rest IH]; intros last; cbn [retry_loop length].
  - apply Tracks_raise.
  - apply (Tracks_bind _ _ 1 (length rest)); [apply Tracks_scrape_attempt|].
    intros [value|e]; [apply Tracks_ret | apply IH].
Qed.

Lemma Tracks_scrape_with_firecrawl self url :
  Tracks env strict (_scrape_with_firecrawl self url) (S (max_retries self)).
Proof.
  unfold _scrape_with_firecrawl.
  apply (Tracks_bind _ _ 1 (max_retries self)); [apply Tracks_wait_if_needed|].
  intros _.
  pose proof (Tracks_retry_loop self url (seq 0 (max_retries self)) None) as H.
  rewrite length_seq in H. exact H.
Qed.

(** [crawl_product] sleeps at most once in the rate limiter and once after
    each attempt. *)
Lemma Tracks_crawl_product self url :
  Tracks env strict (crawl_product self url) (S (max_retries self)).
Proof.
  unfold crawl_product, crawl_steps.
  apply (Tracks_mono _ (S (max_retries self) + 0 + 0)); [lia|].
  apply Tracks_try.
  - apply Tracks_bind; [apply Tracks_scrape_with_firecrawl|].
    intros payload. apply (Tracks_bind _ _ 0 0); [apply Tracks_extract|].
    intros item. apply (Tracks_bind _ _ 0 0); [apply Tracks_lift|].
    intros valid. destruct (negb valid); apply Tracks_ret.
  - intros e. apply Tracks_ret.
Qed.

End TracksFacts.

Section ExceptionsOnly.
Import Crawler Spec.
Context (env : Env).

Lemma Settles_conj {A} (p : Prog A) (P Q : Outcome A -> Prop) : forall n,
  Settles env p n P -> Settles env p n Q ->
  Settles env p n (fun o => P o /\ Q o).
Proof.
  induction p as [a|e|X op k IH]; intros n; cbn [Settles]; auto.
  destruct op; try (intros HP HQ w; exact (IH _ n (HP w) (HQ w))).
  destruct n as [|n]; [contradiction|]. apply IH.
Qed.

Lemma Settles_wait_if_needed self :
  Settles env (wait_if_needed self) 1 (fun o => o = Ok tt).
Proof.
  unfold wait_if_needed. cbn [trigger bind Settles].
  intros w1 w2. cbn [handle fst].
  destruct (Qlt_le_dec _ _); cbn [trigger bind Settles]; intros; cbn [Settles];
    intros; reflexivity.
Qed.

(** What the validation raises is an instance of [Exception]. *)
Lemma validate_no_base_exception item :
  no_base_exception (_validate_product_data item) = true.
Proof.
  pose proof (validate_cases item) as H.
  destruct (_validate_product_data item) as [valid|e]; [reflexivity|].
  destruct H as (_ & _ & _ & ->). reflexivity.
Qed.

Hypothesis Hraises : raises_exceptions_only env.

Lemma quiet_scrape_attempt url attempt :
  Settles env (scrape_attempt url attempt) 1 (fun o => exists pass, o = Ok pass).
Proof.
  unfold scrape_attempt.
  apply (Settles_try env _ _ _ (fun o => no_base_exception o = true) _ 1 ) with (n := 0%nat).
  - intros pass _. eauto.
  - intros e He. cbn [no_base_exception] in He. rewrite He.
    cbn [trigger bind Settles]. eauto.
  - unfold call. cbn [bind Settles]. intros w. cbn [handle fst].
    pose proof (proj1 Hraises url (scrape_calls w)) as Hq.
    destruct (scrape_url env url (scrape_calls w)) as [[r|]|e]; cbn [bind Settles].
    + destruct (getattr (resp_success r) false); reflexivity.
    + reflexivity.
    + exact Hq.
Qed.

Lemma quiet_retry_loop self url : forall attempts last,
  Settles env (retry_loop self url attempts last) (length attempts)
          (fun o => no_base_exception o = true).
Proof.
  induction attempts as [|attempt rest IH]; intros last; cbn [retry_loop length].
  - cbn [Settles]. unfold scrape_failed. destruct last; reflexivity.
  - apply (Settles_bind env _ _ (fun o => exists pass, o = Ok pass) _ (length rest))
      with (n := 1%nat); [| |apply quiet_scrape_attempt].
    + intros [value|e] _; [reflexivity | apply IH].
    + intros e [pass Hp]. discriminate.
Qed.

Lemma quiet_scrape_with_firecrawl self url :
  Settles env (_scrape_with_firecrawl self url) (S (max_retries self))
          (fun o => no_base_exception o = true).
Proof.
  unfold _scrape_with_firecrawl.
  apply (Settles_bind env _ _ (fun o => o = Ok tt) _ (max_retries self))
    with (n := 1%nat); [| |apply Settles_wait_if_needed].
  - intros _ _.
    pose proof (quiet_retry_loop self url (seq 0 (max_retries self)) None) as H.
    rewrite length_seq in H. exact H.
  - intros e [=].
Qed.

Lemma quiet_crawl_steps self url :
  Settles env (crawl_steps self url) (S (max_retries self))
          (fun o => no_base_exception o = true).
Proof.
  unfold crawl_steps.
  eapply Settles_impl; [| |
    apply (Settles_bind env _ _ (fun o => no_base_exception o = true) _ 0);
      [| |apply quiet_scrape_with_firecrawl]].
  - intros o H. exact H.
  - lia.
  - intros payload _. unfold _extract_product_data, call. cbn [bind Settles].
    intros w. cbn [handle fst].
    pose proof (proj2 Hraises url payload) as Hq.
    destruct (extract_product_data env url payload) as [item|e]; cbn [bind Settles];
      [|exact Hq].
    pose proof (validate_no_base_exception item) as Hv.
    destruct (_validate_product_data item) as [valid|e]; cbn [lift bind Settles];
      [|exact Hv].
    destruct (negb valid); reflexivity.
  - intros e He. exact He.
Qed.

(** With such collaborators [crawl_product] returns a result, in every
    interleaving. *)
Lemma quiet_crawl_product self url :
  Settles env (crawl_product self url) (S (max_retries self))
          (fun o => exists r, o = Ok r).
Proof.
  unfold crawl_product.
  eapply Settles_impl; [| |
    apply (Settles_try env _ _ _ (fun o => no_base_exception o = true) _ 0);
      [| |apply quiet_crawl_steps]].
  - intros o H. exact H.
  - lia.
  - intros r _. exists r. reflexivity.
  - intros e He. cbn [no_base_exception] in He. rewrite He. cbn [Settles].
    eexists. reflexivity.
Qed.

End ExceptionsOnly.

Section ResultShape.
Import Crawler Spec.
Context (env : Env).

Lemma shape_scrape_attempt url attempt :
  Settles env (scrape_attempt url attempt) 1
          (fun o => forall payload, o = Ok (Return payload) ->
                    fetched_for env url (Ok payload)).
Proof.
  unfold scrape_attempt.
  apply (Settles_try env _ _ _
           (fun o => forall payload, o = Ok (Return payload) ->
                     fetched_for env url (Ok payload)) _ 1) with (n := 0%nat).
  - intros pass H. exact H.
  - intros e _. destruct (isinstance e [Exception]).
    + cbn [trigger bind Settles]. intros payload [=].
    + intros payload [=].
  - unfold call. cbn [bind Settles]. intros w. cbn [handle fst].
    destruct (scrape_url env url (scrape_calls w)) as [[r|]|e] eqn:Ans;
      cbn [bind Settles]; try (intros payload [=]).
    destruct (getattr (resp_success r) false) eqn:Es; cbn [Settles];
      [|intros payload [=]].
    intros payload [= <-] payload' [= <-]. eauto.
Qed.

Lemma shape_retry_loop self url : forall attempts last,
  Settles env (retry_loop self url attempts last) (length attempts)
          (fetched_for env url).
Proof.
  induction attempts as [|attempt rest IH]; intros last; cbn [retry_loop length].
  - cbn [Settles]. intros payload [=].
  - apply (Settles_bind env _ _
             (fun o => forall payload, o = Ok (Return payload) ->
                       fetched_for env url (Ok payload)) _ (length rest))
      with (n := 1%nat); [| |apply shape_scrape_attempt].
    + intros [value|e] H; [exact (H value eq_refl) | apply IH].
    + intros e _ payload [=].
Qed.

Lemma shape_scrape_with_firecrawl self url :
  Settles env (_scrape_with_firecrawl self url) (S (max_retries self))
          (fetched_for env url).
Proof.
  unfold _scrape_with_firecrawl.
  apply (Settles_bind env _ _ (fun o => o = Ok tt) _ (max_retries self))
    with (n := 1%nat); [| |apply Settles_wait_if_needed].
  - intros _ _.
    pose proof (shape_retry_loop self url (seq 0 (max_retries self)) None) as H.
    rewrite length_seq in H. exact H.
  - intros e _ payload [=].
Qed.

(** What [crawl_product] returns for [url], in every interleaving, is a
    result for [url]. *)
Lemma shape_crawl_product self url :
  Settles env (crawl_product self url) (S (max_retries self))
          (fun o => forall r, o = Ok r -> result_for env url r).
Proof.
  unfold crawl_product.
  eapply Settles_impl; [| |
    apply (Settles_try env _ _ _
             (fun o => forall r, o = Ok r -> result_for env url r) _ 0);
      [| |unfold crawl_steps;
          apply (Settles_bind env _ _ (fetched_for env url) _ 0);
            [| |apply shape_scrape_with_firecrawl]]].
  - intros o H. exact H.
  - lia.
  - intros r H. exact H.
  - intros e _. destruct (isinstance e [Exception]).
    + cbn [Settles]. intros r [= <-]. right. eexists. reflexivity.
    + intros r [=].
  - intros payload Hp. destruct (Hp payload eq_refl) as (n & page & Hn & Hs & ->).
    unfold _extract_product_data, call. cbn [bind Settles].
    intros w. cbn [handle fst].
    destruct (extract_product_data env url (scrape_dict page)) as [item|e] eqn:Ex;
      cbn [bind Settles]; [|intros r [=]].
    destruct (_validate_product_data item) as [valid|e] eqn:Ev;
      cbn [lift bind Settles]; [|intros r [=]].
    assert (Hv : validated item (scrape_dict page)
                 = Ok (if valid then extracted item (scrape_dict page)
                       else validation_failure (scrape_dict page))).
    { unfold validated. rewrite Ev. destruct valid; reflexivity. }
    destruct valid; cbn [negb Settles]; intros r [= <-]; left;
      exists n, page, item; auto.
  - intros e _ r [=].
Qed.

End ResultShape.

Section ExceptionClaims.
Import Crawler Spec Samples.

(** C4 (counterexample).  The call to the scraping service is interrupted
    from the keyboard: [KeyboardInterrupt] is no instance of [Exception], so
    neither the [except] clause of the retry loop nor the one of
    [crawl_product] catches it, and [crawl_product] raises it.  The same
    happens to the [asyncio.CancelledError] of an extraction that is
    cancelled. *)
Lemma crawl_product_lets_interrupt_through :
  fst (run interrupted_service (crawl_product xlmoto helmet_url) idle)
    = Exc (mkExc KeyboardInterrupt "") /\
  isinstance (mkExc KeyboardInterrupt "") [Exception] = false /\
  fst (run cancelled_extraction (crawl_product xlmoto gloves_url) idle)
    = Exc (mkExc CancelledError "") /\
  isinstance (mkExc CancelledError "") [Exception] = false.
Proof. repeat split; vm_compute; reflexivity. Qed.

(** C4 (as amended).  Whatever instance of [Exception] leaves the [try]
    block of [crawl_product] - raised by the fetch, by the extraction or by
    the validation - is turned into a failure whose message is the text of
    the exception, which [crawl_product] returns; an exception that is none
    ([asyncio.CancelledError], [KeyboardInterrupt]) is not caught and leaves
    [crawl_product].  So when the service and the extraction method raise
    instances of [Exception] only, [crawl_product] returns a result whatever
    happens. *)
Theorem crawl_product_converts_exceptions (env : Env) (self : BaseCrawler)
    (url : string) (w : World) :
  match run env (crawl_steps self url) w with
  | (Ok r, w1) => run env (crawl_product self url) w = (Ok r, w1)
  | (Exc e, w1) =>
      run env (crawl_product self url) w =
      (if isinstance e [Exception] then
         Ok {| success := false;
               product := None;
               error_message := Some (exc_str e);
               retry_count := 0;
               firecrawl_data := None |}
       else Exc e, w1)
  end /\
  match run env (_scrape_with_firecrawl self url) w with
  | (Exc e, w1) => run env (crawl_steps self url) w = (Exc e, w1)
  | (Ok payload, w1) =>
      match extract_product_data env url payload with
      | Exc e => run env (crawl_steps self url) w = (Exc e, log (EvExtract url) w1)
      | Ok item =>
          match _validate_product_data item with
          | Exc e =>
              run env (crawl_steps self url) w = (Exc e, log (EvExtract url) w1) /\
              isinstance e [Exception] = true
          | Ok valid =>
              exists r,
                run env (crawl_steps self url) w = (Ok r, log (EvExtract url) w1) /\
                success r = valid
          end
      end
  end /\
  (raises_exceptions_only env ->
   exists r w', run env (crawl_product self url) w = (Ok r, w')).
Proof.
  split; [|split].
  - rewrite run_crawl_product_try.
    destruct (run env (crawl_steps self url) w) as [[r|e] w1]; reflexivity.
  - rewrite run_crawl_steps.
    destruct (run env (_scrape_with_firecrawl self url) w) as [[payload|e] w1];
      [|reflexivity].
    destruct (extract_product_data env url payload) as [item|e]; [|reflexivity].
    unfold validated. pose proof (validate_no_base_exception item) as Hv.
    destruct (_validate_product_data item) as [[|]|e].
    + eexists. split; reflexivity.
    + eexists. split; reflexivity.
    + split; [reflexivity | exact Hv].
  - intros Hraises.
    pose proof (run_settles env _ _ _ w (quiet_crawl_product env Hraises self url))
      as (r & Hr).
    exists r, (snd (run env (crawl_product self url) w)).
    destruct (run env (crawl_product self url) w) as [o w']. cbn in Hr. subst o.
    reflexivity.
Qed.

End ExceptionClaims.

Section ListFacts.

Lemma sum_list_insert (l : list nat) i x y :
  l !! i = Some x -> (sum_list (<[i:=y]> l) + x = sum_list l + y)%nat.
Proof.
  revert i. induction l as [|a l IH]; intros [|i] H; try discriminate.
  - injection H as ->. cbn. lia.
  - specialize (IH i H). simpl. lia.
Qed.

Lemma sum_list_fmap_insert {A} (f : A -> nat) (l : list A) i x y :
  l !! i = Some x ->
  (sum_list (f <$> <[i:=y]> l) + f x = sum_list (f <$> l) + f y)%nat.
Proof.
  intros H. rewrite list_fmap_insert. apply sum_list_insert.
  rewrite list_lookup_fmap, H. reflexivity.
Qed.

Lemma sum_list_fmap_positive {A} (f : A -> nat) (l : list A) :
  (0 < sum_list (f <$> l))%nat -> exists i x, l !! i = Some x /\ (0 < f x)%nat.
Proof.
  induction l as [|a l IH]; cbn; [lia|]. intros H.
  destruct (f a) as [|n] eqn:E.
  - destruct (IH H) as (i & x & Hi & Hx). exists (S i), x. auto.
  - exists 0%nat, a. split; [reflexivity | lia].
Qed.

Lemma sum_list_lookup_le (l : list nat) i x :
  l !! i = Some x -> (x <= sum_list l)%nat.
Proof.
  revert i. induction l as [|a l IH]; intros [|i] H; try discriminate.
  - injection H as ->. cbn. lia.
  - specialize (IH i H). simpl. lia.
Qed.

Lemma Forall3_insert {A B C} (P : A -> B -> C -> Prop) l k k' i x y z :
  Forall3 P l k k' -> l !! i = Some x -> P x y z ->
  Forall3 P l (<[i:=y]> k) (<[i:=z]> k').
Proof.
  intros H. revert i. induction H as [|a b c l k k' Hp H IH]; intros [|i] Hi Hxyz;
    try discriminate.
  - injection Hi as ->. cbn. constructor; assumption.
  - cbn. constructor; [assumption|]. apply IH; assumption.
Qed.

End ListFacts.

Section EventLoop.
Import Crawler Spec.
Context (env : Env) (self : BaseCrawler).
Context (Post : string -> Outcome CrawlResult -> Prop).
Hypothesis HPost :
  forall url, Settles env (crawl_product self url) (S (max_retries self)) (Post url).
Context (urls : list string) (max_concurrent : Z).

Lemma runnable_spec st i :
  In i (runnable st) <-> exists t, tasks st !! i = Some t /\ ready st t = true.
Proof.
  unfold runnable. rewrite List.filter_In, in_seq. split.
  - intros [_ H]. destruct (tasks st !! i) as [t|]; [eauto | discriminate].
  - intros (t & Ht & Hr). rewrite Ht. split; [|exact Hr].
    apply lookup_lt_Some in Ht. lia.
Qed.

(** Put task [t'] with [c'] turns to go into slot [i]: the slots stay
    well-formed, the semaphore's count follows the holders, and the turns
    left shrink. *)
Local Ltac refill_slot turns i t' c' Ht Hc :=
  exists (<[i:=c']> turns); split; [split|]; cbn [tasks semaphore];
  [ eapply Forall3_insert; eauto; constructor; eassumption
  | let Hh := fresh "Hh" in
    pose proof (sum_list_fmap_insert holder _ i _ t' Ht) as Hh;
    cbn [holder] in Hh; lia
  | let Hs := fresh "Hs" in
    pose proof (sum_list_insert _ i _ c' Hc) as Hs; lia ].

(** A turn of a ready task keeps the invariant and uses up a turn. *)
Lemma resume_ok st turns i t :
  loop_inv env self Post urls max_concurrent st turns ->
  tasks st !! i = Some t -> ready st t = true ->
  exists turns',
    loop_inv env self Post urls max_concurrent (resume env self i st) turns' /\
    (sum_list turns' < sum_list turns)%nat.
Proof.
  intros [Hslots Hsem] Ht Hready.
  destruct (Forall3_lookup_m _ _ _ _ _ _ Hslots Ht) as (url & c & Hu & Hc & Hok).
  unfold resume. rewrite Ht.
  destruct Hok as [|wake k m Hk|o Ho]; cbn [ready] in Hready; [| |discriminate].
  - rewrite Hready.
    pose proof (advance_settles env _ _ _ (world st) (HPost url)) as Hadv.
    destruct (advance env (crawl_product self url) (world st)) as [[o|seconds k] w'];
      cbn [fst settle] in Hadv |- *.
    + refill_slot turns i (Done o) 0%nat Ht Hc.
    + destruct Hadv as (m & Hm & Hk).
      refill_slot turns i (Suspended (clock w' + seconds)%Q k) (S m) Ht Hc.
  - pose proof (advance_settles env _ _ _ (woken wake (world st)) Hk) as Hadv.
    destruct (advance env (k tt) (woken wake (world st))) as [[o|seconds k'] w'];
      cbn [fst settle] in Hadv |- *.
    + refill_slot turns i (Done o) 0%nat Ht Hc.
    + destruct Hadv as (m' & -> & Hk').
      refill_slot turns i (Suspended (clock w' + seconds)%Q k') (S m') Ht Hc.
Qed.

(** While a slot is empty some task can run: a sleeper, or, when nobody
    holds the semaphore, a task waiting to enter. *)
Lemma unfinished_runnable st turns :
  (1 <= max_concurrent)%Z ->
  loop_inv env self Post urls max_concurrent st turns ->
  mapM outcome_of (tasks st) = None -> runnable st <> [].
Proof.
  intros Hmc [Hslots Hsem] Hnone.
  apply mapM_None_1, Exists_exists in Hnone as (t & Hin & Ht).
  apply list_elem_of_lookup in Hin as [i Hi].
  assert (Hex : exists j, In j (runnable st)).
  { destruct (0 <? semaphore st)%Z eqn:Efree.
    - exists i. apply runnable_spec. exists t. split; [exact Hi|].
      destruct t; [exact Efree | reflexivity | discriminate].
    - apply Z.ltb_ge in Efree.
      destruct (sum_list_fmap_positive holder (tasks st)) as (j & x & Hj & Hx);
        [lia|].
      exists j. apply runnable_spec. exists x. split; [exact Hj|].
      destruct x; cbn in Hx; (lia || reflexivity). }
  destruct Hex as [j Hj]. intros E. rewrite E in Hj. exact Hj.
Qed.

Lemma unfinished_turns st turns :
  loop_inv env self Post urls max_concurrent st turns ->
  mapM outcome_of (tasks st) = None -> (0 < sum_list turns)%nat.
Proof.
  intros [Hslots _] Hnone.
  apply mapM_None_1, Exists_exists in Hnone as (t & Hin & Ht).
  apply list_elem_of_lookup in Hin as [i Hi].
  destruct (Forall3_lookup_m _ _ _ _ _ _ Hslots Hi) as (url & c & Hu & Hc & Hok).
  apply sum_list_lookup_le in Hc.
  destruct Hok; [lia | lia | discriminate].
Qed.

Lemma finished_results st turns results :
  loop_inv env self Post urls max_concurrent st turns ->
  mapM outcome_of (tasks st) = Some results ->
  Forall2 Post urls results.
Proof.
  intros [Hslots _] Hsome. apply mapM_Some_1 in Hsome.
  revert results Hsome. induction Hslots as [|url t c us ts cs Hok _ IH];
    intros results Hres.
  - apply Forall2_nil_inv_l in Hres as ->. constructor.
  - apply Forall2_cons_inv_l in Hres as (o & rest & Ho & Hrest & ->).
    constructor; [|apply IH; exact Hrest].
    destruct Hok; try discriminate. injection Ho as <-. assumption.
Qed.

(** A slot that holds an exception holds one that the crawl of its URL
    can end with. *)
Lemma done_slot st turns i e :
  loop_inv env self Post urls max_concurrent st turns ->
  tasks st !! i = Some (Done (Exc e)) ->
  exists url, In url urls /\ Post url (Exc e).
Proof.
  intros [Hslots _] Hi.
  destruct (Forall3_lookup_m _ _ _ _ _ _ Hslots Hi) as (url & c & Hu & Hc & Hok).
  exists url. split.
  - apply list_elem_of_In. eapply list_elem_of_lookup_2. exact Hu.
  - inversion Hok. assumption.
Qed.

(** With room for one task at least, the loop comes to an end within the
    turns the tasks have left, whatever the schedule: every slot is filled,
    or a crawl has ended in [KeyboardInterrupt]. *)
Lemma gather_ends :
  (1 <= max_concurrent)%Z ->
  forall fuel sched step st turns,
    loop_inv env self Post urls max_concurrent st turns ->
    (sum_list turns <= fuel)%nat ->
    match gather env self fuel sched step st with
    | Completed (Ok results) w' =>
        exists outcomes,
          results = map gathered outcomes /\ Forall2 Post urls outcomes
    | Interrupted e w' =>
        isinstance e [KeyboardInterrupt] = true /\
        exists url, In url urls /\ Post url (Exc e)
    | _ => False
    end.
Proof.
  intros Hmc. induction fuel as [|fuel IH]; intros sched step st turns Hinv Hfuel;
    destruct (mapM outcome_of (tasks st)) as [results|] eqn:E.
  - cbn [gather]. rewrite E. exists results.
    split; [reflexivity | eapply finished_results; eauto].
  - pose proof (unfinished_turns st turns Hinv E). lia.
  - cbn [gather]. rewrite E. exists results.
    split; [reflexivity | eapply finished_results; eauto].
  - cbn [gather]. rewrite E. cbv zeta.
    pose proof (unfinished_runnable st turns Hmc Hinv E) as Hne.
    destruct (runnable st) as [|first rest] eqn:Er; [contradiction|].
    set (i := nth (sched step mod length (first :: rest)) (first :: rest) first).
    assert (Hi : In i (runnable st)).
    { rewrite Er. apply nth_In. apply Nat.mod_upper_bound. cbn. lia. }
    apply runnable_spec in Hi as (t & Ht & Hready).
    destruct (resume_ok st turns i t Hinv Ht Hready) as (turns' & Hinv' & Hlt).
    assert (Hnext : match gather env self fuel sched (S step) (resume env self i st) with
                    | Completed (Ok results) w' =>
                        exists outcomes,
                          results = map gathered outcomes /\ Forall2 Post urls outcomes
                    | Interrupted e w' =>
                        isinstance e [KeyboardInterrupt] = true /\
                        exists url, In url urls /\ Post url (Exc e)
                    | _ => False
                    end).
    { apply (IH sched (S step) _ turns' Hinv'). lia. }
    destruct (tasks (resume env self i st) !! i) as [[url|wake k|[r|e]]|] eqn:Ei;
      try exact Hnext.
    destruct (isinstance e [KeyboardInterrupt]) eqn:Ee; [|exact Hnext].
    split; [exact Ee|]. eapply done_slot; eassumption.
Qed.

(** The slots [crawl_multiple] starts from. *)
Lemma initial_inv w :
  loop_inv env self Post urls max_concurrent
    {| world := w; semaphore := max_concurrent; tasks := map Pending urls |}
    (replicate (length urls) (S (S (max_retries self)))).
Proof.
  split; cbn [tasks semaphore].
  - induction urls as [|url rest IH]; cbn; constructor; [constructor | exact IH].
  - assert (H : sum_list (holder <$> map Pending urls) = 0%nat).
    { induction urls as [|url rest IH]; cbn; [reflexivity | exact IH]. }
    rewrite H. lia.
Qed.

End EventLoop.

Section BatchClaims.
Import Crawler Spec Samples.

Lemma crawl_multiple_empty env self max_concurrent sched fuel w :
  (0 <= max_concurrent)%Z ->
  crawl_multiple env self [] max_concurrent sched fuel w = Completed (Ok []) w.
Proof.
  intros H. unfold crawl_multiple.
  destruct (Z.ltb_spec max_concurrent 0); [lia|]. destruct fuel; reflexivity.
Qed.

Lemma map_Ok_inj {A} (l1 l2 : list A) :
  map (@Ok A) l1 = map (@Ok A) l2 -> l1 = l2.
Proof.
  revert l2. induction l1 as [|a l1 IH]; intros [|b l2] H; try discriminate.
  - reflexivity.
  - cbn in H. injection H as -> H. f_equal. apply IH, H.
Qed.

(** A list of results counts its successes without raising. *)
Lemma count_successful_results (results : list CrawlResult) :
  exists n, count_successful (map Ok results) = Ok n.
Proof.
  induction results as [|r rest [n IH]]; cbn; [eauto|].
  rewrite IH. eauto.
Qed.

(** When every crawl is bound to return a result, the batch returns the
    results, and whatever the result of the crawl of a URL is bound to
    satisfy holds of the result at the position of that URL. *)
Lemma crawl_multiple_returns env self
    (Post : string -> CrawlResult -> Prop) urls max_concurrent sched fuel w :
  (forall url, Settles env (crawl_product self url) (S (max_retries self))
                       (fun o => exists r, o = Ok r /\ Post url r)) ->
  (1 <= max_concurrent)%Z ->
  (length urls * (max_retries self + 2) <= fuel)%nat ->
  exists results w',
    crawl_multiple env self urls max_concurrent sched fuel w
      = Completed (Ok (map Ok results)) w' /\
    Forall2 Post urls results.
Proof.
  intros HPost Hmc Hfuel.
  pose proof (gather_ends env self _ HPost urls max_concurrent Hmc fuel sched
                0%nat _ _ (initial_inv env self _ urls max_concurrent w)) as H.
  unfold crawl_multiple. destruct (Z.ltb_spec max_concurrent 0); [lia|].
  destruct (gather env self fuel sched 0 _) as [[outs|e] w'|e w'| |];
    try (exfalso; apply H; rewrite sum_list_replicate; lia).
  - destruct H as (outcomes & -> & Hall); [rewrite sum_list_replicate; lia|].
    assert (Hres : exists results,
              outcomes = map Ok results /\ Forall2 Post urls results).
    { clear -Hall. induction Hall as [|url o us os (r & -> & Hr) _ (rs & -> & IH)].
      - exists []. split; [reflexivity | constructor].
      - exists (r :: rs). split; [reflexivity | constructor; assumption]. }
    destruct Hres as (results & -> & Hposts).
    exists results, w'. split; [|exact Hposts].
    assert (Hmap : map processed (map gathered (map Ok results)) = map Ok results).
    { clear. induction results as [|r rs IH]; cbn; [reflexivity|].
      f_equal. exact IH. }
    cbv zeta. rewrite Hmap.
    destruct (count_successful_results results) as [n ->]. reflexivity.
  - exfalso. destruct H as (_ & url & _ & r & Hr & _);
      [rewrite sum_list_replicate; lia | discriminate].
Qed.



Lemma shop_url_determined : url_determined shop.
Proof. intros url n m. reflexivity. Qed.

Lemma shop_raises_exceptions_only : raises_exceptions_only shop.
Proof.
  split.
  - intros url n. unfold shop, scrape_url.
    destruct (String.eqb url helmet_url); [reflexivity|].
    destruct (String.eqb url boots_url); reflexivity.
  - intros url firecrawl_data. reflexivity.
Qed.


(** A batch of three under a schedule that lets the third crawl finish
    first and the first one last: the results come back in input order. *)
Example crawl_multiple_out_of_order :
  exists w',
    crawl_multiple shop xlmoto [helmet_url; gloves_url; boots_url] 2
                   back_to_front 15 idle
      = Completed
          (Ok [Ok (extracted (item "Raider Evo Helmet" helmet_url)
                             (scrape_dict (page "Raider Evo Helmet")));
               Ok (failure "Failed to scrape https://www.xlmoto.co.uk/product/gloves with Firecrawl after 3 attempts: Request timed out");
               Ok (validation_failure (scrape_dict (page "")))])
          w' /\
    List.filter (fun ev => match ev with EvExtract _ | EvScrape _ => true | _ => false end)
                (trace w')
      = [EvScrape boots_url; EvExtract boots_url;
         EvScrape gloves_url; EvScrape gloves_url; EvScrape gloves_url;
         EvScrape helmet_url; EvExtract helmet_url].
Proof. eexists. split; vm_compute; reflexivity. Qed.

(** A semaphore without a free slot stops the batch for good; one built
    from a negative number raises. *)
Example crawl_multiple_no_room :
  crawl_multiple shop xlmoto [helmet_url] 0 (fun n => n) 15 idle = Deadlock /\
  crawl_multiple shop xlmoto [helmet_url] (-1) (fun n => n) 15 idle
    = Completed (Exc (mkExc ValueError "Semaphore initial value must be >= 0")) idle.
Proof. split; vm_compute; reflexivity. Qed.

End BatchClaims.

(** * Further properties of the same code *)

Section StringFacts.
Local Open Scope string_scope.

Lemma append_cons c a b : String c a ++ b = String c (a ++ b).
Proof. reflexivity. Qed.

Lemma length_append a b :
  String.length (a ++ b) = (String.length a + String.length b)%nat.
Proof.
  induction a as [|c a IH]; [reflexivity|].
  rewrite append_cons. cbn [String.length]. rewrite IH. reflexivity.
Qed.

Lemma append_assoc a b c : (a ++ b) ++ c = a ++ (b ++ c).
Proof.
  induction a as [|x a IH]; [reflexivity|].
  rewrite !append_cons, IH. reflexivity.
Qed.

End StringFacts.

Section BucketFacts.
Import TokenBucket Bucket.

Lemma refilled_le_burst self now : refilled self now <= inject_Z (burst_size self).
Proof. apply py_min_le_l. Qed.

Lemma refilled_forward self now :
  0 <= requests_per_second self -> last_refill self <= now ->
  tokens self <= inject_Z (burst_size self) ->
  tokens self <= refilled self now.
Proof.
  intros Hr Hn Hb. unfold refilled, py_min.
  destruct (Qlt_le_dec _ _); [|lra].
  assert (0 <= (now - last_refill self) * requests_per_second self)
    by (apply Qmult_le_0_compat; lra).
  lra.
Qed.

Lemma burst_immediate clock : forall self,
  0 <= requests_per_second self ->
  forward (last_refill self) clock ->
  tokens self <= inject_Z (burst_size self) ->
  inject_Z (Z.of_nat (length clock)) <= tokens self ->
  Forall (fun a => a = Immediately) (outcomes self clock).
Proof.
  induction clock as [|now rest IH]; intros self Hr Hf Hb Hn; [constructor|].
  destruct Hf as [Hnow Hf].
  pose proof (refilled_forward self now Hr Hnow Hb) as Hre.
  pose proof (refilled_le_burst self now) as Hle.
  assert (Hone : 1 <= refilled self now).
  { cbn [length] in Hn. rewrite Nat2Z.inj_succ, <- Z.add_1_r, inject_Z_plus in Hn.
    assert (0 <= inject_Z (Z.of_nat (length rest))).
    { change 0 with (inject_Z 0). rewrite <- Zle_Qle. lia. }
    change (inject_Z 1) with 1 in Hn. lra. }
  destruct (acquire_spend self now Hone) as [Ht Ha].
  destruct (acquire_keeps_config self now) as [Hbs Hrs].
  cbn [outcomes]. constructor; [exact Ha|].
  apply IH.
  - rewrite Hrs. exact Hr.
  - unfold acquire. destruct (Qlt_le_dec _ 1); [lra|]. exact Hf.
  - rewrite Hbs, Ht. lra.
  - rewrite Ht. cbn [length] in Hn.
    rewrite Nat2Z.inj_succ, <- Z.add_1_r, inject_Z_plus in Hn.
    change (inject_Z 1) with 1 in Hn. lra.
Qed.


Lemma same_instant_tokens n : forall self t0,
  last_refill self = t0 ->
  tokens self == inject_Z (Z.of_nat n) ->
  tokens self <= inject_Z (burst_size self) ->
  forall final, last (history self (replicate n t0)) = Some final ->
  tokens final == 0 /\ last_refill final = t0 /\
  burst_size final = burst_size self /\
  requests_per_second final = requests_per_second self.
Proof.
  induction n as [|n IH]; intros self t0 Hl Ht Hb final Hfin.
  - cbn in Hfin. injection Hfin as <-. auto.
  - cbn [replicate history] in Hfin.
    assert (Hre : refilled self t0 == tokens self).
    { unfold refilled, py_min. rewrite Hl.
      destruct (Qlt_le_dec _ _); [|lra]. ring. }
    assert (Hn : 0 <= inject_Z (Z.of_nat n)).
    { change 0 with (inject_Z 0). rewrite <- Zle_Qle. lia. }
    rewrite Nat2Z.inj_succ, <- Z.add_1_r, inject_Z_plus in Ht.
    change (inject_Z 1) with 1 in Ht.
    assert (Hone : 1 <= refilled self t0) by lra.
    destruct (acquire_spend self t0 Hone) as [Htok _].
    destruct (acquire_keeps_config self t0) as [Hbs Hrs].
    assert (Hlast : last_refill (fst (acquire self t0)) = t0).
    { unfold acquire. destruct (Qlt_le_dec _ 1); [lra|]. reflexivity. }
    destruct (history (fst (acquire self t0)) (replicate n t0)) as [|s l] eqn:Eh.
    { destruct n; discriminate. }
    rewrite last_cons_cons in Hfin. rewrite <- Eh in Hfin.
    destruct (IH (fst (acquire self t0)) t0 Hlast) with (final := final)
      as (H1 & H2 & H3 & H4); try assumption.
    + rewrite Htok. lra.
    + rewrite Htok, Hbs. lra.
    + rewrite H3, H4, Hbs, Hrs. auto.
Qed.

(** X1.  A fresh token bucket serves its burst at once: with a positive
    rate, the first [burst_size] calls of [acquire] return immediately
    whenever the clock does not run backwards, and when they are all made at
    the instant of construction the next call at that instant sleeps one token
    period, [1 / requests_per_second]. *)
Theorem burst_served_at_once (rps : Q) (burst : Z) (t0 : Q) (clock : list Q)
    (Hrate : 0 < rps) (Hburst : (0 <= burst)%Z)
    (Hforward : forward t0 clock)
    (Hcalls : (Z.of_nat (length clock) <= burst)%Z) :
  exists self0, __init__ rps burst t0 = Ok self0 /\
    Forall (fun a => a = Immediately) (outcomes self0 clock) /\
    forall drained,
      last (history self0 (replicate (Z.to_nat burst) t0)) = Some drained ->
      exists wait_time,
        snd (acquire drained t0) = Slept wait_time /\ wait_time == 1 / rps.
Proof.
  eexists. split; [reflexivity|]. split.
  - apply burst_immediate; cbn; try lra; try assumption.
    rewrite <- Zle_Qle. exact Hcalls.
  - intros drained Hd.
    apply same_instant_tokens in Hd; cbn; try reflexivity; try lra.
    2:{ rewrite Z2Nat.id by lia. reflexivity. }
    destruct Hd as (Ht & Hl & Hb & Hr). cbn in Hb, Hr.
    assert (Hre : refilled drained t0 == 0).
    { unfold refilled, py_min. rewrite Hl, Hb.
      assert (0 <= inject_Z burst)
        by (change 0 with (inject_Z 0); rewrite <- Zle_Qle; lia).
      assert ((t0 - t0) * requests_per_second drained == 0) by ring.
      destruct (Qlt_le_dec _ _); lra. }
    destruct (acquire_wait drained t0) as [_ Hs]; [rewrite Hr; lra | lra |].
    eexists. split; [exact Hs|]. rewrite Hre, Hr. field. lra.
Qed.

Lemma burst_served_at_once_witness :
  exists self0, __init__ (1 # 2) 2 0 = Ok self0 /\
    Forall (fun a => a = Immediately) (outcomes self0 [0; 1 # 2]) /\
    forall drained,
      last (history self0 (replicate (Z.to_nat 2) 0)) = Some drained ->
      exists wait_time,
        snd (acquire drained 0) = Slept wait_time /\ wait_time == 1 / (1 # 2).
Proof.
  apply (burst_served_at_once (1 # 2) 2 0 [0; 1 # 2]).
  - reflexivity.
  - lia.
  - cbn. repeat split; try lra.
  - cbn. lia.
Defined.

Lemma Qdiv_le_compat a b r : 0 < r -> a <= b -> a / r <= b / r.
Proof.
  intros Hr H. unfold Qdiv. apply Qmult_le_compat_r; [exact H|].
  apply Qlt_le_weak, Qinv_lt_0_compat, Hr.
Qed.

(** X2.  [acquire] credits the time it slept a second time.  A call that
    finds less than one token sleeps [(1 - tokens) / rate] but leaves
    [last_refill] at the reading taken before the sleep; the call that follows
    when the sleep is over therefore finds the slept time refilled and sleeps
    only for the remainder: the two calls together sleep at most, and when
    made back to back exactly, one token period [1 / rate], and neither
    raises. *)
Theorem slept_time_credited_again (self : RateLimiter) (now : Q)
    (Hrate : 0 < requests_per_second self)
    (Hburst : (1 <= burst_size self)%Z)
    (Hlow : 0 <= refilled self now < 1) :
  exists wait_time,
    snd (acquire self now) = Slept wait_time /\
    0 < wait_time /\
    forall now2, now + wait_time <= now2 ->
      let second := snd (acquire (fst (acquire self now)) now2) in
      (forall e, second <> Raised e) /\
      wait_time + slept second <= 1 / requests_per_second self /\
      (now2 == now + wait_time ->
       wait_time + slept second == 1 / requests_per_second self).
Proof.
  destruct Hlow as [H0 H1].
  set (r := requests_per_second self) in *.
  set (t1 := refilled self now) in *.
  assert (Hb : 1 <= inject_Z (burst_size self)).
  { change 1 with (inject_Z 1). rewrite <- Zle_Qle. exact Hburst. }
  exists ((1 - t1) / r).
  assert (Hacq : acquire self now =
                 ({| requests_per_second := r; burst_size := burst_size self;
                     tokens := 0; last_refill := now |}, Slept ((1 - t1) / r))).
  { unfold acquire. fold t1 r. destruct (Qlt_le_dec t1 1); [|lra].
    destruct (Qeq_bool r 0) eqn:E; [apply Qeq_bool_iff in E; lra|]. reflexivity. }
  rewrite Hacq. cbn [fst snd].
  assert (Hw : 0 < (1 - t1) / r).
  { apply Qlt_shift_div_l; lra. }
  assert (Hwr : (1 - t1) / r * r == 1 - t1) by (field; lra).
  split; [reflexivity|]. split; [exact Hw|].
  intros now2 Hnow2. cbv zeta.
  set (s1 := {| requests_per_second := r; burst_size := burst_size self;
                tokens := 0; last_refill := now |}).
  set (t2 := refilled s1 now2).
  assert (Ht2 : t2 = py_min (inject_Z (burst_size self)) (0 + (now2 - now) * r))
    by reflexivity.
  assert (Hgrow : 1 - t1 <= (now2 - now) * r).
  { rewrite <- Hwr. apply Qmult_le_compat_r; lra. }
  assert (Ht2lo : 1 - t1 <= t2).
  { rewrite Ht2. unfold py_min. destruct (Qlt_le_dec _ _); lra. }
  assert (H1r : (1 - t1) / r + t1 / r == 1 / r) by (field; lra).
  unfold acquire. fold t2. change (requests_per_second s1) with r.
  destruct (Qlt_le_dec t2 1) as [Hlt|Hge].
  - destruct (Qeq_bool r 0) eqn:E; [apply Qeq_bool_iff in E; lra|].
    cbn [snd slept]. split; [intros e; discriminate|].
    assert (Hle : (1 - t2) / r <= t1 / r) by (apply Qdiv_le_compat; lra).
    split; [lra|].
    intros Heq.
    assert (Ht2eq : t2 == 1 - t1).
    { rewrite Ht2. unfold py_min.
      assert ((now2 - now) * r == 1 - t1)
        by (rewrite Heq; field; lra).
      destruct (Qlt_le_dec _ _); lra. }
    rewrite Ht2eq. rewrite <- H1r. field. lra.
  - cbn [snd slept]. split; [intros e; discriminate|].
    assert (Hle : (1 - t1) / r <= 1 / r) by (apply Qdiv_le_compat; lra).
    split; [lra|].
    intros Heq.
    assert (Ht2eq : t2 == 1 - t1).
    { rewrite Ht2. unfold py_min.
      assert ((now2 - now) * r == 1 - t1)
        by (rewrite Heq; field; lra).
      destruct (Qlt_le_dec _ _); lra. }
    assert (t1 == 0) by lra.
    rewrite <- H1r. rewrite H. field. lra.
Qed.

End BucketFacts.

Section BucketWitnesses.
Import TokenBucket Bucket.

Lemma slept_time_credited_again_witness :
  exists wait_time,
    snd (acquire (mkRateLimiter (1 # 2) 2 0 0) 0) = Slept wait_time /\
    0 < wait_time /\
    forall now2, 0 + wait_time <= now2 ->
      let second := snd (acquire (fst (acquire (mkRateLimiter (1 # 2) 2 0 0) 0)) now2) in
      (forall e, second <> Raised e) /\
      wait_time + slept second <= 1 / (1 # 2) /\
      (now2 == 0 + wait_time -> wait_time + slept second == 1 / (1 # 2)).
Proof.
  apply (slept_time_credited_again (mkRateLimiter (1 # 2) 2 0 0) 0).
  - reflexivity.
  - simpl. lia.
  - vm_compute. split; [discriminate | reflexivity].
Defined.

End BucketWitnesses.

Section WaitFacts.
Import Bucket.

(** X3.  [DelayRateLimiter.wait_if_needed] keeps consecutive calls at
    least [delay_between_requests] apart: provided the sleep it asks for is
    over when the clock is read again, the new [last_request_time] is that
    reading and lies no less than the delay after the previous one; it sleeps
    exactly when the delay has not yet passed, for the time that is
    missing. *)
Theorem delay_wait_keeps_gap (self : DelayLimiter.DelayRateLimiter)
    (current_time time_after : Q)
    (Hsleep : slept_until (snd (DelayWait.wait_if_needed self current_time time_after))
                          current_time time_after) :
  let last := DelayLimiter.last_request_time self in
  let delay := DelayLimiter.delay_between_requests self in
  let self' := fst (DelayWait.wait_if_needed self current_time time_after) in
  DelayLimiter.last_request_time self' = time_after /\
  last + delay <= time_after /\
  DelayLimiter.delay_between_requests self' = delay /\
  match snd (DelayWait.wait_if_needed self current_time time_after) with
  | Some wait_time =>
      current_time - last < delay /\ wait_time = delay - (current_time - last)
  | None => delay <= current_time - last
  end.
Proof.
  revert Hsleep. unfold DelayWait.wait_if_needed, slept_until. cbn [fst snd].
  destruct (Qlt_le_dec _ _) as [Hlt|Hge]; cbn; intros [H1 H2];
    repeat split; try lra; auto.
Qed.

Lemma delay_wait_keeps_gap_witness :
  let self := DelayLimiter.mkDelayRateLimiter 2 (1 # 2) 10 in
  DelayLimiter.last_request_time (fst (DelayWait.wait_if_needed self (41 # 4) (21 # 2)))
    = 21 # 2 /\
  10 + (1 # 2) <= 21 # 2.
Proof.
  pose proof (delay_wait_keeps_gap (DelayLimiter.mkDelayRateLimiter 2 (1 # 2) 10)
                (41 # 4) (21 # 2)) as H.
  cbv zeta in H. destruct H as (H1 & H2 & _).
  - vm_compute. split; discriminate.
  - split; [exact H1 | exact H2].
Defined.

(** X4.  The legacy [RateLimiter.wait_if_needed]: the first call on an
    instance (no [_last_request_time] yet) never sleeps, whatever the delay;
    every call records the clock reading taken at its end, and a later call
    returns no earlier than the delay after the recorded one, sleeping only
    when the delay has not yet passed. *)
Theorem legacy_wait_first_call_free (self : LegacyWait.Legacy) (delay : Q)
    (current_time time_after : Q)
    (Hsleep : slept_until (snd (LegacyWait.wait_if_needed self delay current_time time_after))
                          current_time time_after) :
  LegacyWait._last_request_time
    (fst (LegacyWait.wait_if_needed self delay current_time time_after))
    = Some time_after /\
  match LegacyWait._last_request_time self with
  | None => snd (LegacyWait.wait_if_needed self delay current_time time_after) = None
  | Some last =>
      last + delay <= time_after /\
      (snd (LegacyWait.wait_if_needed self delay current_time time_after) = None
       <-> delay <= current_time - last)
  end.
Proof.
  revert Hsleep. unfold LegacyWait.wait_if_needed, slept_until. cbn [fst snd].
  destruct (LegacyWait._last_request_time self) as [last|]; [|auto].
  destruct (Qlt_le_dec _ _) as [Hlt|Hge]; intros [H1 H2]; split; auto; split;
    try lra; split; try discriminate; auto; intros; lra.
Qed.

Lemma legacy_wait_first_call_free_witness :
  LegacyWait._last_request_time
    (fst (LegacyWait.wait_if_needed (LegacyWait.mkLegacy (Some 10)) (1 # 2) (41 # 4) (21 # 2)))
    = Some (21 # 2) /\
  10 + (1 # 2) <= 21 # 2.
Proof.
  pose proof (legacy_wait_first_call_free (LegacyWait.mkLegacy (Some 10)) (1 # 2)
                (41 # 4) (21 # 2)) as H.
  destruct H as (H1 & H2 & _).
  - vm_compute. split; discriminate.
  - split; [exact H1 | exact H2].
Defined.

End WaitFacts.

Section CacheAdminFacts.
Import Cache CacheAdmin.
Context {lib : PyLib}.

Lemma name_in_append dir name : name_in dir (dir ++ "/" ++ name)%string = Some name.
Proof.
  induction dir as [|c dir IH]; [reflexivity|].
  rewrite append_cons. cbn [name_in]. rewrite Ascii.eqb_refl. exact IH.
Qed.

Lemma has_slash_app a b : has_slash (a ++ b) = has_slash a || has_slash b.
Proof.
  induction a as [|c a IH]; [reflexivity|].
  rewrite append_cons. cbn [has_slash]. rewrite IH. apply orb_assoc.
Qed.

Lemma ends_with_app a suffix : ends_with suffix (a ++ suffix) = true.
Proof.
  induction a as [|c a IH].
  - change (("" ++ suffix)%string) with suffix.
    destruct suffix; cbn [ends_with]; rewrite String.eqb_refl; reflexivity.
  - rewrite append_cons. cbn [ends_with]. rewrite IH. apply orb_true_r.
Qed.

Lemma matches_cache_file self key :
  matches self (_get_cache_file self key) = negb (has_slash key).
Proof.
  unfold matches, _get_cache_file. rewrite name_in_append.
  rewrite has_slash_app, ends_with_app. cbn. rewrite orb_false_r, andb_true_r.
  reflexivity.
Qed.

Lemma unlink_each_spec files : forall d : gmap string string,
  NoDup files -> (forall p, p ∈ files -> is_Some (d !! p)) ->
  exists d' : gmap string string,
    unlink_each files d = (Ok tt, d') /\
    (forall p, d' !! p = if bool_decide (p ∈ files) then None else d !! p) /\
    size d = (size d' + length files)%nat.
Proof.
  induction files as [|f files IH]; intros d Hnd Hin.
  - exists d. split; [reflexivity|]. split; [|cbn; lia].
    intros p. rewrite bool_decide_eq_false_2; [reflexivity|]. apply not_elem_of_nil.
  - apply NoDup_cons in Hnd as [Hf Hnd].
    destruct (Hin f) as [text Ht]; [left|].
    destruct (IH (delete f d) Hnd) as (d' & Hrun & Hlook & Hsize).
    { intros p Hp. rewrite lookup_delete_ne; [apply Hin; right; exact Hp|].
      intros ->. contradiction. }
    exists d'. split; [|split].
    + cbn [unlink_each]. unfold bind at 1, unlink at 1. rewrite Ht. exact Hrun.
    + intros p. rewrite Hlook. destruct (decide (p = f)) as [->|Hne].
      * rewrite lookup_delete_eq. rewrite (bool_decide_eq_true_2 (f ∈ f :: files));
          [|left]. destruct (bool_decide _); reflexivity.
      * rewrite lookup_delete_ne by congruence.
        destruct (bool_decide (p ∈ files)) eqn:E.
        -- apply bool_decide_eq_true_1 in E.
           rewrite bool_decide_eq_true_2; [reflexivity | right; exact E].
        -- apply bool_decide_eq_false_1 in E.
           rewrite bool_decide_eq_false_2; [reflexivity|].
           rewrite elem_of_cons. tauto.
    + rewrite map_size_delete_Some in Hsize by (rewrite Ht; eauto).
      assert (size d <> 0%nat).
      { intros H0. apply map_size_empty_inv in H0. subst d.
        rewrite lookup_empty in Ht. discriminate. }
      cbn [length]. lia.
Qed.


Lemma listing_empty self (d : gmap string string) :
  (forall p, matches self p = true -> d !! p = None) -> listing self d [].
Proof.
  intros H. split; [constructor|]. intros p. split.
  - intros Hp. apply elem_of_nil in Hp. contradiction.
  - intros [[text Ht] Hm]. rewrite (H p Hm) in Ht. discriminate.
Qed.

Lemma glob_listing self (d : gmap string string) : listing self d (glob self d).
Proof.
  unfold glob. split.
  - apply NoDup_ListNoDup, List.NoDup_filter, NoDup_ListNoDup, NoDup_fst_map_to_list.
  - intros p. rewrite list_elem_of_In, filter_In, <- list_elem_of_In.
    rewrite list_elem_of_fmap. split.
    + intros [([p' text] & -> & Hp) Hm]. apply elem_of_map_to_list in Hp.
      cbn. split; [eauto | exact Hm].
    + intros [[text Ht] Hm]. split; [|exact Hm].
      exists (p, text). split; [reflexivity|]. apply elem_of_map_to_list. exact Ht.
Qed.

Lemma clear_all_run (self : FirecrawlCache) (d : gmap string string)
    (cache_files : list string)
    (Hlisting : listing self d cache_files) :
  exists d' : gmap string string,
    clear_all self cache_files d = (Ok (length cache_files), d') /\
    (forall path, d' !! path = if matches self path then None else d !! path) /\
    size d = (size d' + length cache_files)%nat.
Proof.
  destruct Hlisting as [Hnd Hin].
  destruct (unlink_each_spec cache_files d Hnd) as (d' & Hrun & Hlook & Hsize).
  { intros p Hp. apply Hin in Hp. tauto. }
  exists d'. split; [|split; [|exact Hsize]].
  - unfold clear_all, bind. rewrite Hrun. reflexivity.
  - intros p. rewrite Hlook. destruct (bool_decide (p ∈ cache_files)) eqn:E.
    + apply bool_decide_eq_true_1, Hin in E. destruct E as [_ ->]. reflexivity.
    + apply bool_decide_eq_false_1 in E. destruct (matches self p) eqn:Em; [|reflexivity].
      destruct (d !! p) eqn:Ed; [|reflexivity].
      exfalso. apply E, Hin. split; [eauto | exact Em].
Qed.

(** X5.  [clear_all] removes exactly the files [glob("*.json")] lists and
    returns their number; every other file stays as it is, the directory lists
    no cache file afterwards, and [get] answers [None] for every URL (whose
    key holds no path separator, as a hexadecimal digest does). *)
Theorem clear_all_empties (self : FirecrawlCache) (d : gmap string string)
    (cache_files : list string)
    (Hlisting : listing self d cache_files) :
  exists d' : gmap string string,
    clear_all self cache_files d = (Ok (length cache_files), d') /\
    (forall path, d' !! path = if matches self path then None else d !! path) /\
    size d = (size d' + length cache_files)%nat /\
    listing self d' [] /\
    forall url now,
      has_slash (_get_cache_key url) = false ->
      get self url now d' = (Ok JNull, d').
Proof.
  destruct (clear_all_run self d cache_files Hlisting) as (d' & Hrun & Hlook & Hsize).
  exists d'. split; [exact Hrun|]. split; [exact Hlook|]. split; [exact Hsize|].
  split.
  - apply listing_empty. intros p Hp. rewrite Hlook, Hp. reflexivity.
  - intros url now Hkey. apply get_absent.
    rewrite Hlook, matches_cache_file, Hkey. reflexivity.
Qed.


(** What one pass of the sweep does, by the verdict on the file's text. *)
Lemma sweep_spec self p now text (d : gmap string string) :
  d !! p = Some text ->
  match verdict self now text with
  | Removes => sweep self p now d = (Ok 1%nat, delete p d)
  | Keeps => sweep self p now d = (Ok 0%nat, d)
  | LetsOut c => exists e, sweep self p now d = (Exc e, d) /\ exc_class e = c
  end.
Proof.
  intros Hp. unfold verdict, sweep, try_except, bind, read_text, lift, ret, unlink,
    json_load_text.
  rewrite Hp.
  destruct (json_load text) as [[| | | | |items|items|members]| |]; cbn;
    rewrite ?Hp; eauto.
  destruct (assoc "cached_at" members) as [[| | | |stamp| | |]|]; cbn;
    rewrite ?Hp; eauto.
  destruct (fromisoformat stamp) as [[us|us off]|]; cbn; rewrite ?Hp; eauto.
  destruct (ttl self <? now - us)%Z; cbn; rewrite ?Hp; reflexivity.
Qed.

(** The exceptions that a file's content can make [clear_expired] let
    out. *)
Lemma verdict_lets_out self now text c :
  verdict self now text = LetsOut c -> c = TypeError \/ c = RecursionError.
Proof.
  unfold verdict.
  destruct (json_load text) as [[| | | | |items|items|members]| |];
    try (intros [= <-]; auto); try discriminate.
  destruct (assoc "cached_at" members) as [[| | | |stamp| | |]|];
    try (intros [= <-]; auto); try discriminate.
  destruct (fromisoformat stamp) as [[us|us off]|];
    try (intros [= <-]; auto); try discriminate.
  destruct (ttl self <? now - us)%Z; discriminate.
Qed.

Lemma sweep_missing self p now (d : gmap string string) :
  d !! p = None ->
  exists e, sweep self p now d = (Exc e, d) /\ exc_class e = OSError.
Proof.
  intros Hp. unfold sweep, try_except, bind, read_text. rewrite Hp. cbn. eauto.
Qed.

(** The ways a pass can end. *)
Lemma sweep_cases self p now (d : gmap string string) :
  (sweep self p now d = (Ok 0%nat, d) /\
   exists text, d !! p = Some text /\ verdict self now text = Keeps) \/
  (sweep self p now d = (Ok 1%nat, delete p d) /\
   exists text, d !! p = Some text /\ verdict self now text = Removes) \/
  (exists e, sweep self p now d = (Exc e, d) /\
             (exc_class e = TypeError \/ exc_class e = RecursionError
              \/ exc_class e = OSError)).
Proof.
  destruct (d !! p) as [text|] eqn:Hp.
  - pose proof (sweep_spec self p now text d Hp) as H.
    destruct (verdict self now text) as [| |c] eqn:Ev.
    + right. left. eauto.
    + left. eauto.
    + right. right. destruct H as (e & He & Hc). exists e. split; [exact He|].
      rewrite Hc. destruct (verdict_lets_out self now text c Ev) as [->| ->]; auto.
  - right. right. destruct (sweep_missing self p now d Hp) as (e & He & Hc). eauto.
Qed.

Lemma sweep_all_accounting self visits : forall (d : gmap string string) count,
  match sweep_all self visits count d with
  | (Ok n, d') =>
      d' ⊆ d /\ (size d + count = size d' + n)%nat /\
      forall path, path ∉ visits.*1 -> d' !! path = d !! path
  | (Exc e, d') =>
      d' ⊆ d /\
      (exc_class e = TypeError \/ exc_class e = RecursionError
       \/ exc_class e = OSError)
  end.
Proof.
  induction visits as [|[p now] rest IH]; intros d count.
  - cbn. split; [reflexivity|]. split; [lia|]. reflexivity.
  - cbn [sweep_all]. unfold bind at 1.
    destruct (sweep_cases self p now d)
      as [[-> _] | [[-> (text & Hp & _)] | (e & -> & He)]].
    + specialize (IH d (count + 0)%nat).
      destruct (sweep_all self rest (count + 0) d) as [[n|e] d'].
      * destruct IH as (Hs & Hn & Hl). split; [exact Hs|]. split; [lia|].
        intros q Hq. apply Hl. intros Hq'. apply Hq. cbn. right. exact Hq'.
      * exact IH.
    + specialize (IH (delete p d) (count + 1)%nat).
      assert (Hsub : delete p d ⊆ d) by apply delete_subseteq.
      assert (Hsize : size d = S (size (delete p d))).
      { rewrite map_size_delete_Some by (rewrite Hp; eauto).
        assert (size d <> 0%nat); [|lia].
        intros H0. apply map_size_empty_inv in H0. subst d.
        rewrite lookup_empty in Hp. discriminate. }
      destruct (sweep_all self rest (count + 1) (delete p d)) as [[n|e] d'].
      * destruct IH as (Hs & Hn & Hl). split; [etrans; eassumption|]. split; [lia|].
        intros q Hq. rewrite Hl.
        -- apply lookup_delete_ne. intros ->. apply Hq. cbn. left.
        -- intros Hq'. apply Hq. cbn. right. exact Hq'.
      * destruct IH as [Hs Hc]. split; [etrans; eassumption | exact Hc].
    + split; [reflexivity | exact He].
Qed.

(** X6.  [clear_expired] accounts for what it deletes: when it returns
    [n], it has removed exactly [n] files, created or changed none, and
    touched only files of its listing; when it raises instead, the exception
    is a [TypeError] (an entry out of shape), a [RecursionError] (an entry
    nested too deep for [json.load]) or an [OSError] (a listed file that is
    gone), and still nothing but deletions has happened. *)
Theorem clear_expired_accounting (self : FirecrawlCache)
    (visits : list (string * Z)) (d : gmap string string) :
  match clear_expired self visits d with
  | (Ok removed_count, d') =>
      d' ⊆ d /\ size d = (size d' + removed_count)%nat /\
      forall path, path ∉ visits.*1 -> d' !! path = d !! path
  | (Exc e, d') =>
      d' ⊆ d /\
      (exc_class e = TypeError \/ exc_class e = RecursionError
       \/ exc_class e = OSError)
  end.
Proof.
  unfold clear_expired. pose proof (sweep_all_accounting self visits d 0) as H.
  destruct (sweep_all self visits 0 d) as [[n|e] d']; [|exact H].
  destruct H as (Hs & Hn & Hl). split; [exact Hs|]. split; [lia | exact Hl].
Qed.


Lemma get_answer_local self url now (d1 d2 : gmap string string) :
  d1 !! _get_cache_file self (_get_cache_key url)
    = d2 !! _get_cache_file self (_get_cache_key url) ->
  fst (get self url now d1) = fst (get self url now d2).
Proof.
  intros H. unfold get, try_except, bind, path_exists, read_text, lift, ret, unlink,
    json_load_text.
  rewrite H. destruct (d2 !! _) as [text|] eqn:E; cbn; [|reflexivity].
  rewrite ?H, ?E.
  destruct (json_load text) as [cache_data| |]; cbn; rewrite ?H, ?E;
    [|reflexivity|reflexivity].
  destruct (subscript cache_data "cached_at") as [stamp|e]; cbn.
  2:{ destruct (exc_class e); cbn; rewrite ?H, ?E; reflexivity. }
  destruct (datetime_fromisoformat stamp) as [cached_at|e]; cbn.
  2:{ destruct (exc_class e); cbn; rewrite ?H, ?E; reflexivity. }
  destruct (since now cached_at) as [age|e]; cbn.
  2:{ destruct (exc_class e); cbn; rewrite ?H, ?E; reflexivity. }
  destruct (ttl self <? age)%Z; cbn; rewrite ?H, ?E; [reflexivity|].
  destruct (subscript cache_data "firecrawl_result") as [v|e]; cbn; [reflexivity|].
  destruct (exc_class e); cbn; rewrite ?H, ?E; reflexivity.
Qed.

Lemma removed_is_stale self now later text :
  verdict self now text = Removes -> (now <= later)%Z -> Stale self later text.
Proof.
  unfold verdict. intros H Hle.
  destruct (json_load text) as [[| | | | |items|items|members]| |] eqn:Ej;
    try discriminate.
  2:{ apply stale_unparseable. exact Ej. }
  destruct (assoc "cached_at" members) as [[| | | |stamp| | |]|] eqn:Ea;
    try discriminate.
  2:{ eapply stale_no_stamp; eassumption. }
  destruct (fromisoformat stamp) as [[us|us off]|] eqn:Ef; try discriminate.
  2:{ eapply stale_bad_stamp; eassumption. }
  destruct (ttl self <? now - us)%Z eqn:Et; [|discriminate].
  apply Z.ltb_lt in Et.
  eapply stale_expired; try eassumption. lia.
Qed.

Lemma sweep_all_keeps_answers self url later visits :
  forall (d : gmap string string) count n d',
  sweep_all self visits count d = (Ok n, d') ->
  Forall (fun visit => (visit.2 <= later)%Z) visits ->
  fst (get self url later d') = fst (get self url later d).
Proof.
  induction visits as [|[p now] rest IH]; intros d count n d' Hrun Hle.
  - cbn in Hrun. injection Hrun as _ <-. reflexivity.
  - apply Forall_cons in Hle as [Hnow Hle]. cbn in Hnow.
    cbn [sweep_all] in Hrun. unfold bind at 1 in Hrun.
    destruct (sweep_cases self p now d)
      as [[Hs _] | [[Hs (text & Hp & Hv)] | (e & Hs & _)]];
      rewrite Hs in Hrun; [eauto | | discriminate].
    rewrite (IH _ _ _ _ Hrun Hle).
    destruct (decide (p = _get_cache_file self (_get_cache_key url))) as [->|Hne].
    + rewrite get_absent by apply lookup_delete_eq.
      destruct (get_drops_stale self url later text d Hp) as [-> _];
        [|reflexivity].
      eapply removed_is_stale; eassumption.
    + apply get_answer_local. apply lookup_delete_ne. exact Hne.
Qed.

(** X7.  Sweeping does not change what the cache answers: after a
    [clear_expired] that returned, [get] for any URL at any later time returns
    what it would have returned without the sweep.  What the sweep removes,
    [get] would have dropped as well. *)
Theorem clear_expired_keeps_answers (self : FirecrawlCache)
    (visits : list (string * Z)) (d d' : gmap string string)
    (removed_count : nat) (url : string) (later : Z)
    (Hswept : clear_expired self visits d = (Ok removed_count, d'))
    (Hlater : Forall (fun visit => (visit.2 <= later)%Z) visits) :
  fst (get self url later d') = fst (get self url later d).
Proof. eapply sweep_all_keeps_answers; eassumption. Qed.

Lemma sweep_all_app self before : forall after (d : gmap string string) count,
  sweep_all self (before ++ after) count d =
  match sweep_all self before count d with
  | (Ok n, d1) => sweep_all self after n d1
  | (Exc e, d1) => (Exc e, d1)
  end.
Proof.
  induction before as [|[p now] rest IH]; intros after d count; [reflexivity|].
  cbn [sweep_all app]. unfold bind.
  destruct (sweep self p now d) as [[k|e] d1]; [apply IH | reflexivity].
Qed.

(** X8.  One entry out of shape stops the sweep: when [clear_expired]
    comes to a file whose JSON is not an object or whose [cached_at] is not a
    text (or carries a UTC offset), the [TypeError] leaves the method; the
    file stays on disk, the files listed after it are not looked at, and the
    count of the removals made so far is lost. *)
Theorem clear_expired_stops_at_odd_entry (self : FirecrawlCache)
    (before after : list (string * Z)) (cache_file : string) (now : Z)
    (text : string) (d d1 : gmap string string) (removed_count : nat)
    (Hbefore : clear_expired self before d = (Ok removed_count, d1))
    (Hfile : d1 !! cache_file = Some text)
    (Hodd : verdict self now text = LetsOut TypeError) :
  exists e,
    clear_expired self (before ++ (cache_file, now) :: after) d = (Exc e, d1) /\
    exc_class e = TypeError /\
    d1 !! cache_file = Some text /\
    forall path, path ∉ before.*1 -> d1 !! path = d !! path.
Proof.
  unfold clear_expired in *. rewrite sweep_all_app, Hbefore.
  cbn [sweep_all]. unfold bind at 1.
  pose proof (sweep_spec self cache_file now text d1 Hfile) as H.
  rewrite Hodd in H. destruct H as (e & -> & Hc).
  exists e. split; [reflexivity|]. split; [exact Hc|]. split; [exact Hfile|].
  pose proof (sweep_all_accounting self before d 0) as Hacc.
  rewrite Hbefore in Hacc. apply Hacc.
Qed.

(** X9.  The footprint of [get]: it never creates or changes a file.  It
    deletes at most the cache file of its own URL, and only when it returns
    [None]; when it returns a payload or lets an exception out, the disk is
    as before.  The exceptions that leave [get] are the [RecursionError] of
    [json.load] on a file nested too deep, and [TypeError] for a file that was
    read. *)
Theorem get_footprint (self : FirecrawlCache) (url : string) (now : Z)
    (d : gmap string string) :
  let file := _get_cache_file self (_get_cache_key url) in
  match get self url now d with
  | (Ok JNull, d') => d' = d \/ (is_Some (d !! file) /\ d' = delete file d)
  | (Ok _, d') => d' = d /\ is_Some (d !! file)
  | (Exc e, d') =>
      d' = d /\
      exists text, d !! file = Some text /\
        match json_load text with
        | Parsed _ => exc_class e = TypeError
        | TooDeep => exc_class e = RecursionError
        | Malformed => False
        end
  end.
Proof.
  intros file. unfold get, try_except, bind, path_exists, read_text, lift, ret,
    unlink, json_load_text. fold file.
  destruct (d !! file) as [text|] eqn:E; cbn; [|auto].
  rewrite ?E.
  destruct (json_load text) as [cache_data| |] eqn:Ej; cbn; rewrite ?E; eauto.
  2:{ split; [reflexivity|]. exists text. rewrite Ej. auto. }
  assert (Hout : d = d /\ exists text0, Some text = Some text0 /\
            match json_load text0 with
            | Parsed _ => TypeError = TypeError
            | TooDeep => TypeError = RecursionError
            | Malformed => False
            end).
  { split; [reflexivity|]. exists text. rewrite Ej. auto. }
  assert (Hsub : forall key,
    match subscript cache_data key with
    | Ok _ => True
    | Exc e => exc_class e = TypeError \/ exc_class e = KeyError
    end).
  { intros key. destruct cache_data; cbn; auto. destruct (assoc key members); cbn; auto. }
  pose proof (Hsub "cached_at"%string) as H1.
  destruct (subscript cache_data "cached_at") as [stamp|e]; cbn.
  2:{ destruct e as [c msg]. destruct H1 as [H1|H1]; cbn in H1; subst c; cbn;
        rewrite ?E; try exact Hout; eauto. }
  destruct stamp as [| | | |stamp| | |]; cbn; try exact Hout; eauto.
  destruct (fromisoformat stamp) as [[us|us off]|]; cbn; rewrite ?E;
    try exact Hout; eauto.
  destruct (ttl self <? now - us)%Z; cbn; rewrite ?E; eauto.
  pose proof (Hsub "firecrawl_result"%string) as H2.
  destruct (subscript cache_data "firecrawl_result") as [v|e]; cbn.
  - destruct v; eauto.
  - destruct e as [c msg]. destruct H2 as [H2|H2]; cbn in H2; subst c; cbn;
      rewrite ?E; try exact Hout; eauto.
Qed.


Lemma set_writes self url payload now (d : gmap string string) :
  set self url payload now d =
  (Ok tt, <[_get_cache_file self (_get_cache_key url)
            := json_dump (cache_entry url now payload)]> d).
Proof. reflexivity. Qed.

(** A fresh, well-formed file answers with its payload. *)
Lemma get_fresh self url url0 payload now later (d : gmap string string) :
  d !! _get_cache_file self (_get_cache_key url)
    = Some (json_dump (cache_entry url0 now payload)) ->
  json_load (json_dump (cache_entry url0 now payload))
    = Parsed (cache_entry url0 now payload) ->
  fromisoformat (isoformat now) = Some (Naive now) ->
  (later - now <= ttl self)%Z ->
  get self url later d = (Ok payload, d).
Proof.
  intros Hd Hjson Hstamp Hfresh.
  unfold get, try_except, bind, path_exists, read_text, lift, ret, json_load_text.
  rewrite Hd. cbn. rewrite Hd, Hjson. cbn. rewrite Hstamp. cbn.
  destruct (ttl self <? later - now)%Z eqn:E; [apply Z.ltb_lt in E; lia|].
  reflexivity.
Qed.

Lemma cache_file_inj self key1 key2 :
  _get_cache_file self key1 = _get_cache_file self key2 -> key1 = key2.
Proof.
  unfold _get_cache_file. intros H.
  apply String.app_inj in H. apply String.app_inj in H.
  revert key2 H. induction key1 as [|c k IH]; intros [|c2 k2] H.
  - reflexivity.
  - exfalso. apply (f_equal String.length) in H.
    rewrite !length_append in H. cbn [String.length] in H. lia.
  - exfalso. apply (f_equal String.length) in H.
    rewrite !length_append in H. cbn [String.length] in H. lia.
  - rewrite !append_cons in H. injection H as -> H. f_equal. apply IH, H.
Qed.

(** X10.  [set] replaces: caching a URL a second time leaves the disk as if
    only the second result had been cached, adds no second file, and [get]
    within the ttl returns the newer result. *)
Theorem set_replaces_entry (self : FirecrawlCache) (url : string)
    (older newer : json) (t1 t2 later : Z) (d : gmap string string)
    (Hjson : json_load (json_dump (cache_entry url t2 newer))
             = Parsed (cache_entry url t2 newer))
    (Hstamp : fromisoformat (isoformat t2) = Some (Naive t2))
    (Hfresh : (later - t2 <= ttl self)%Z) :
  exists d1 d2 : gmap string string,
    set self url older t1 d = (Ok tt, d1) /\
    set self url newer t2 d1 = (Ok tt, d2) /\
    set self url newer t2 d = (Ok tt, d2) /\
    size d2 = size d1 /\
    get self url later d2 = (Ok newer, d2).
Proof.
  eexists _, _. rewrite !set_writes. split; [reflexivity|]. split; [reflexivity|].
  rewrite insert_insert_eq. split; [reflexivity|]. split.
  - rewrite !map_size_insert. reflexivity.
  - eapply get_fresh; try eassumption. apply lookup_insert_eq.
Qed.

(** X11.  [set] touches the entry of one key only: for a URL with a
    different cache key the answer of [get] is as before, and for a URL with
    the same key (a collision of digests) [get] returns what was cached for
    the other URL: the [url] member of the entry is never compared. *)
Theorem set_touches_one_key (self : FirecrawlCache) (url other : string)
    (payload : json) (now later : Z) (d : gmap string string)
    (Hjson : json_load (json_dump (cache_entry url now payload))
             = Parsed (cache_entry url now payload))
    (Hstamp : fromisoformat (isoformat now) = Some (Naive now))
    (Hfresh : (later - now <= ttl self)%Z) :
  let d1 := snd (set self url payload now d) in
  (_get_cache_key other <> _get_cache_key url ->
   fst (get self other later d1) = fst (get self other later d)) /\
  (_get_cache_key other = _get_cache_key url ->
   get self other later d1 = (Ok payload, d1)).
Proof.
  rewrite set_writes. cbn [snd]. split.
  - intros Hne. apply get_answer_local. apply lookup_insert_ne.
    intros H. apply cache_file_inj in H. congruence.
  - intros He. eapply get_fresh; try eassumption. rewrite He. apply lookup_insert_eq.
Qed.

Lemma total_size_spec files : forall d : gmap string string,
  (forall p, p ∈ files -> is_Some (d !! p)) ->
  exists total, total_size files d = (Ok total, d) /\ (0 <= total)%Z.
Proof.
  induction files as [|f files IH]; intros d Hin.
  - exists 0%Z. split; [reflexivity | lia].
  - destruct (Hin f) as [text Ht]; [left|].
    destruct (IH d) as (total & Hrun & Hpos); [intros p Hp; apply Hin; right; exact Hp|].
    exists (st_size text + total)%Z. split.
    + cbn [total_size]. unfold bind, stat_size, bind, read_text, ret.
      rewrite Ht, Hrun. reflexivity.
    + assert (0 <= st_size text)%Z; [|lia].
      clear. induction text as [|c r IH]; cbn [st_size]; [lia|].
      destruct (_ <? _)%nat; lia.
Qed.

Lemma round2_near x : x - (1 # 200) <= round2 x /\ round2 x <= x + (1 # 200).
Proof.
  unfold round2.
  pose proof (Qfloor_le (x * 100)) as Hlo.
  pose proof (Qlt_floor (x * 100)) as Hhi.
  rewrite inject_Z_plus in Hhi. change (inject_Z 1) with 1 in Hhi.
  set (below := Qfloor (x * 100)) in *.
  assert (Hdiv : forall z, inject_Z z / 100 == inject_Z z * (1 # 100)).
  { intros z. unfold Qdiv. reflexivity. }
  assert (H1 : inject_Z (below + 1) == inject_Z below + 1).
  { rewrite inject_Z_plus. reflexivity. }
  destruct (Qlt_le_dec _ (1 # 2)) as [Ha|Ha].
  - rewrite Hdiv. lra.
  - destruct (Qlt_le_dec (1 # 2) _) as [Hb|Hb].
    + rewrite Hdiv, H1. lra.
    + destruct (Z.even below); rewrite Hdiv, ?H1; lra.
Qed.

Lemma listing_length self (d : gmap string string) files files' :
  listing self d files -> listing self d files' -> length files = length files'.
Proof.
  intros [Hn Hi] [Hn' Hi']. apply Permutation_length.
  apply NoDup_Permutation; try assumption.
  intros p. rewrite Hi, Hi'. reflexivity.
Qed.

(** X12.  [get_cache_stats] and [clear_all] agree, in whatever order the
    directory is listed: [total_entries] is the number [clear_all] returns,
    [total_size_bytes] is not negative, [total_size_mb] is within 0.005 of the
    bytes divided by 2^20, and after [clear_all] the statistics are all
    zero. *)
Theorem stats_count_what_clear_all_removes (self : FirecrawlCache)
    (d : gmap string string) (cache_files cache_files' : list string)
    (Hlisting : listing self d cache_files)
    (Hlisting' : listing self d cache_files') :
  exists stats (d' : gmap string string),
    get_cache_stats self cache_files d = (Ok stats, d) /\
    clear_all self cache_files' d = (Ok (total_entries stats), d') /\
    (0 <= total_size_bytes stats)%Z /\
    inject_Z (total_size_bytes stats) / inject_Z 1048576 - (1 # 200)
      <= total_size_mb stats /\
    total_size_mb stats
      <= inject_Z (total_size_bytes stats) / inject_Z 1048576 + (1 # 200) /\
    stats_cache_dir stats = cache_dir self /\
    exists stats',
      get_cache_stats self [] d' = (Ok stats', d') /\
      total_entries stats' = 0%nat /\ total_size_bytes stats' = 0%Z /\
      total_size_mb stats' == 0.
Proof.
  destruct (total_size_spec cache_files d) as (total & Hrun & Hpos).
  { intros p Hp. apply Hlisting in Hp. tauto. }
  destruct (clear_all_run self d cache_files' Hlisting')
    as (d' & Hclear & _).
  eexists _, d'. unfold get_cache_stats, bind. rewrite Hrun. cbn [ret].
  split; [reflexivity|]. cbn [total_entries total_size_bytes total_size_mb
                              stats_cache_dir].
  split; [rewrite (listing_length self d _ _ Hlisting Hlisting'); exact Hclear|].
  split; [exact Hpos|].
  split; [apply round2_near|]. split; [apply round2_near|]. split; [reflexivity|].
  eexists. cbn. split; [reflexivity|]. cbn. repeat split.
Qed.


(** X13.  [set] adds one entry for a URL that had no cache file and none
    for a URL that had one, as counted by [get_cache_stats]. *)
Theorem set_adds_at_most_one_entry (self : FirecrawlCache) (url : string)
    (payload : json) (now : Z) (d : gmap string string)
    (cache_files cache_files1 : list string)
    (Hkey : has_slash (_get_cache_key url) = false)
    (Hlisting : listing self d cache_files)
    (Hlisting1 : listing self (snd (set self url payload now d)) cache_files1) :
  let d1 := snd (set self url payload now d) in
  exists stats stats1,
    get_cache_stats self cache_files d = (Ok stats, d) /\
    get_cache_stats self cache_files1 d1 = (Ok stats1, d1) /\
    total_entries stats1 =
      match d !! _get_cache_file self (_get_cache_key url) with
      | Some _ => total_entries stats
      | None => S (total_entries stats)
      end.
Proof.
  intros d1. subst d1. revert Hlisting1. rewrite set_writes. cbn [snd].
  set (file := _get_cache_file self (_get_cache_key url)).
  set (text := json_dump _). intros Hlisting1.
  destruct (total_size_spec cache_files d) as (total & Hrun & _).
  { intros p Hp. apply Hlisting in Hp. tauto. }
  destruct (total_size_spec cache_files1 (<[file := text]> d)) as (total1 & Hrun1 & _).
  { intros p Hp. apply Hlisting1 in Hp. tauto. }
  eexists _, _. unfold get_cache_stats, bind. rewrite Hrun, Hrun1. cbn [ret].
  split; [reflexivity|]. split; [reflexivity|]. cbn [total_entries].
  assert (Hm : matches self file = true).
  { unfold file. rewrite matches_cache_file, Hkey. reflexivity. }
  destruct Hlisting as [Hn Hi]. destruct Hlisting1 as [Hn1 Hi1].
  destruct (d !! file) as [old|] eqn:Ed.
  - apply Permutation_length, NoDup_Permutation; try assumption.
    intros p. rewrite Hi, Hi1. destruct (decide (p = file)) as [->|Hne].
    + rewrite lookup_insert_eq, Ed. split; intros [_ H]; eauto.
    + rewrite lookup_insert_ne by congruence. reflexivity.
  - change (S (length cache_files)) with (length (file :: cache_files)).
    apply Permutation_length, NoDup_Permutation; try assumption.
    + apply NoDup_cons. split; [|exact Hn].
      intros Hf. apply Hi in Hf. destruct Hf as [[x Hx] _]. congruence.
    + intros p. rewrite Hi1, elem_of_cons, Hi.
      destruct (decide (p = file)) as [->|Hne].
      * rewrite lookup_insert_eq. split; [auto|]. intros _. eauto.
      * rewrite lookup_insert_ne by congruence. tauto.
Qed.

End CacheAdminFacts.

Section CacheAdminWitnesses.
Import Cache CacheAdmin Samples.
Local Open Scope string_scope.

Lemma clear_all_empties_witness :
  let d : gmap string string := {[ cache_file := odd_entry ]} in
  exists d' : gmap string string,
    clear_all cache (glob cache d) d = (Ok (length (glob cache d)), d') /\
    (forall path, d' !! path = if matches cache path then None else d !! path) /\
    size d = (size d' + length (glob cache d))%nat /\
    listing cache d' [] /\
    forall url now,
      has_slash (_get_cache_key (lib := RefLib.ref_lib) url) = false ->
      get (lib := RefLib.ref_lib) cache url now d' = (Ok JNull, d').
Proof.
  intros d.
  apply (clear_all_empties (lib := RefLib.ref_lib) cache d (glob cache d)).
  apply glob_listing.
Defined.

Lemma clear_expired_keeps_answers_witness :
  let d : gmap string string := {[ cache_file := "oops" ]} in
  fst (get (lib := RefLib.ref_lib) cache helmet_url (noon + 1)
         (snd (clear_expired (lib := RefLib.ref_lib) cache [(cache_file, noon)] d)))
  = fst (get (lib := RefLib.ref_lib) cache helmet_url (noon + 1) d).
Proof.
  intros d.
  apply (clear_expired_keeps_answers (lib := RefLib.ref_lib) cache
           [(cache_file, noon)] d _ 1 helmet_url (noon + 1)).
  - vm_compute. reflexivity.
  - repeat constructor. cbn. lia.
Defined.

Lemma clear_expired_stops_at_odd_entry_witness :
  let d : gmap string string := {[ cache_file := odd_entry ]} in
  exists e,
    clear_expired (lib := RefLib.ref_lib) cache
      ([] ++ (cache_file, noon) :: [("data/firecrawl_cache/later.json", noon)]) d
      = (Exc e, d) /\
    exc_class e = TypeError /\
    d !! cache_file = Some odd_entry /\
    forall path, path ∉ ([] : list (string * Z)).*1 -> d !! path = d !! path.
Proof.
  intros d.
  apply (clear_expired_stops_at_odd_entry (lib := RefLib.ref_lib) cache []
           [("data/firecrawl_cache/later.json", noon)] cache_file noon odd_entry
           d d 0).
  - reflexivity.
  - vm_compute. reflexivity.
  - vm_compute. reflexivity.
Defined.

Lemma set_replaces_entry_witness :
  exists d1 d2 : gmap string string,
    set (lib := RefLib.ref_lib) cache helmet_url (JStr "old") noon ∅ = (Ok tt, d1) /\
    set (lib := RefLib.ref_lib) cache helmet_url (JStr "new") (noon + 5) d1 = (Ok tt, d2) /\
    set (lib := RefLib.ref_lib) cache helmet_url (JStr "new") (noon + 5) ∅ = (Ok tt, d2) /\
    size d2 = size d1 /\
    get (lib := RefLib.ref_lib) cache helmet_url (noon + 10) d2 = (Ok (JStr "new"), d2).
Proof.
  apply (set_replaces_entry (lib := RefLib.ref_lib) cache helmet_url
           (JStr "old") (JStr "new") noon (noon + 5) (noon + 10) ∅).
  - vm_compute. reflexivity.
  - vm_compute. reflexivity.
  - vm_compute. discriminate.
Defined.

Lemma set_touches_one_key_witness :
  let d1 := snd (set (lib := RefLib.ref_lib) cache helmet_url (JStr "page") noon ∅) in
  (_get_cache_key (lib := RefLib.ref_lib) gloves_url
     <> _get_cache_key (lib := RefLib.ref_lib) helmet_url ->
   fst (get (lib := RefLib.ref_lib) cache gloves_url (noon + 10) d1)
   = fst (get (lib := RefLib.ref_lib) cache gloves_url (noon + 10) ∅)) /\
  (_get_cache_key (lib := RefLib.ref_lib) gloves_url
     = _get_cache_key (lib := RefLib.ref_lib) helmet_url ->
   get (lib := RefLib.ref_lib) cache gloves_url (noon + 10) d1 = (Ok (JStr "page"), d1)).
Proof.
  apply (set_touches_one_key (lib := RefLib.ref_lib) cache helmet_url gloves_url
           (JStr "page") noon (noon + 10) ∅).
  - vm_compute. reflexivity.
  - vm_compute. reflexivity.
  - vm_compute. discriminate.
Defined.

Lemma stats_count_what_clear_all_removes_witness :
  let d : gmap string string := {[ cache_file := odd_entry ]} in
  exists stats (d' : gmap string string),
    get_cache_stats cache (glob cache d) d = (Ok stats, d) /\
    clear_all cache (glob cache d) d = (Ok (total_entries stats), d').
Proof.
  intros d.
  destruct (stats_count_what_clear_all_removes cache d (glob cache d) (glob cache d))
    as (stats & d' & H1 & H2 & _).
  - apply glob_listing.
  - apply glob_listing.
  - exists stats, d'. split; [exact H1 | exact H2].
Defined.

Lemma set_adds_at_most_one_entry_witness :
  let d1 := snd (set (lib := RefLib.ref_lib) cache helmet_url (JStr "page") noon ∅) in
  exists stats stats1,
    get_cache_stats cache (glob cache ∅) ∅ = (Ok stats, ∅) /\
    get_cache_stats cache (glob cache d1) d1 = (Ok stats1, d1) /\
    total_entries stats1 = S (total_entries stats).
Proof.
  exact (set_adds_at_most_one_entry (lib := RefLib.ref_lib) cache helmet_url
           (JStr "page") noon ∅ (glob cache ∅) (glob cache _)
           eq_refl (glob_listing cache ∅) (glob_listing cache _)).
Defined.

End CacheAdminWitnesses.

Section CrawlerTiming.
Import Crawler Spec Batch.
Context (env : Env).

Lemma wait_if_needed_clock self w :
  exists w1,
    run env (wait_if_needed self) w = (Ok tt, w1) /\
    last_request_time w + delay_between_requests self <= clock w1 /\
    last_request_time w1 = clock w1 /\
    clock w <= clock w1 /\
    scrape_calls w1 = scrape_calls w /\
    exists waits, trace w1 = trace w ++ waits /\ count_extract waits = 0%nat.
Proof.
  unfold wait_if_needed. cbn [trigger bind run handle].
  destruct (Qlt_le_dec (clock w - last_request_time w) (delay_between_requests self))
    as [Hlt|Hge].
  - eexists. split; [reflexivity|].
    cbn [clock last_request_time scrape_calls log elapse trace].
    destruct (Qlt_le_dec 0 _); (repeat split; try lra);
      eexists [_; _]; rewrite <- app_assoc; split; reflexivity.
  - eexists. split; [reflexivity|].
    cbn [clock last_request_time scrape_calls log elapse trace].
    (repeat split; try lra); eexists [_]; split; reflexivity.
Qed.

(** X14.  Fetches awaited one after the other keep their distance: the
    retry loop of the second [_scrape_with_firecrawl] starts no earlier than
    [delay_between_requests] after the moment the first call left the rate
    limiter, however many attempts and back-off sleeps the first call made. *)
Theorem crawls_keep_their_distance (self : BaseCrawler) (url1 url2 : string)
    (w : World) :
  exists wa w1 wb,
    run env (wait_if_needed (rate_limiter self)) w = (Ok tt, wa) /\
    run env (_scrape_with_firecrawl self url1) w
      = run env (retry_loop self url1 (seq 0 (max_retries self)) None) wa /\
    w1 = snd (run env (_scrape_with_firecrawl self url1) w) /\
    run env (wait_if_needed (rate_limiter self)) w1 = (Ok tt, wb) /\
    run env (_scrape_with_firecrawl self url2) w1
      = run env (retry_loop self url2 (seq 0 (max_retries self)) None) wb /\
    clock wa + delay_between_requests (rate_limiter self) <= clock wb.
Proof.
  destruct (wait_if_needed_clock (rate_limiter self) w) as (wa & Hwa & _ & Hla & _).
  assert (Hsplit : forall url w0 w0',
            run env (wait_if_needed (rate_limiter self)) w0 = (Ok tt, w0') ->
            run env (_scrape_with_firecrawl self url) w0
            = run env (retry_loop self url (seq 0 (max_retries self)) None) w0').
  { intros url w0 w0' H. unfold _scrape_with_firecrawl. rewrite run_bind, H.
    reflexivity. }
  set (w1 := snd (run env (_scrape_with_firecrawl self url1) w)).
  destruct (wait_if_needed_clock (rate_limiter self) w1) as (wb & Hwb & Hgap & _).
  exists wa, w1, wb. split; [exact Hwa|]. split; [apply Hsplit, Hwa|].
  split; [reflexivity|]. split; [exact Hwb|]. split; [apply Hsplit, Hwb|].
  assert (Hl1 : last_request_time w1 = clock wa).
  { unfold w1. rewrite (Hsplit _ _ _ Hwa).
    destruct (retry_loop_no_wait env self url1 (seq 0 (max_retries self)) None wa)
      as (post & _ & _ & ->). exact Hla. }
  rewrite <- Hl1. exact Hgap.
Qed.

Lemma retry_loop_first_success self url attempt post : forall pre last w r,
  (forall k, (k < length pre)%nat ->
     fetch_failed (scrape_url env url (scrape_calls w + k)) = true) ->
  scrape_url env url (scrape_calls w + length pre) = Ok (Some r) ->
  getattr (resp_success r) false = true ->
  exists w',
    run env (retry_loop self url (pre ++ attempt :: post) last) w
      = (Ok (scrape_dict r), w') /\
    trace w' = trace w ++ exhausted_trace env url (scrape_calls w) pre
                 ++ [EvScrape url] /\
    scrape_calls w' = S (scrape_calls w + length pre) /\
    last_request_time w' = last_request_time w.
Proof.
  induction pre as [|first rest IH]; intros last w r Hfail Hans Hok.
  - cbn [app retry_loop length] in *. rewrite Nat.add_0_r in Hans.
    rewrite run_bind, run_scrape_attempt, Hans, Hok.
    eexists. split; [reflexivity|]. cbn. rewrite Nat.add_0_r. auto.
  - cbn [app retry_loop]. rewrite run_bind, run_scrape_attempt.
    pose proof (Hfail 0%nat ltac:(cbn; lia)) as H0. rewrite Nat.add_0_r in H0.
    cbn [exhausted_trace failed_attempt_events].
    set (w1 := snd (handle env (ScrapeUrl url) w)).
    assert (Hw1 : trace w1 = trace w ++ [EvScrape url]) by reflexivity.
    assert (Hc1 : scrape_calls w1 = S (scrape_calls w)) by reflexivity.
    assert (Hl1 : last_request_time w1 = last_request_time w) by reflexivity.
    assert (Hrest : forall w2, scrape_calls w2 = S (scrape_calls w) ->
              (forall k, (k < length rest)%nat ->
               fetch_failed (scrape_url env url (scrape_calls w2 + k)) = true) /\
              scrape_url env url (scrape_calls w2 + length rest) = Ok (Some r)).
    { intros w2 E. rewrite E. split.
      - intros k Hk.
        replace (S (scrape_calls w) + k)%nat with (scrape_calls w + S k)%nat by lia.
        apply Hfail. cbn. lia.
      - rewrite <- Hans. f_equal. cbn. lia. }
    destruct (scrape_url env url (scrape_calls w)) as [[r0|]|e] eqn:Ans;
      cbn [fetch_failed] in H0.
    + apply negb_true_iff in H0. rewrite H0.
      destruct (Hrest w1 Hc1) as [Hf Ha].
      destruct (IH (Some (mkExc Exception (scrape_error_msg (Some r0)))) w1 r Hf Ha Hok)
        as (w' & Hrun & Htr & Hn & Hl).
      exists w'. rewrite Hrun, Htr, Hn, Hl, Hw1, Hc1, Hl1, <- !app_assoc.
      cbn [app length]. repeat split. lia.
    + destruct (Hrest w1 Hc1) as [Hf Ha].
      destruct (IH (Some (mkExc Exception (scrape_error_msg None))) w1 r Hf Ha Hok)
        as (w' & Hrun & Htr & Hn & Hl).
      exists w'. rewrite Hrun, Htr, Hn, Hl, Hw1, Hc1, Hl1, <- !app_assoc.
      cbn [app length]. repeat split. lia.
    + rewrite H0.
      set (w2 := elapse (backoff first) (log (EvSleep (backoff first)) w1)).
      assert (Hw2 : trace w2 = trace w ++ [EvScrape url; EvSleep (backoff first)]).
      { unfold w2. cbn [elapse log trace]. rewrite Hw1, <- app_assoc. reflexivity. }
      assert (Hc2 : scrape_calls w2 = S (scrape_calls w)) by reflexivity.
      assert (Hl2 : last_request_time w2 = last_request_time w) by reflexivity.
      destruct (Hrest w2 Hc2) as [Hf Ha].
      destruct (IH (Some e) w2 r Hf Ha Hok) as (w' & Hrun & Htr & Hn & Hl).
      exists w'. rewrite Hrun, Htr, Hn, Hl, Hw2, Hc2, Hl2, <- !app_assoc.
      cbn [app length]. repeat split. lia.
Qed.

(** X15.  [_scrape_with_firecrawl] stops at the first successful attempt:
    when the attempts before the [k]-th fail and the [k]-th answer is marked
    successful ([k < max_retries]), it returns the dictionary built from that
    answer after exactly [k + 1] calls of the service, having slept only after
    the failed attempts that raised. *)
Theorem scrape_returns_first_success (self : BaseCrawler) (url : string)
    (w : World) (k : nat) (r : ScrapeResponse)
    (Hattempt : (k < max_retries self)%nat)
    (Hfailed : forall j, (j < k)%nat ->
       fetch_failed (scrape_url env url (scrape_calls w + j)) = true)
    (Hanswer : scrape_url env url (scrape_calls w + k) = Ok (Some r))
    (Hsuccess : getattr (resp_success r) false = true) :
  exists w1 w',
    run env (wait_if_needed (rate_limiter self)) w = (Ok tt, w1) /\
    run env (_scrape_with_firecrawl self url) w = (Ok (scrape_dict r), w') /\
    trace w' = trace w1 ++ exhausted_trace env url (scrape_calls w) (seq 0 k)
                 ++ [EvScrape url] /\
    scrape_calls w' = S (scrape_calls w + k).
Proof.
  destruct (wait_if_needed_clock (rate_limiter self) w)
    as (w1 & Hw1 & _ & _ & _ & Hc & _).
  assert (Hseq : seq 0 (max_retries self)
                 = seq 0 k ++ k :: seq (S k) (max_retries self - S k)).
  { replace (max_retries self) with (k + S (max_retries self - S k))%nat at 1 by lia.
    rewrite seq_app. reflexivity. }
  destruct (retry_loop_first_success self url k (seq (S k) (max_retries self - S k))
              (seq 0 k) None w1 r) as (w' & Hrun & Htr & Hn & _).
  - rewrite length_seq, Hc. exact Hfailed.
  - rewrite length_seq, Hc. exact Hanswer.
  - exact Hsuccess.
  - exists w1, w'. split; [exact Hw1|].
    unfold _scrape_with_firecrawl. rewrite run_bind, Hw1, Hseq, Hrun.
    split; [reflexivity|]. rewrite Htr, Hn, length_seq, Hc. auto.
Qed.


Lemma count_extract_app a b :
  count_extract (a ++ b) = (count_extract a + count_extract b)%nat.
Proof. unfold count_extract. rewrite List.filter_app, length_app. reflexivity. Qed.

Lemma retry_loop_budget self url : forall attempts last w,
  exists post,
    let w' := snd (run env (retry_loop self url attempts last) w) in
    trace w' = trace w ++ post /\
    count_extract post = 0%nat /\
    (scrape_calls w <= scrape_calls w')%nat /\
    (scrape_calls w' <= scrape_calls w + length attempts)%nat /\
    (attempts <> [] -> (scrape_calls w < scrape_calls w')%nat).
Proof.
  induction attempts as [|attempt rest IH]; intros last w.
  - exists []. cbn. rewrite app_nil_r. repeat split; try lia. congruence.
  - cbn [retry_loop]. rewrite run_bind, run_scrape_attempt.
    set (w1 := snd (handle env (ScrapeUrl url) w)).
    assert (Hw1 : trace w1 = trace w ++ [EvScrape url]) by reflexivity.
    assert (Hc1 : scrape_calls w1 = S (scrape_calls w)) by reflexivity.
    destruct (scrape_url env url (scrape_calls w)) as [[r|]|e].
    + destruct (getattr (resp_success r) false).
      * exists [EvScrape url]. cbn. repeat split; lia.
      * destruct (IH (Some (mkExc Exception (scrape_error_msg (Some r)))) w1)
          as (post & Htr & Hx & Hlo & Hhi & _).
        exists (EvScrape url :: post). cbv zeta in *.
        rewrite Htr, Hw1, <- app_assoc. rewrite Hc1 in Hlo, Hhi.
        cbn [length]. repeat split; auto; lia.
    + destruct (IH (Some (mkExc Exception (scrape_error_msg None))) w1)
        as (post & Htr & Hx & Hlo & Hhi & _).
      exists (EvScrape url :: post). cbv zeta in *.
      rewrite Htr, Hw1, <- app_assoc. rewrite Hc1 in Hlo, Hhi.
      cbn [length]. repeat split; auto; lia.
    + destruct (isinstance e [Exception]).
      * set (w2 := elapse (backoff attempt) (log (EvSleep (backoff attempt)) w1)).
        assert (Hc2 : scrape_calls w2 = S (scrape_calls w)) by reflexivity.
        destruct (IH (Some e) w2) as (post & Htr & Hx & Hlo & Hhi & _).
        exists (EvScrape url :: EvSleep (backoff attempt) :: post). cbv zeta in *.
        rewrite Htr. unfold w2 at 1. cbn [elapse log trace].
        rewrite Hw1, <- !app_assoc. rewrite Hc2 in Hlo, Hhi.
        cbn [length]. repeat split; auto; lia.
      * exists [EvScrape url]. cbn. repeat split; lia.
Qed.

(** X16.  The calls one [crawl_product] makes: the scraping service is
    called at least once (unless [max_retries] is 0) and at most [max_retries]
    times; the extraction method is called once when the fetch succeeded and
    not at all when it failed, always after the last fetch; nothing is fetched
    again after an extraction or validation failure. *)
Theorem crawl_product_call_budget (self : BaseCrawler) (url : string) (w : World) :
  let fetched := run env (_scrape_with_firecrawl self url) w in
  let w' := snd (run env (crawl_product self url) w) in
  (scrape_calls w <= scrape_calls w')%nat /\
  (scrape_calls w' <= scrape_calls w + max_retries self)%nat /\
  (max_retries self <> 0%nat -> (scrape_calls w < scrape_calls w')%nat) /\
  scrape_calls w' = scrape_calls (snd fetched) /\
  exists fetching,
    trace (snd fetched) = trace w ++ fetching /\
    count_extract fetching = 0%nat /\
    trace w' = trace (snd fetched) ++ match fst fetched with
                                      | Ok _ => [EvExtract url]
                                      | Exc _ => []
                                      end.
Proof.
  cbv zeta.
  assert (Hcrawl : snd (run env (crawl_product self url) w) =
                   match run env (_scrape_with_firecrawl self url) w with
                   | (Exc _, w1) => w1
                   | (Ok _, w1) => log (EvExtract url) w1
                   end).
  { rewrite run_crawl_product.
    destruct (run env (_scrape_with_firecrawl self url) w) as [[payload|e] w1];
      [|reflexivity].
    destruct (extract_product_data env url payload) as [item|e]; reflexivity. }
  rewrite Hcrawl. clear Hcrawl.
  destruct (wait_if_needed_clock (rate_limiter self) w)
    as (w1 & Hw1 & _ & _ & _ & Hc1 & waits & Htr1 & Hwaits).
  assert (Hrun : run env (_scrape_with_firecrawl self url) w
                 = run env (retry_loop self url (seq 0 (max_retries self)) None) w1).
  { unfold _scrape_with_firecrawl. rewrite run_bind, Hw1. reflexivity. }
  rewrite Hrun.
  destruct (retry_loop_budget self url (seq 0 (max_retries self)) None w1)
    as (post & Htr & Hx & Hlo & Hhi & Hpos).
  cbv zeta in *. rewrite length_seq in Hhi. rewrite Hc1 in Hlo, Hhi, Hpos.
  assert (Hfetching : count_extract (waits ++ post) = 0%nat).
  { rewrite count_extract_app, Hx, Hwaits. reflexivity. }
  assert (Hpos' : max_retries self <> 0%nat ->
                  (scrape_calls w < scrape_calls
                     (snd (run env (retry_loop self url (seq 0 (max_retries self)) None) w1)))%nat).
  { intros Hm. apply Hpos. destruct (max_retries self); [congruence | discriminate]. }
  destruct (run env (retry_loop self url (seq 0 (max_retries self)) None) w1)
    as [[payload|e] w2] eqn:E; cbn [fst snd] in *.
  - cbn [snd log scrape_calls trace].
    (repeat split; auto);
      exists (waits ++ post);
      rewrite Htr, Htr1, <- !app_assoc; auto.
  - repeat split; auto.
    exists (waits ++ post).
    rewrite Htr, Htr1, <- !app_assoc, app_nil_r; auto.
Qed.

End CrawlerTiming.

Section CrawlerWitnesses.
Import Crawler Spec Samples.

(** The first call times out and is followed by a sleep of two seconds;
    the second call is answered. *)
Lemma scrape_returns_first_success_witness :
  exists w1 w',
    run flaky (wait_if_needed (rate_limiter xlmoto)) idle = (Ok tt, w1) /\
    run flaky (_scrape_with_firecrawl xlmoto helmet_url) idle
      = (Ok (scrape_dict (page "Raider Evo Helmet")), w') /\
    trace w' = trace w1 ++ exhausted_trace flaky helmet_url (scrape_calls idle) (seq 0 1)
                 ++ [EvScrape helmet_url] /\
    scrape_calls w' = S (scrape_calls idle + 1).
Proof.
  apply (scrape_returns_first_success flaky xlmoto helmet_url idle 1
           (page "Raider Evo Helmet")).
  - vm_compute. lia.
  - intros j Hj. assert (j = 0%nat) as -> by lia. reflexivity.
  - reflexivity.
  - reflexivity.
Defined.

(** The run of that example, event by event. *)
Example flaky_fetch_run :
  run flaky (_scrape_with_firecrawl xlmoto helmet_url) idle =
  (Ok (scrape_dict (page "Raider Evo Helmet")),
   {| clock := 12;
      last_request_time := 10;
      scrape_calls := 2;
      trace := [EvSetLastRequestTime 10;
                EvScrape helmet_url; EvSleep 2; EvScrape helmet_url] |}).
Proof. vm_compute. reflexivity. Qed.

End CrawlerWitnesses.

Section Ceiling.
Import Crawler Spec Batch.
Context (env : Env) (self : BaseCrawler).

Lemma settle_balanced mc n i st t r :
  tasks st !! i = Some t ->
  (0 <= semaphore st)%Z ->
  (semaphore st + Z.of_nat (in_flight st) + 1 = mc + Z.of_nat (holder t))%Z ->
  length (tasks st) = n ->
  balanced mc n (settle i st r).
Proof.
  intros Ht H0 Hsum Hlen. unfold balanced, in_flight in *.
  destruct r as [[o|seconds k] w]; cbn [settle semaphore tasks].
  - pose proof (sum_list_fmap_insert holder _ i _ (Done o) Ht) as Hh.
    cbn [holder] in Hh. rewrite length_insert. split; [lia|]. split; [lia|exact Hlen].
  - pose proof (sum_list_fmap_insert holder _ i _
                  (Suspended (clock w + seconds) k) Ht) as Hh.
    cbn [holder] in Hh. rewrite length_insert.
    assert (holder t <= 1)%nat by (destruct t; cbn; lia).
    split; [|split; [lia|exact Hlen]].
    destruct t; cbn [holder] in *; lia.
Qed.


Lemma resume_balanced mc n i st :
  balanced mc n st -> balanced mc n (resume env self i st).
Proof.
  intros (H0 & Hsum & Hlen). unfold resume.
  destruct (tasks st !! i) as [[url|wake k|o]|] eqn:Ht; try (split; [|split]; assumption).
  - destruct (0 <? semaphore st)%Z eqn:Hs; [|split; [|split]; assumption].
    apply Z.ltb_lt in Hs.
    apply (settle_balanced mc n i _ (Pending url));
      unfold in_flight in *; cbn [tasks semaphore holder]; auto; lia.
  - apply (settle_balanced mc n i _ (Suspended wake k));
      unfold in_flight in *; cbn [tasks semaphore holder]; auto; lia.
Qed.

Lemma after_turns_balanced mc n picks : forall st,
  balanced mc n st -> balanced mc n (after_turns env self picks st).
Proof.
  induction picks as [|i picks IH]; intros st H; [exact H|].
  cbn [after_turns fold_left]. apply IH, resume_balanced, H.
Qed.

Lemma started_balanced urls mc w :
  (0 <= mc)%Z -> balanced mc (length urls) (started urls mc w).
Proof.
  intros H. unfold balanced, started, in_flight. cbn [semaphore tasks].
  rewrite length_map. split; [exact H|]. split; [|reflexivity].
  assert (sum_list (holder <$> map Pending urls) = 0%nat); [|lia].
  induction urls as [|u urls IH]; [reflexivity|]. cbn. exact IH.
Qed.

(** X17.  The concurrency ceiling of [crawl_multiple]: whichever tasks the
    event loop runs in whichever order, the number of crawls inside the
    semaphore never exceeds [max_concurrent]; it is [max_concurrent] minus the
    semaphore's counter, and at the ceiling a task that has not started stays
    where it is. *)
Theorem concurrency_ceiling (urls : list string) (max_concurrent : Z)
    (picks : list nat) (w : World)
    (Hconcurrent : (0 <= max_concurrent)%Z) :
  let st := after_turns env self picks (started urls max_concurrent w) in
  (Z.of_nat (in_flight st) <= max_concurrent)%Z /\
  (Z.of_nat (in_flight st) = max_concurrent - semaphore st)%Z /\
  length (tasks st) = length urls /\
  forall i url,
    tasks st !! i = Some (Pending url) ->
    Z.of_nat (in_flight st) = max_concurrent ->
    resume env self i st = st.
Proof.
  intros st.
  destruct (after_turns_balanced max_concurrent (length urls) picks
              (started urls max_concurrent w)
              (started_balanced urls max_concurrent w Hconcurrent))
    as (H0 & Hsum & Hlen).
  fold st in H0, Hsum, Hlen.
  split; [lia|]. split; [lia|]. split; [exact Hlen|].
  intros i url Hi Hfull. unfold resume. rewrite Hi.
  destruct (0 <? semaphore st)%Z eqn:Hs; [|reflexivity].
  apply Z.ltb_lt in Hs. lia.
Qed.

(** X18.  [crawl_multiple] with no slot: for a batch that is not empty, a
    negative [max_concurrent] raises [ValueError] before any crawl starts (the
    world is unchanged), and [max_concurrent = 0] leaves every task waiting
    for the semaphore for ever; no result list is returned. *)
Theorem crawl_multiple_without_slots (urls : list string) (max_concurrent : Z)
    (sched : nat -> nat) (fuel : nat) (w : World)
    (Hurls : urls <> [])
    (Hnone : (max_concurrent <= 0)%Z) :
  match crawl_multiple env self urls max_concurrent sched fuel w with
  | Completed (Exc e) w' =>
      (max_concurrent < 0)%Z /\ w' = w /\
      e = mkExc ValueError "Semaphore initial value must be >= 0"
  | Completed (Ok _) _ => False
  | Interrupted _ _ => False
  | Deadlock => max_concurrent = 0%Z
  | OutOfFuel => max_concurrent = 0%Z /\ fuel = 0%nat
  end.
Proof.
  unfold crawl_multiple.
  destruct (max_concurrent <? 0)%Z eqn:E.
  - apply Z.ltb_lt in E. auto.
  - apply Z.ltb_ge in E. assert (max_concurrent = 0%Z) as -> by lia.
    destruct urls as [|url rest]; [congruence|].
    set (st := {| world := w; semaphore := 0; tasks := map Pending (url :: rest) |}).
    assert (Hm : mapM outcome_of (tasks st) = None) by reflexivity.
    assert (Hrun : runnable st = []).
    { destruct (runnable st) as [|i l] eqn:Er; [reflexivity|].
      assert (Hi : In i (runnable st)) by (rewrite Er; left; reflexivity).
      apply runnable_spec in Hi. destruct Hi as (t & Ht & Hr).
      apply list_lookup_fmap_Some in Ht. destruct Ht as (u & -> & _).
      discriminate. }
    destruct fuel as [|fuel]; cbn [gather]; rewrite Hm, ?Hrun; auto.
Qed.

End Ceiling.

Section TextFacts.
Import Crawler Spec Text.
Local Open Scope string_scope.

Lemma split_lstrip s : split (lstrip s) = split s.
Proof.
  induction s as [|c r IH]; [reflexivity|].
  cbn [lstrip split]. destruct (is_space c) eqn:E; [exact IH|].
  cbn [split]. rewrite E. reflexivity.
Qed.

Lemma rstrip_empty_iff s : rstrip s = "" <-> all_space s = true.
Proof.
  induction s as [|c r IH]; [cbn; tauto|].
  cbn [rstrip all_space]. split.
  - destruct (rstrip r) eqn:E; [|discriminate].
    destruct (is_space c); [|discriminate]. intros _. apply IH. reflexivity.
  - intros H. apply andb_true_iff in H as [Hc Hr]. apply IH in Hr.
    rewrite Hr, Hc. reflexivity.
Qed.

Lemma split_all_space s : all_space s = true -> split s = [].
Proof.
  induction s as [|c r IH]; [reflexivity|].
  cbn [all_space split]. intros H. apply andb_true_iff in H as [-> Hr]. auto.
Qed.

Lemma all_space_not_word s : all_space s = true -> starts_word s = false.
Proof.
  destruct s as [|c r]; [reflexivity|]. cbn. intros H.
  apply andb_true_iff in H as [-> _]. reflexivity.
Qed.

Lemma starts_word_rstrip s : rstrip s <> "" -> starts_word (rstrip s) = starts_word s.
Proof.
  destruct s as [|c r]; [reflexivity|]. cbn [rstrip].
  destruct (rstrip r); [|reflexivity].
  destruct (is_space c) eqn:E; [congruence|]. reflexivity.
Qed.

Lemma split_rstrip s : split (rstrip s) = split s.
Proof.
  induction s as [|c r IH]; [reflexivity|].
  cbn [rstrip]. destruct (rstrip r) as [|c' r'] eqn:E.
  - apply rstrip_empty_iff in E.
    cbn [split]. rewrite (split_all_space r E), (all_space_not_word r E).
    destruct (is_space c) eqn:Ec; [reflexivity|]. cbn [split]. rewrite Ec. reflexivity.
  - cbn [split]. destruct (is_space c); [rewrite <- IH; reflexivity|].
    rewrite <- IH.
    assert (Hs : starts_word (String c' r') = starts_word r).
    { rewrite <- E. apply starts_word_rstrip. rewrite E. discriminate. }
    rewrite Hs. reflexivity.
Qed.

Lemma split_strip s : split (strip s) = split s.
Proof. unfold strip. rewrite split_rstrip. apply split_lstrip. Qed.

Lemma split_starts_word s :
  starts_word s = true -> exists word words, split s = word :: words.
Proof.
  destruct s as [|c r]; [discriminate|]. cbn [starts_word split].
  intros H. apply negb_true_iff in H. rewrite H.
  destruct (starts_word r); [destruct (split r)|]; eauto.
Qed.

Lemma join_cons c word words :
  join " " (String c word :: words) = String c (join " " (word :: words)).
Proof. cbn [join]. destruct words; reflexivity. Qed.

Lemma lstrip_word s : starts_word s = true -> lstrip s = s.
Proof.
  destruct s as [|c r]; [reflexivity|]. cbn. intros H.
  apply negb_true_iff in H. rewrite H. reflexivity.
Qed.

(** Joining the words of a single-spaced text gives the text back, less
    a leading blank. *)
Lemma join_split s : single_spaced s = true -> join " " (split s) = lstrip s.
Proof.
  induction s as [|c r IH]; [reflexivity|].
  cbn [single_spaced split lstrip]. intros H. apply andb_true_iff in H as [Hc Hr].
  specialize (IH Hr). destruct (is_space c) eqn:Ec; [exact IH|].
  destruct (starts_word r) eqn:Er.
  - rewrite (lstrip_word r Er) in IH.
    destruct (split_starts_word r Er) as (w & ws & Hs). rewrite Hs in *.
    rewrite join_cons. f_equal. exact IH.
  - destruct r as [|c' r']; [reflexivity|].
    cbn [starts_word] in Er. apply negb_false_iff in Er.
    cbn [single_spaced] in Hr. rewrite Er in Hr.
    apply andb_true_iff in Hr as [Hc' Hr']. apply andb_true_iff in Hc' as [Heq Hw].
    apply Ascii.eqb_eq in Heq. subst c'.
    cbn [lstrip] in IH. rewrite Er in IH. rewrite (lstrip_word r' Hw) in IH.
    cbn [split] in *. rewrite Er in *.
    destruct (split_starts_word r' Hw) as (w & ws & Hs). rewrite Hs in *.
    change (join " " (String c "" :: w :: ws))
      with (String c "" ++ " " ++ join " " (w :: ws)).
    rewrite IH. reflexivity.
Qed.

Lemma split_words s : Forall (fun word => is_word word = true) (split s).
Proof.
  induction s as [|c r IH]; [constructor|].
  cbn [split]. destruct (is_space c) eqn:Ec; [exact IH|].
  destruct (starts_word r).
  - destruct (split r) as [|w ws].
    + repeat constructor. cbn. rewrite Ec. reflexivity.
    + apply Forall_cons in IH as [Hw Hws]. constructor; [|exact Hws].
      unfold is_word in *. apply andb_true_iff in Hw as [_ Hw].
      cbn. rewrite Ec, Hw. reflexivity.
  - constructor; [|exact IH]. cbn. rewrite Ec. reflexivity.
Qed.

Lemma single_spaced_word_app word s :
  no_space word = true -> single_spaced (word ++ s) = single_spaced s.
Proof.
  induction word as [|c w IH]; [reflexivity|].
  cbn [no_space]. intros H. apply andb_true_iff in H as [Hc Hw].
  apply negb_true_iff in Hc. rewrite append_cons. cbn [single_spaced].
  rewrite Hc. cbn. auto.
Qed.

Lemma starts_word_app word s : is_word word = true -> starts_word (word ++ s) = true.
Proof.
  destruct word as [|c w]; [discriminate|]. unfold is_word. cbn.
  intros H. apply andb_true_iff in H as [H _]. exact H.
Qed.

Lemma starts_word_word word : is_word word = true -> starts_word word = true.
Proof.
  destruct word as [|c w]; [discriminate|]. unfold is_word. cbn.
  intros H. apply andb_true_iff in H as [H _]. exact H.
Qed.

Lemma single_spaced_word word : no_space word = true -> single_spaced word = true.
Proof.
  induction word as [|c w IH]; [reflexivity|].
  cbn [no_space single_spaced]. intros H. apply andb_true_iff in H as [Hc Hw].
  apply negb_true_iff in Hc. rewrite Hc. cbn. auto.
Qed.

Lemma join_tidy words :
  Forall (fun word => is_word word = true) words -> tidy (join " " words).
Proof.
  induction 1 as [|w ws Hw Hws IH]; [split; [left|]; reflexivity|].
  assert (Hn : no_space w = true)
    by (unfold is_word in Hw; apply andb_true_iff in Hw; tauto).
  cbn [join]. destruct ws as [|w' ws'].
  - split; [right; apply starts_word_word, Hw | apply single_spaced_word, Hn].
  - destruct IH as [Hstart Hsingle]. split.
    + right. apply starts_word_app, Hw.
    + rewrite single_spaced_word_app by exact Hn.
      change (" " ++ join " " (w' :: ws')) with (String " " (join " " (w' :: ws'))).
      cbn [single_spaced]. rewrite Hsingle.
      destruct Hstart as [He|Hs].
      * exfalso. apply Forall_cons in Hws as [Hw' _].
        pose proof (starts_word_app w' (match ws' with
                                         | [] => ""
                                         | _ :: _ => " " ++ join " " ws'
                                         end) Hw') as Hx.
        cbn [join] in He. destruct ws'.
        -- subst w'. discriminate.
        -- rewrite He in Hx. discriminate.
      * rewrite Hs. reflexivity.
Qed.


Lemma replace_single_spaced old s :
  single_spaced s = true -> is_space old = true -> old <> " "%char ->
  replace old " " s = s.
Proof.
  intros Hs Hold Hne. induction s as [|c r IH]; [reflexivity|].
  cbn [single_spaced] in Hs. apply andb_true_iff in Hs as [Hc Hr].
  cbn [replace]. destruct (Ascii.eqb c old) eqn:E.
  - apply Ascii.eqb_eq in E. subst c. rewrite Hold in Hc.
    apply andb_true_iff in Hc as [Hc _]. apply Ascii.eqb_eq in Hc. contradiction.
  - rewrite (IH Hr). reflexivity.
Qed.

Lemma rstrip_single_spaced s : single_spaced s = true -> rstrip s = s.
Proof.
  induction s as [|c r IH]; [reflexivity|].
  cbn [single_spaced rstrip]. intros H. apply andb_true_iff in H as [Hc Hr].
  rewrite (IH Hr). destruct r as [|c' r']; [|reflexivity].
  destruct (is_space c); [|reflexivity].
  cbn in Hc. rewrite andb_false_r in Hc. discriminate.
Qed.

Lemma strip_tidy s : tidy s -> strip s = s.
Proof.
  intros [[->|Hs] Hsingle]; [reflexivity|].
  unfold strip. rewrite (lstrip_word s Hs). apply rstrip_single_spaced, Hsingle.
Qed.

(** The replacements and the second [strip] find nothing left to do. *)
Lemma sanitize_join text : _sanitize_text text = join " " (split text).
Proof.
  unfold _sanitize_text. destruct text as [|c r]; [reflexivity|].
  cbn [nonempty negb]. rewrite split_strip.
  pose proof (join_tidy _ (split_words (String c r))) as Ht.
  assert (Hrep : forall old, is_space old = true -> old <> " "%char ->
            replace old " " (join " " (split (String c r)))
            = join " " (split (String c r))).
  { intros old H1 H2. apply replace_single_spaced; [apply Ht | exact H1 | exact H2]. }
  rewrite (Hrep newline), (Hrep tab), (Hrep carriage_return);
    try reflexivity; try (intros H; vm_compute in H; discriminate H).
  apply strip_tidy, Ht.
Qed.

Lemma split_word_app word s :
  is_word word = true ->
  split (word ++ String " " s) = word :: split s.
Proof.
  induction word as [|c w IH]; [discriminate|].
  unfold is_word. cbn [nonempty no_space andb]. intros H.
  apply andb_true_iff in H as [Hc Hw]. apply negb_true_iff in Hc.
  rewrite append_cons. cbn [split]. rewrite Hc.
  destruct w as [|c' w'].
  - cbn. reflexivity.
  - rewrite IH by (unfold is_word; cbn [nonempty andb]; exact Hw).
    cbn [no_space] in Hw. apply andb_true_iff in Hw as [Hc' _].
    rewrite append_cons. cbn [starts_word]. rewrite Hc'. reflexivity.
Qed.

Lemma split_word word : is_word word = true -> split word = [word].
Proof.
  induction word as [|c w IH]; [discriminate|].
  unfold is_word. cbn [nonempty no_space andb]. intros H.
  apply andb_true_iff in H as [Hc Hw]. apply negb_true_iff in Hc.
  cbn [split]. rewrite Hc.
  destruct w as [|c' w']; [reflexivity|].
  rewrite IH by (unfold is_word; cbn [nonempty andb]; exact Hw).
  cbn [no_space] in Hw. apply andb_true_iff in Hw as [Hc' _].
  cbn [starts_word]. rewrite Hc'. reflexivity.
Qed.

Lemma split_join words :
  Forall (fun word => is_word word = true) words -> split (join " " words) = words.
Proof.
  induction 1 as [|w ws Hw Hws IH]; [reflexivity|].
  cbn [join]. destruct ws as [|w' ws']; [apply split_word, Hw|].
  change (w ++ " " ++ join " " (w' :: ws'))
    with (w ++ String " " (join " " (w' :: ws'))).
  rewrite split_word_app by exact Hw. rewrite IH. reflexivity.
Qed.

Lemma split_nil s : split s = [] -> all_space s = true.
Proof.
  induction s as [|c r IH]; [reflexivity|].
  cbn [split all_space]. destruct (is_space c); [exact IH|].
  destruct (starts_word r); [destruct (split r)|]; discriminate.
Qed.

Lemma tidy_iff_fixed text : tidy text <-> join " " (split text) = text.
Proof.
  split.
  - intros [Hstart Hsingle]. rewrite (join_split text Hsingle).
    destruct Hstart as [->|Hs]; [reflexivity | apply lstrip_word, Hs].
  - intros <-. apply join_tidy, split_words.
Qed.

Lemma sanitize_text_normal_form_aux text :
  tidy (_sanitize_text text) /\
  (_sanitize_text text = "" <-> all_space text = true).
Proof.
  rewrite sanitize_join. split; [apply join_tidy, split_words|]. split.
  - intros H. apply split_nil. rewrite <- (split_join _ (split_words text)), H.
    reflexivity.
  - intros H. rewrite (split_all_space text H). reflexivity.
Qed.

(** X19.  [_sanitize_text] returns its argument's words joined by single
    blanks: the result has no leading or trailing white space and no white
    space other than single blanks between words, it has the same words as the
    argument, and it is empty exactly when the argument holds nothing but
    white space. *)
Theorem sanitize_text_normal_form (text : string) :
  tidy (_sanitize_text text) /\
  split (_sanitize_text text) = split text /\
  (_sanitize_text text = "" <-> all_space text = true).
Proof.
  rewrite sanitize_join.
  split; [apply join_tidy, split_words|]. split; [apply split_join, split_words|].
  split.
  - intros H. apply split_nil. rewrite <- (split_join _ (split_words text)), H.
    reflexivity.
  - intros H. rewrite (split_all_space text H). reflexivity.
Qed.

(** X20.  [_sanitize_text] leaves exactly the tidy texts unchanged, and
    applying it twice is the same as applying it once. *)
Theorem sanitize_text_fixed_points (text : string) :
  (_sanitize_text text = text <-> tidy text) /\
  _sanitize_text (_sanitize_text text) = _sanitize_text text.
Proof.
  split.
  - rewrite sanitize_join. symmetry. apply tidy_iff_fixed.
  - rewrite (sanitize_join (_sanitize_text text)).
    apply tidy_iff_fixed. rewrite sanitize_join. apply join_tidy, split_words.
Qed.


Lemma tidy_all_space s : tidy s -> (all_space s = true <-> s = "").
Proof.
  intros [[->|Hs] _]; [tauto|]. split.
  - intros H. apply all_space_not_word in H. congruence.
  - intros ->. reflexivity.
Qed.

(** X21.  How [_validate_product_data] ends.  It returns [True] exactly
    when the name has a character that is not white space, the URL is not
    empty, and the price, if there is one, is a number that is not negative.
    It returns [False] exactly when the name is white space only, the URL is
    empty, or the price is negative.  It raises exactly when name and URL pass
    and the price is a NaN, and what it raises then is [InvalidOperation].
    For a product named by [_sanitize_text title] the condition on the name is
    that [title] has a character that is not white space. *)
Theorem validate_accepts_iff (item : Models.Product) :
  let accepted :=
    Models.url item <> "" /\
    forall price, Models.price item = Some price ->
      match price with
      | Models.Finite value => 0 <= value
      | Models.Infinity negative => negative = false
      | Models.NaN => False
      end in
  (_validate_product_data item = Ok true <->
   all_space (Models.name item) = false /\ accepted) /\
  (_validate_product_data item = Ok false <->
   all_space (Models.name item) = true \/
   Models.url item = "" \/
   exists price, Models.price item = Some price /\
     match price with
     | Models.Finite value => value < 0
     | Models.Infinity negative => negative = true
     | Models.NaN => False
     end) /\
  (_validate_product_data item
     = Exc (mkExc InvalidOperation "[<class 'decimal.InvalidOperation'>]") <->
   all_space (Models.name item) = false /\
   Models.url item <> "" /\
   Models.price item = Some Models.NaN) /\
  (forall e, _validate_product_data item = Exc e ->
             e = mkExc InvalidOperation "[<class 'decimal.InvalidOperation'>]") /\
  forall title,
    Models.name item = _sanitize_text title ->
    (_validate_product_data item = Ok true <->
     all_space title = false /\ accepted).
Proof.
  intros accepted.
  pose proof (validate_cases item) as Hcases.
  assert (Hfalse : _validate_product_data item = Ok false <-> invalid_product item)
    by apply validate_false_iff.
  assert (Htrue : _validate_product_data item = Ok true <->
            all_space (Models.name item) = false /\ accepted).
  { split.
    - intros E. rewrite E in Hcases. destruct Hcases as (Hn & Hu & Hp).
      split; [exact Hn|]. split; [exact Hu|].
      intros price Hprice. destruct (Hp price Hprice) as [Hnan Hneg].
      destruct price as [value|sign|]; cbn [negative] in Hneg.
      + destruct (Qlt_le_dec value 0); [contradiction | assumption].
      + destruct sign; [exfalso; apply Hneg; reflexivity | reflexivity].
      + congruence.
    - intros (Hn & Hu & Hp).
      destruct (_validate_product_data item) as [[|]|e]; [reflexivity| |].
      + exfalso. destruct Hcases as [Hi|[Hi|(price & Hi & Hneg)]];
          [congruence | contradiction |].
        specialize (Hp price Hi). destruct price as [value|sign|];
          cbn [negative] in Hneg; [lra | congruence | contradiction].
      + exfalso. destruct Hcases as (_ & _ & Hnan & _).
        exact (Hp _ Hnan). }
  assert (Hraise : forall e, _validate_product_data item = Exc e ->
            e = mkExc InvalidOperation "[<class 'decimal.InvalidOperation'>]").
  { intros e E. rewrite E in Hcases. apply Hcases. }
  split; [exact Htrue|]. split; [exact Hfalse|]. split; [|split; [exact Hraise|]].
  - split.
    + intros E. rewrite E in Hcases. destruct Hcases as (Hn & Hu & Hp & _). auto.
    + intros (Hn & Hu & Hp).
      destruct (_validate_product_data item) as [[|]|e] eqn:E.
      * exfalso. destruct Hcases as (_ & _ & Hq).
        destruct (Hq _ Hp) as [Hnan _]. congruence.
      * exfalso. destruct Hcases as [Hi|[Hi|(price & Hi & Hneg)]];
          [congruence | contradiction |].
        rewrite Hp in Hi. injection Hi as <-. exact Hneg.
      * rewrite (Hraise e eq_refl). reflexivity.
  - intros title Hname. rewrite Htrue, Hname.
    destruct (sanitize_text_normal_form_aux title) as (Ht & He).
    assert (Hiff : all_space (_sanitize_text title) = true <-> all_space title = true).
    { rewrite (tidy_all_space _ Ht). exact He. }
    destruct (all_space (_sanitize_text title)), (all_space title);
      try tauto; destruct Hiff as [H1 H2]; try (specialize (H1 eq_refl));
      try (specialize (H2 eq_refl)); try discriminate.
Qed.

End TextFacts.

Section AISearchFacts.
Import Cache AISearch.
Context {lib : PyLib}.
Local Open Scope string_scope.

Lemma assoc_dict_set_eq key value members :
  assoc key (dict_set key value members) = Some value.
Proof.
  induction members as [|[k v] rest IH]; cbn [dict_set assoc key_is].
  - rewrite String.eqb_refl. reflexivity.
  - destruct (key_is k key) eqn:E; cbn [assoc]; rewrite E; auto.
Qed.

Lemma assoc_dict_set_ne key other value members :
  other <> key -> assoc other (dict_set key value members) = assoc other members.
Proof.
  intros Hne. induction members as [|[k v] rest IH]; cbn [dict_set assoc key_is].
  - destruct (String.eqb key other) eqn:E; [|reflexivity].
    apply String.eqb_eq in E. congruence.
  - destruct (key_is k key) eqn:E; cbn [assoc].
    + destruct k as [s| | | |]; cbn [key_is] in E |- *; try discriminate.
      apply String.eqb_eq in E. subst s.
      destruct (String.eqb key other) eqn:E'; [|reflexivity].
      apply String.eqb_eq in E'. congruence.
    + rewrite IH. reflexivity.
Qed.

Lemma require_field_present data field : is_Some (assoc field (require_field data field)).
Proof.
  unfold require_field. destruct (assoc field data) eqn:E; [rewrite E; eauto|].
  rewrite assoc_dict_set_eq. eauto.
Qed.

Lemma require_field_keeps data field key value :
  assoc key data = Some value -> assoc key (require_field data field) = Some value.
Proof.
  intros H. unfold require_field. destruct (assoc field data) eqn:E; [exact H|].
  rewrite assoc_dict_set_ne; [exact H|]. congruence.
Qed.

Lemma require_fields_keep fields : forall data key value,
  assoc key data = Some value ->
  assoc key (fold_left require_field fields data) = Some value.
Proof.
  induction fields as [|f fields IH]; intros data key value H; [exact H|].
  cbn [fold_left]. apply IH, require_field_keeps, H.
Qed.

Lemma require_fields_present fields : forall data field,
  In field fields -> is_Some (assoc field (fold_left require_field fields data)).
Proof.
  induction fields as [|f fields IH]; intros data field Hin; [destruct Hin|].
  cbn [fold_left]. destruct Hin as [->|Hin]; [|apply IH, Hin].
  destruct (require_field_present data field) as [v Hv].
  rewrite (require_fields_keep fields _ _ _ Hv). eauto.
Qed.

Lemma find_from_lacks c text : forall i, lacks c text = true -> find_from c text i = (-1)%Z.
Proof.
  induction text as [|a r IH]; intros i H; [reflexivity|].
  cbn [lacks find_from] in *. apply andb_true_iff in H as [Ha Hr].
  apply negb_true_iff in Ha. rewrite Ha. apply IH, Hr.
Qed.

Lemma rfind_from_lacks c text : forall i best,
  lacks c text = true -> rfind_from c text i best = best.
Proof.
  induction text as [|a r IH]; intros i best H; [reflexivity|].
  cbn [lacks rfind_from] in *. apply andb_true_iff in H as [Ha Hr].
  apply negb_true_iff in Ha. rewrite Ha. apply IH, Hr.
Qed.

(** The dictionary built from the members of a parsed object. *)
Lemma parsed_members members :
  let data := fold_left require_field ["search_terms"; "brand"; "product_type"] members in
  let data' := match assoc "search_terms" data with
               | Some (JArr _) => data
               | _ => dict_set "search_terms" (JArr []) data
               end in
  (exists items, assoc "search_terms" data' = Some (JArr items)) /\
  is_Some (assoc "brand" data') /\
  is_Some (assoc "product_type" data') /\
  forall key value,
    assoc key members = Some value ->
    (key = "search_terms" -> exists items, value = JArr items) ->
    assoc key data' = Some value.
Proof.
  intros data data'.
  assert (Hb : is_Some (assoc "brand" data))
    by (apply require_fields_present; cbn; auto).
  assert (Hp : is_Some (assoc "product_type" data))
    by (apply require_fields_present; cbn; auto).
  assert (Hk : forall key value, assoc key members = Some value ->
                                 assoc key data = Some value)
    by (intros; apply require_fields_keep; assumption).
  subst data'. destruct (assoc "search_terms" data) as [[| | | | |items| |]|] eqn:Es;
    try (rewrite assoc_dict_set_eq, !assoc_dict_set_ne by discriminate;
         split; [eauto|]; split; [exact Hb|]; split; [exact Hp|];
         intros key value Hm Hl;
         (destruct (String.eqb_spec key "search_terms") as [->|Hne];
          [destruct (Hl eq_refl) as [items' ->]; apply Hk in Hm; congruence
          |rewrite assoc_dict_set_ne by exact Hne; apply Hk, Hm])).
  rewrite Es. split; [eauto|]. split; [exact Hb|]. split; [exact Hp|].
  intros key value Hm _. apply Hk, Hm.
Qed.

(** X23.  [_parse_ai_response] returns either the empty dictionary or a
    dictionary that has [search_terms] bound to a list and has [brand] and
    [product_type]; it returns the empty dictionary when the reply has no
    opening or no closing brace; and the members of the parsed object are
    kept as they are, but for a [search_terms] that is not a list. *)
Theorem parse_ai_response_shape (response_text : string) :
  (_parse_ai_response response_text = JObj [] \/
   exists members,
     _parse_ai_response response_text = JObj members /\
     (exists items, assoc "search_terms" members = Some (JArr items)) /\
     is_Some (assoc "brand" members) /\
     is_Some (assoc "product_type" members)) /\
  (lacks "{" response_text = true \/ lacks "}" response_text = true ->
   _parse_ai_response response_text = JObj []) /\
  forall parsed,
    find "{" response_text <> (-1)%Z ->
    rfind "}" response_text <> (-1)%Z ->
    json_load (slice response_text (find "{" response_text)
                     (rfind "}" response_text + 1)) = Parsed (JObj parsed) ->
    exists members,
      _parse_ai_response response_text = JObj members /\
      forall key value,
        assoc key parsed = Some value ->
        (key = "search_terms" -> exists items, value = JArr items) ->
        assoc key members = Some value.
Proof.
  unfold _parse_ai_response. split; [|split].
  - destruct (_ || _); [left; reflexivity|].
    destruct (json_load _) as [[| | | | | | |members]| |]; try (left; reflexivity).
    right. eexists. split; [reflexivity|].
    pose proof (parsed_members members) as H. cbv zeta in H. tauto.
  - intros [H|H].
    + unfold find. rewrite (find_from_lacks _ _ _ H). reflexivity.
    + unfold rfind. rewrite (rfind_from_lacks _ _ _ _ H). cbn.
      rewrite orb_true_r. reflexivity.
  - intros parsed Hf Hr Hload.
    destruct (find "{" response_text =? -1)%Z eqn:E1; [apply Z.eqb_eq in E1; congruence|].
    destruct (rfind "}" response_text + 1 =? 0)%Z eqn:E2; [apply Z.eqb_eq in E2; lia|].
    cbn [orb]. rewrite Hload. eexists. split; [reflexivity|].
    pose proof (parsed_members parsed) as H. cbv zeta in H. apply H.
Qed.


Lemma find_from_prefix c prefix rest : forall i,
  lacks c prefix = true ->
  find_from c (prefix ++ String c rest) i = (i + Z.of_nat (String.length prefix))%Z.
Proof.
  induction prefix as [|a p IH]; intros i H.
  - change ("" ++ String c rest) with (String c rest). cbn [find_from].
    rewrite Ascii.eqb_refl. cbn. lia.
  - cbn [lacks] in H. apply andb_true_iff in H as [Ha Hp].
    apply negb_true_iff in Ha. rewrite append_cons. cbn [find_from String.length].
    rewrite Ha, IH by exact Hp. lia.
Qed.

Lemma rfind_from_suffix c before suffix : forall i best,
  lacks c suffix = true ->
  rfind_from c (before ++ String c suffix) i best
    = (i + Z.of_nat (String.length before))%Z.
Proof.
  induction before as [|a p IH]; intros i best H.
  - change ("" ++ String c suffix) with (String c suffix). cbn [rfind_from].
    rewrite Ascii.eqb_refl, rfind_from_lacks by exact H. cbn. lia.
  - rewrite append_cons. cbn [rfind_from String.length]. rewrite IH by exact H. lia.
Qed.

Lemma substring_skip prefix n text :
  substring (String.length prefix) n (prefix ++ text) = substring 0 n text.
Proof.
  induction prefix as [|a p IH]; [reflexivity|].
  rewrite append_cons. cbn [String.length substring]. exact IH.
Qed.

Lemma substring_take body rest :
  substring 0 (String.length body) (body ++ rest) = body.
Proof.
  induction body as [|a b IH]; [destruct rest; reflexivity|].
  rewrite append_cons. cbn [String.length substring]. rewrite IH. reflexivity.
Qed.

(** The braces found in a reply made of prose, an object and prose. *)
Lemma braces_found prefix middle suffix :
  lacks "{" prefix = true -> lacks "}" suffix = true ->
  let body := String "{" (middle ++ "}") in
  let text := prefix ++ body ++ suffix in
  find "{" text <> (-1)%Z /\ rfind "}" text <> (-1)%Z /\
  slice text (find "{" text) (rfind "}" text + 1) = body.
Proof.
  intros Hp Hs body text.
  assert (Hfind : find "{" text = Z.of_nat (String.length prefix)).
  { unfold find, text, body. rewrite append_cons.
    rewrite find_from_prefix by exact Hp. lia. }
  assert (Hrfind : rfind "}" text
                   = Z.of_nat (String.length prefix + S (String.length middle))).
  { unfold rfind, text, body. rewrite append_cons.
    change (String "{" ((middle ++ "}") ++ suffix))
      with (String "{" (middle ++ "}") ++ suffix).
    rewrite <- (append_assoc prefix).
    change (String "{" (middle ++ "}")) with (String "{" middle ++ "}").
    rewrite <- (append_assoc prefix), append_assoc.
    change ("}" ++ suffix) with (String "}" suffix).
    rewrite rfind_from_suffix by exact Hs.
    rewrite length_append. cbn [String.length]. lia. }
  rewrite Hfind, Hrfind. split; [lia|]. split; [lia|].
  unfold slice. rewrite Nat2Z.id.
  replace (Z.to_nat _) with (String.length body).
  - unfold text. rewrite substring_skip. apply substring_take.
  - unfold body. cbn [String.length]. rewrite length_append. cbn [String.length]. lia.
Qed.

(** X24.  [_parse_ai_response] reads an object out of the prose around it:
    when the text before the object has no opening brace and the text after
    it no closing brace, the text handed to [json.loads] is the object's, and
    the result is the one for the object alone. *)
Theorem parse_ai_response_skips_prose (prefix middle suffix : string)
    (Hprefix : lacks "{" prefix = true)
    (Hsuffix : lacks "}" suffix = true) :
  let body := String "{" (middle ++ "}") in
  _parse_ai_response (prefix ++ body ++ suffix) = _parse_ai_response body /\
  slice (prefix ++ body ++ suffix)
        (find "{" (prefix ++ body ++ suffix))
        (rfind "}" (prefix ++ body ++ suffix) + 1) = body.
Proof.
  intros body.
  destruct (braces_found prefix middle suffix Hprefix Hsuffix) as (Hf & Hr & Hs).
  destruct (braces_found "" middle "" eq_refl eq_refl) as (Hf' & Hr' & Hs').
  fold body in Hf, Hr, Hs, Hf', Hr', Hs'.
  change ("" ++ body ++ "") with (body ++ "") in Hf', Hr', Hs'.
  assert (Hnil : body ++ "" = body).
  { clear. induction body as [|c b IH]; [reflexivity|]. rewrite append_cons, IH. reflexivity. }
  rewrite Hnil in Hf', Hr', Hs'.
  split; [|exact Hs].
  unfold _parse_ai_response. rewrite Hs, Hs'.
  destruct (find "{" (prefix ++ body ++ suffix) =? -1)%Z eqn:E1;
    [apply Z.eqb_eq in E1; congruence|].
  destruct (rfind "}" (prefix ++ body ++ suffix) + 1 =? 0)%Z eqn:E2;
    [apply Z.eqb_eq in E2; lia|].
  destruct (find "{" body =? -1)%Z eqn:E3; [apply Z.eqb_eq in E3; congruence|].
  destruct (rfind "}" body + 1 =? 0)%Z eqn:E4; [apply Z.eqb_eq in E4; lia|].
  reflexivity.
Qed.

End AISearchFacts.

Section SharedWait.
Import Crawler Spec Batch.
Context (env : Env).

Lemma elapse_clock seconds w : clock w <= clock (elapse seconds w).
Proof.
  unfold elapse. cbn [clock]. destruct (Qlt_le_dec 0 seconds); lra.
Qed.

(** The clock does not run backwards during a turn. *)
Lemma advance_clock {A} (p : Prog A) : forall w,
  clock w <= clock (snd (advance env p w)).
Proof.
  induction p as [a|e|X op k IH]; intros w; try (cbn; lra).
  destruct op; cbn [advance handle snd]; try (cbn; lra);
    (eapply Qle_trans; [|apply IH]); try (cbn; lra).
  eapply Qle_trans; [|apply elapse_clock]. cbn. lra.
Qed.

(** A turn of a coroutine that never writes [last_request_time] leaves
    it as it was. *)
Lemma advance_never_stamps {A} (p : Prog A) : forall w,
  never_stamps p ->
  last_request_time (snd (advance env p w)) = last_request_time w.
Proof.
  induction p as [a|e|X op k IH]; intros w H; try reflexivity.
  destruct op; cbn [advance handle never_stamps] in *; try contradiction;
    try (rewrite IH by apply H; reflexivity).
  reflexivity.
Qed.

Lemma advance_calls {A} (p : Prog A) : forall w,
  (scrape_calls w <= scrape_calls (snd (advance env p w)))%nat.
Proof.
  induction p as [a|e|X op k IH]; intros w; try (cbn; lia).
  destruct op; cbn [advance handle]; try apply IH; try (cbn; lia).
  all: etrans; [|apply IH]; cbn; lia.
Qed.

Lemma advance_bind {A B} (p : Prog A) (f : A -> Prog B) : forall w,
  advance env (bind p f) w =
  match advance env p w with
  | (Finished (Ok a), w') => advance env (f a) w'
  | (Finished (Exc e), w') => (Finished (Exc e), w')
  | (Sleeping seconds k, w') => (Sleeping seconds (fun x => bind (k x) f), w')
  end.
Proof.
  induction p as [a|e|X op k IH]; intros w; try reflexivity.
  destruct op; cbn [advance bind handle]; try apply IH; reflexivity.
Qed.

Lemma advance_try {A} (p : Prog A) classes handler : forall w,
  advance env (try_except p classes handler) w =
  match advance env p w with
  | (Finished (Ok a), w') => (Finished (Ok a), w')
  | (Finished (Exc e), w') =>
      if isinstance e classes then advance env (handler e) w'
      else (Finished (Exc e), w')
  | (Sleeping seconds k, w') =>
      (Sleeping seconds (fun x => try_except (k x) classes handler), w')
  end.
Proof.
  induction p as [a|e|X op k IH]; intros w; try reflexivity.
  - cbn. destruct (isinstance e classes); reflexivity.
  - destruct op; cbn [advance try_except handle]; try apply IH; reflexivity.
Qed.


Lemma advance_reaches {A} (p : Prog A) : forall w,
  reaches_service p ->
  (scrape_calls w < scrape_calls (snd (advance env p w)))%nat.
Proof.
  induction p as [a|e|X op k IH]; intros w H; try contradiction.
  destruct op; cbn [advance handle reaches_service] in *; try contradiction.
  - apply IH, H.
  - apply IH, H.
  - eapply Nat.le_lt_trans; [|apply IH, H]. cbn. lia.
  - eapply Nat.lt_le_trans; [|apply advance_calls]. cbn. lia.
  - eapply Nat.le_lt_trans; [|apply IH, H]. cbn. lia.
Qed.

Lemma reaches_bind {A B} (p : Prog A) (f : A -> Prog B) :
  reaches_service p -> reaches_service (bind p f).
Proof.
  induction p as [a|e|X op k IH]; intros H; try contradiction.
  destruct op; cbn [bind reaches_service] in *; try contradiction; auto.
Qed.

Lemma reaches_try {A} (p : Prog A) classes handler :
  reaches_service p -> reaches_service (try_except p classes handler).
Proof.
  induction p as [a|e|X op k IH]; intros H; try contradiction.
  destruct op; cbn [try_except reaches_service] in *; try contradiction; auto.
Qed.

Lemma retry_loop_reaches self url attempt rest last :
  reaches_service (retry_loop self url (attempt :: rest) last).
Proof.
  cbn [retry_loop]. apply reaches_bind. unfold scrape_attempt.
  apply reaches_try, reaches_bind. exact I.
Qed.

Lemma never_stamps_bind {A B} (p : Prog A) (f : A -> Prog B) :
  never_stamps p -> (forall a, never_stamps (f a)) -> never_stamps (bind p f).
Proof.
  intros Hp Hf. induction p as [a|e|X op k IH]; cbn [bind never_stamps] in *; auto.
  destruct op; try contradiction; intros x; apply IH, Hp.
Qed.

Lemma never_stamps_try {A} (p : Prog A) classes (handler : PyExc -> Prog A) :
  never_stamps p -> (forall e, never_stamps (handler e)) ->
  never_stamps (try_except p classes handler).
Proof.
  intros Hp Hh. induction p as [a|e|X op k IH]; cbn [try_except never_stamps] in *;
    auto.
  - destruct (isinstance e classes); [apply Hh | exact I].
  - destruct op; try contradiction; intros x; apply IH, Hp.
Qed.

Lemma never_stamps_retry_loop self url : forall attempts last,
  never_stamps (retry_loop self url attempts last).
Proof.
  induction attempts as [|attempt rest IH]; intros last; cbn [retry_loop];
    [exact I|].
  apply never_stamps_bind.
  - unfold scrape_attempt. apply never_stamps_try.
    + unfold call. cbn [bind never_stamps]. intros [[r|]|e]; cbn [bind never_stamps];
        [destruct (getattr (resp_success r) false) | |]; exact I.
    + intros e. cbn. auto.
  - intros [value|e]; [exact I | apply IH].
Qed.

(** What is left of [crawl_product] once the rate limiter is passed. *)
Lemma never_stamps_crawl self url attempts :
  never_stamps
    (try_except
       (firecrawl_result <- retry_loop self url attempts None ;;
        product <- _extract_product_data url firecrawl_result ;;
        valid <- lift (_validate_product_data product) ;;
        if negb valid then Ret (validation_failure firecrawl_result)
        else Ret (extracted product firecrawl_result))
       [Exception]
       (fun e => Ret (failure (exc_str e)))).
Proof.
  apply never_stamps_try; [|intros e; exact I].
  apply never_stamps_bind; [apply never_stamps_retry_loop|].
  intros payload. unfold _extract_product_data, call. cbn [bind never_stamps].
  intros [item|e]; cbn [bind never_stamps]; [|exact I].
  destruct (_validate_product_data item) as [valid|e]; cbn [lift bind never_stamps];
    [|exact I].
  destruct (negb valid); exact I.
Qed.

(** A turn of a coroutine that stamps and fetches: the stamp is the
    reading of the clock at its start, and the service has been called. *)
Lemma advance_stamps {A} (p : Prog A) w :
  stamps_and_fetches p ->
  last_request_time (snd (advance env p w)) = clock w /\
  (scrape_calls w < scrape_calls (snd (advance env p w)))%nat /\
  clock w <= clock (snd (advance env p w)).
Proof.
  intros H. split; [|split; [|apply advance_clock]].
  - destruct p as [a|e|X op k]; try contradiction.
    destruct op; try contradiction. cbn [stamps_and_fetches] in H.
    specialize (H (clock w)). cbn [advance handle].
    destruct (k (clock w)) as [a|e|X' op' k']; try contradiction.
    destruct op'; try contradiction. destruct H as (-> & Hr & Hn).
    cbn [advance handle]. rewrite advance_never_stamps by exact Hn. reflexivity.
  - destruct p as [a|e|X op k]; try contradiction.
    destruct op; try contradiction. cbn [stamps_and_fetches] in H.
    specialize (H (clock w)). cbn [advance handle].
    destruct (k (clock w)) as [a|e|X' op' k']; try contradiction.
    destruct op'; try contradiction. destruct H as (-> & Hr & Hn).
    cbn [advance handle].
    eapply Nat.le_lt_trans; [|apply advance_reaches, Hr]. cbn. lia.
Qed.

(** A crawl that finds the limiter engaged stops in the limiter's sleep;
    when it goes on, it stamps the limiter and reaches the service in the
    same turn. *)
Lemma advance_engaged self url w :
  clock w - last_request_time w < delay_between_requests (rate_limiter self) ->
  max_retries self <> 0%nat ->
  let wait_time := delay_between_requests (rate_limiter self)
                   - (clock w - last_request_time w) in
  exists k,
    advance env (crawl_product self url) w
      = (Sleeping wait_time k, log (EvSleep wait_time) w) /\
    stamps_and_fetches (k tt).
Proof.
  intros Hlt Hretries wait_time.
  unfold crawl_product, crawl_steps, _scrape_with_firecrawl.
  rewrite advance_try, advance_bind, advance_bind.
  unfold wait_if_needed at 1. cbn [bind trigger advance handle].
  destruct (Qlt_le_dec _ _) as [_|Hge]; [|lra].
  cbn [bind trigger advance handle]. eexists. split; [reflexivity|].
  cbn [try_except bind stamps_and_fetches]. intros t.
  split; [reflexivity|]. split.
  - destruct (max_retries self) as [|m]; [congruence|].
    apply reaches_try, reaches_bind. cbn [seq]. apply retry_loop_reaches.
  - apply never_stamps_crawl.
Qed.


Lemma resume_pending self st i url :
  tasks st !! i = Some (Pending url) -> (0 < semaphore st)%Z ->
  resume env self i st
  = settle i {| world := world st; semaphore := semaphore st - 1; tasks := tasks st |}
           (advance env (crawl_product self url) (world st)).
Proof.
  intros Ht Hs. unfold resume. rewrite Ht.
  apply Z.ltb_lt in Hs. rewrite Hs. reflexivity.
Qed.

Lemma resume_suspended self st i wake k :
  tasks st !! i = Some (Suspended wake k) ->
  resume env self i st = settle i st (advance env (k tt) (woken wake (world st))).
Proof. intros Ht. unfold resume. rewrite Ht. reflexivity. Qed.

Lemma settle_world i st (r : Paused CrawlResult * World) :
  world (settle i st r) = snd r.
Proof. destruct r as [[o|s k] w]; reflexivity. Qed.

(** X25.  The rate limiter does not space out crawls that run
    concurrently.  With room for two tasks and the limiter engaged, both tasks
    read the same [last_request_time] before either writes it, and both sleep
    until the same instant, [last_request_time + delay].  The first task to
    wake stamps that instant and calls the scraping service, which blocks the
    loop for as long as the call takes.  The second task then stamps the
    moment at which the turn of the first ended and calls the service at once:
    what lies between the two calls is the time the first task's turn took,
    whatever [delay_between_requests] is. *)
Theorem concurrent_crawls_share_the_wait (self : BaseCrawler)
    (url0 url1 : string) (others : list string) (max_concurrent : Z) (w : World)
    (Hconcurrent : (2 <= max_concurrent)%Z)
    (Hretries : max_retries self <> 0%nat)
    (Hengaged : clock w - last_request_time w
                < delay_between_requests (rate_limiter self)) :
  let st0 := started (url0 :: url1 :: others) max_concurrent w in
  let st2 := after_turns env self [0; 1]%nat st0 in
  let st3 := after_turns env self [0; 1; 0]%nat st0 in
  let st4 := after_turns env self [0; 1; 0; 1]%nat st0 in
  let wake := clock w + (delay_between_requests (rate_limiter self)
                         - (clock w - last_request_time w)) in
  (exists k0 k1,
     tasks st2 = Suspended wake k0 :: Suspended wake k1 :: map Pending others) /\
  wake == last_request_time w + delay_between_requests (rate_limiter self) /\
  last_request_time (world st3) = wake /\
  (scrape_calls w < scrape_calls (world st3))%nat /\
  wake <= clock (world st3) /\
  last_request_time (world st4) = clock (world st3) /\
  (scrape_calls (world st3) < scrape_calls (world st4))%nat.
Proof.
  intros st0 st2' st3 st4 wake.
  set (wait_time := delay_between_requests (rate_limiter self)
                    - (clock w - last_request_time w)).
  destruct (advance_engaged self url0 w Hengaged Hretries) as (k0 & Hk0 & Hstamp0).
  set (w1 := log (EvSleep wait_time) w).
  destruct (advance_engaged self url1 w1 Hengaged Hretries) as (k1 & Hk1 & Hstamp1).
  fold wait_time in Hk0.
  change (delay_between_requests (rate_limiter self)
          - (clock w1 - last_request_time w1)) with wait_time in Hk1.
  set (w2 := log (EvSleep wait_time) w1).
  (* the first two turns: both crawls go to sleep in the limiter *)
  set (st1 := resume env self 0 st0).
  assert (Hst1 : st1 = {| world := w1; semaphore := max_concurrent - 1;
                          tasks := Suspended wake k0 :: Pending url1
                                     :: map Pending others |}).
  { unfold st1. rewrite (resume_pending self st0 0 url0); [|reflexivity|cbn; lia].
    change (world st0) with w. rewrite Hk0. reflexivity. }
  set (st2 := resume env self 1 st1).
  assert (Hst2 : st2 = {| world := w2; semaphore := max_concurrent - 1 - 1;
                          tasks := Suspended wake k0 :: Suspended wake k1
                                     :: map Pending others |}).
  { unfold st2. rewrite Hst1.
    rewrite (resume_pending self _ 1 url1); [|reflexivity|cbn; lia].
    cbn [world]. rewrite Hk1. reflexivity. }
  assert (E2 : st2' = st2) by reflexivity.
  assert (E3 : st3 = resume env self 0 st2) by reflexivity.
  assert (E4 : st4 = resume env self 1 st3) by reflexivity.
  assert (Hwake : clock w < wake) by (unfold wake; lra).
  assert (Hw3 : world st3 = snd (advance env (k0 tt) (woken wake w2))).
  { rewrite E3, Hst2. rewrite (resume_suspended self _ 0 wake k0) by reflexivity.
    apply settle_world. }
  assert (Hc2 : clock (woken wake w2) = wake).
  { cbn [woken clock w2 w1 log].
    destruct (Qlt_le_dec (clock w) wake); [reflexivity | lra]. }
  destruct (advance_stamps (k0 tt) (woken wake w2) Hstamp0) as (Hl3 & Hn3 & Hc3).
  rewrite <- Hw3, Hc2 in Hl3, Hc3. rewrite <- Hw3 in Hn3.
  assert (Ht3 : tasks st3 !! 1%nat = Some (Suspended wake k1)).
  { rewrite E3, Hst2. rewrite (resume_suspended self _ 0 wake k0) by reflexivity.
    destruct (advance env (k0 tt) _) as [[o|s k] w']; reflexivity. }
  assert (Hw4 : world st4 = snd (advance env (k1 tt) (woken wake (world st3)))).
  { rewrite E4. rewrite (resume_suspended self _ 1 wake k1) by exact Ht3.
    apply settle_world. }
  assert (Hc4 : clock (woken wake (world st3)) = clock (world st3)).
  { cbn [woken clock].
    destruct (Qlt_le_dec (clock (world st3)) wake); [lra | reflexivity]. }
  destruct (advance_stamps (k1 tt) (woken wake (world st3)) Hstamp1)
    as (Hl4 & Hn4 & _).
  rewrite <- Hw4, Hc4 in Hl4. rewrite <- Hw4 in Hn4.
  split; [exists k0, k1; rewrite E2, Hst2; reflexivity|].
  split; [unfold wake; ring|].
  split; [exact Hl3|]. split; [exact Hn3|]. split; [exact Hc3|].
  split; [exact Hl4 | exact Hn4].
Qed.

End SharedWait.

Section MoreWitnesses.
Import Crawler Spec Batch Samples.
Local Open Scope string_scope.

Lemma concurrency_ceiling_witness :
  let st := after_turns shop xlmoto [1; 0; 2; 1]%nat
              (started [helmet_url; gloves_url; boots_url] 2 idle) in
  (Z.of_nat (in_flight st) <= 2)%Z /\
  (Z.of_nat (in_flight st) = 2 - semaphore st)%Z /\
  length (tasks st) = 3%nat.
Proof.
  pose proof (concurrency_ceiling shop xlmoto [helmet_url; gloves_url; boots_url] 2
                [1; 0; 2; 1]%nat idle) as H.
  cbv zeta in *. destruct H as (H1 & H2 & H3 & _); [lia|].
  split; [exact H1|]. split; [exact H2 | exact H3].
Defined.

Lemma crawl_multiple_without_slots_witness :
  match crawl_multiple shop xlmoto [helmet_url; gloves_url] 0 (fun n => n) 15 idle with
  | Completed (Exc e) w' =>
      (0 < 0)%Z /\ w' = idle /\
      e = mkExc ValueError "Semaphore initial value must be >= 0"
  | Completed (Ok _) _ => False
  | Interrupted _ _ => False
  | Deadlock => 0%Z = 0%Z
  | OutOfFuel => 0%Z = 0%Z /\ 15%nat = 0%nat
  end.
Proof.
  apply (crawl_multiple_without_slots shop xlmoto [helmet_url; gloves_url] 0
           (fun n => n) 15 idle).
  - discriminate.
  - lia.
Defined.

Lemma parse_ai_response_skips_prose_witness :
  let body := String "{" ("" ++ "}") in
  AISearch._parse_ai_response (lib := RefLib.ref_lib)
    ("Here is the JSON: " ++ body ++ " Good luck.")
  = AISearch._parse_ai_response (lib := RefLib.ref_lib) body /\
  AISearch.slice ("Here is the JSON: " ++ body ++ " Good luck.")
    (AISearch.find "{" ("Here is the JSON: " ++ body ++ " Good luck."))
    (AISearch.rfind "}" ("Here is the JSON: " ++ body ++ " Good luck.") + 1) = body.
Proof.
  apply (parse_ai_response_skips_prose (lib := RefLib.ref_lib)
           "Here is the JSON: " "" " Good luck.").
  - reflexivity.
  - reflexivity.
Defined.

(** Behind the slow line the delay is half a second and a call takes a
    fifth: the first call is made at 10.5, the second at 10.7. *)
Lemma concurrent_crawls_share_the_wait_witness :
  let w := {| clock := 10; last_request_time := 10; scrape_calls := 0; trace := [] |} in
  let st0 := started [helmet_url; boots_url] 2 w in
  let st2 := after_turns slow_shop xlmoto [0; 1]%nat st0 in
  let st3 := after_turns slow_shop xlmoto [0; 1; 0]%nat st0 in
  let st4 := after_turns slow_shop xlmoto [0; 1; 0; 1]%nat st0 in
  let wake := 10 + ((1 # 2) - (10 - 10)) in
  (exists k0 k1, tasks st2 = Suspended wake k0 :: Suspended wake k1 :: map Pending []) /\
  wake == 10 + (1 # 2) /\
  last_request_time (world st3) = wake /\
  (0 < scrape_calls (world st3))%nat /\
  wake <= clock (world st3) /\
  last_request_time (world st4) = clock (world st3) /\
  (scrape_calls (world st3) < scrape_calls (world st4))%nat.
Proof.
  apply (concurrent_crawls_share_the_wait slow_shop xlmoto helmet_url boots_url [] 2
           {| clock := 10; last_request_time := 10; scrape_calls := 0; trace := [] |}).
  - lia.
  - discriminate.
  - reflexivity.
Defined.

(** The two stamps of that example: a fifth of a second apart, under a
    delay of half a second. *)
Example stamps_behind_slow_line :
  let w := {| clock := 10; last_request_time := 10; scrape_calls := 0; trace := [] |} in
  let st0 := started [helmet_url; boots_url] 2 w in
  let st3 := after_turns slow_shop xlmoto [0; 1; 0]%nat st0 in
  let st4 := after_turns slow_shop xlmoto [0; 1; 0; 1]%nat st0 in
  last_request_time (world st3) == 21 # 2 /\
  last_request_time (world st4) == 107 # 10 /\
  List.filter is_scrape (trace (world st4)) = [EvScrape helmet_url; EvScrape boots_url].
Proof. cbv zeta. repeat split; vm_compute; reflexivity. Qed.

End MoreWitnesses.

Section SitemapFacts.
Import Sitemap.

Lemma lookup_store_eq {V} key (value : V) d : lookup key (store key value d) = Some value.
Proof.
  induction d as [|[k v] rest IH]; cbn [store lookup].
  - rewrite String.eqb_refl. reflexivity.
  - destruct (String.eqb k key) eqn:E; cbn [lookup]; rewrite E; auto.
Qed.

Lemma lookup_store_ne {V} key other (value : V) d :
  other <> key -> lookup other (store key value d) = lookup other d.
Proof.
  intros Hne. induction d as [|[k v] rest IH]; cbn [store lookup].
  - destruct (String.eqb key other) eqn:E; [|reflexivity].
    apply String.eqb_eq in E. congruence.
  - destruct (String.eqb k key) eqn:E; cbn [lookup].
    + apply String.eqb_eq in E. subst k.
      destruct (String.eqb key other) eqn:E'; [|reflexivity].
      apply String.eqb_eq in E'. congruence.
    + rewrite IH. reflexivity.
Qed.

Lemma first_category_known text items name :
  first_category text items = Some name -> is_Some (lookup name items).
Proof.
  induction items as [|[k config] rest IH]; [discriminate|].
  cbn [first_category lookup]. destruct (existsb _ _).
  - intros H. injection H as ->. rewrite String.eqb_refl. eauto.
  - intros H. destruct (String.eqb k name); [eauto | apply IH, H].
Qed.

Lemma falling_into_app self name a b :
  falling_into self name (a ++ b) = falling_into self name a ++ falling_into self name b.
Proof. apply List.filter_app. Qed.

Lemma filed_under_other self name done entry :
  match categorize_entry self entry with
  | Some c => c <> name
  | None => True
  end ->
  filed_under self name (done ++ [entry]) = filed_under self name done.
Proof.
  intros H. unfold filed_under. rewrite falling_into_app.
  assert (E : falling_into self name [entry] = []).
  { unfold falling_into. cbn [List.filter].
    destruct (categorize_entry self entry) as [c|]; [|reflexivity].
    destruct (String.eqb_spec c name); [contradiction | reflexivity]. }
  rewrite E, app_nil_r. reflexivity.
Qed.

Lemma filed_under_same self name done entry :
  categorize_entry self entry = Some name -> Crawler.nonempty name = true ->
  filed_under self name (done ++ [entry])
  = Some (take (limit_of self name)
               (map (with_category name) (falling_into self name done)
                  ++ [with_category name entry])).
Proof.
  intros Hc Hn. unfold filed_under. rewrite falling_into_app.
  assert (E : falling_into self name [entry] = [entry]).
  { unfold falling_into. cbn [List.filter]. rewrite Hc, String.eqb_refl. reflexivity. }
  rewrite E. destruct (falling_into self name done ++ [entry]) as [|x l] eqn:Ea.
  - destruct (falling_into self name done); discriminate.
  - rewrite Hn, <- Ea, map_app. reflexivity.
Qed.

Lemma file_entry_step self done categorized entry :
  (forall name, lookup name categorized = filed_under self name done) ->
  exists categorized',
    file_entry self categorized entry = Ok categorized' /\
    forall name, lookup name categorized' = filed_under self name (done ++ [entry]).
Proof.
  intros Hinv. unfold file_entry.
  destruct (categorize_entry self entry) as [c|] eqn:Hc.
  2:{ exists categorized. split; [reflexivity|]. intros name.
      rewrite filed_under_other; [apply Hinv | rewrite Hc; exact I]. }
  destruct (Crawler.nonempty c) eqn:Hn.
  2:{ exists categorized. split; [reflexivity|]. intros name.
      destruct (String.eqb_spec c name) as [->|Hne].
      - rewrite Hinv. unfold filed_under.
        destruct (falling_into self name done);
          destruct (falling_into self name (done ++ [entry])); rewrite ?Hn; reflexivity.
      - rewrite filed_under_other; [apply Hinv | rewrite Hc; exact Hne]. }
  destruct (first_category_known _ _ _ Hc) as [config Hconfig]. rewrite Hconfig.
  set (categorized1 := match lookup c categorized with
                       | Some _ => categorized
                       | None => store c [] categorized
                       end).
  set (filed := map (with_category c) (falling_into self c done)).
  assert (Hfiled : lookup c categorized1 = Some (take (limit_of self c) filed)).
  { unfold categorized1. destruct (lookup c categorized) as [l|] eqn:El.
    - rewrite El, <- El, Hinv. rewrite Hinv in El. unfold filed_under in *.
      unfold filed. destruct (falling_into self c done); [discriminate|].
      rewrite Hn. reflexivity.
    - rewrite lookup_store_eq. rewrite Hinv in El. unfold filed_under in El.
      unfold filed. destruct (falling_into self c done) as [|x l].
      + cbn [map]. rewrite take_nil. reflexivity.
      + rewrite Hn in El. discriminate. }
  assert (Hother : forall name, name <> c ->
            lookup name categorized1 = filed_under self name (done ++ [entry])).
  { intros name Hne. rewrite filed_under_other by (rewrite Hc; congruence).
    rewrite <- Hinv. unfold categorized1.
    destruct (lookup c categorized); [reflexivity|]. apply lookup_store_ne, Hne. }
  rewrite Hfiled.
  assert (Hlimit : limit_of self c = Z.to_nat (Crawler.getattr (limit config) 10%Z)).
  { unfold limit_of. rewrite Hconfig. reflexivity. }
  set (L := Crawler.getattr (limit config) 10%Z) in *.
  destruct (Z.of_nat (length (take (limit_of self c) filed)) <? L)%Z eqn:Hlt.
  - apply Z.ltb_lt in Hlt. eexists. split; [reflexivity|]. intros name.
    destruct (String.eqb_spec name c) as [->|Hne].
    + rewrite lookup_store_eq, filed_under_same by assumption. fold filed.
      rewrite length_take in Hlt.
      assert (length filed < limit_of self c)%nat by lia.
      rewrite take_ge by lia. rewrite take_ge by (rewrite length_app; cbn; lia).
      reflexivity.
    + rewrite lookup_store_ne by exact Hne. apply Hother, Hne.
  - apply Z.ltb_ge in Hlt. exists categorized1. split; [reflexivity|]. intros name.
    destruct (String.eqb_spec name c) as [->|Hne]; [|apply Hother, Hne].
    rewrite Hfiled, filed_under_same by assumption. fold filed.
    rewrite length_take in Hlt. f_equal.
    rewrite take_app_le by lia. reflexivity.
Qed.

Lemma file_entries_spec self entries : forall done categorized,
  (forall name, lookup name categorized = filed_under self name done) ->
  exists categorized',
    file_entries self categorized entries = Ok categorized' /\
    forall name, lookup name categorized' = filed_under self name (done ++ entries).
Proof.
  induction entries as [|entry rest IH]; intros done categorized Hinv.
  - exists categorized. rewrite app_nil_r. auto.
  - destruct (file_entry_step self done categorized entry Hinv) as (c1 & Hrun & Hinv1).
    destruct (IH (done ++ [entry]) c1 Hinv1) as (c2 & Hrun2 & Hinv2).
    exists c2. cbn [file_entries]. rewrite Hrun, Hrun2.
    split; [reflexivity|]. intros name. rewrite Hinv2, <- app_assoc. reflexivity.
Qed.

(** X26.  [filter_by_categories] files under each category the first
    entries of the sitemap that fall into it, in sitemap order and up to the
    category's limit (10 when none is configured), each marked with the
    category; a category no entry falls into does not appear, and no list is
    longer than its limit.  The method does not raise. *)
Theorem filter_by_categories_keeps_first (self : SitemapParser)
    (entries : list SitemapEntry) :
  exists categorized,
    filter_by_categories self entries = Ok categorized /\
    (forall name, lookup name categorized = filed_under self name entries) /\
    forall name filed,
      lookup name categorized = Some filed ->
      (length filed <= limit_of self name)%nat /\
      Forall (fun entry => category entry = Some name) filed /\
      filed = take (limit_of self name)
                   (map (with_category name) (falling_into self name entries)).
Proof.
  destruct (file_entries_spec self entries [] []) as (categorized & Hrun & Hinv).
  { intros name. reflexivity. }
  exists categorized. split; [exact Hrun|]. split; [exact Hinv|].
  intros name filed Hfiled. rewrite Hinv in Hfiled. cbn [app] in Hfiled.
  unfold filed_under in Hfiled.
  destruct (falling_into self name entries) as [|x l]; [discriminate|].
  destruct (Crawler.nonempty name); [|discriminate]. injection Hfiled as <-.
  split; [rewrite length_take; lia|]. split; [|reflexivity].
  apply Forall_take.
  change (Forall (fun entry => category entry = Some name)
                 (map (with_category name) (x :: l))).
  induction (x :: l) as [|e es IH]; constructor; [reflexivity | exact IH].
Qed.

End SitemapFacts.
